(** * Collision-Simulation: a shallow embedding of [main.py]

    The program is a 2D simulation of circular dots bouncing off the walls of
    a bounded world and off each other, with a spatial grid as broad phase.

    Numbers.  Python's [float] (and the [int]s mixed into it) are modelled by
    the real numbers [R]: every arithmetic operation is exact, rounding is
    outside the model.  A division whose divisor is zero raises
    [ZeroDivisionError], as [/] and [//] do in Python.

    Objects.  The dots are shared between the list [DOTS] and the buckets of
    the grid.  The model keeps one store, the list of dots, and the buckets
    hold indices into it, so that a velocity written through one reference is
    seen through all the others. *)

From Stdlib Require Import Reals Lra Lia ZArith List Bool.
From stdpp Require Import base tactics option list.
Import ListNotations.

Open Scope R_scope.

(** ** Exceptions and the error monad *)

Inductive exn : Set :=
| ZeroDivisionError   (* raised by [/] and [//] on a zero divisor *)
| IndexError          (* a list index out of range *)
| DanglingReference.  (* an index that is not in the store; no Python
                         counterpart, the code holds object references *)

Inductive result (A : Type) : Type :=
| Ok (a : A)
| Raise (e : exn).
Arguments Ok {A} a.
Arguments Raise {A} e.

#[global] Instance result_ret : MRet result := fun A a => Ok a.
#[global] Instance result_bind : MBind result := fun A B f m =>
  match m with
  | Ok a => f a
  | Raise e => Raise e
  end.

(** [for_each l body s]: the statement [for x in l: body(x)] over the
    threaded state [s]; the first exception ends the loop. *)
Fixpoint for_each {A S : Type} (l : list A) (body : A -> S -> result S) (s : S)
  : result S :=
  match l with
  | [] => Ok s
  | x :: l' => s' ← body x s; for_each l' body s'
  end.

(** ** Numbers *)

Definition Rltb (x y : R) : bool := if Rlt_dec x y then true else false.
Definition Rleb (x y : R) : bool := if Rle_dec x y then true else false.

(** [x / y] *)
Definition py_div (x y : R) : result R :=
  if Req_dec_T y 0 then Raise ZeroDivisionError else Ok (x / y).

(** [int(x // y)] *)
Definition py_floordiv (x y : R) : result Z :=
  if Req_dec_T y 0 then Raise ZeroDivisionError else Ok (Int_part (x / y)).

(** [math.hypot(x, y)] *)
Definition hypot (x y : R) : R := sqrt (x * x + y * y).

(** ** Configuration *)

Definition WORLD_SIZE : R * R := (6000, 4500).
Definition GRID_SIZE : R := 25.

(** [neighbor_offsets]: the comprehension over [dx], [dy] in [[-1, 0, 1]]
    that skips [(0, 0)]. *)
Definition neighbor_offsets : list (Z * Z) :=
  Eval cbv in
  flat_map (fun dx : Z =>
    flat_map (fun dy : Z =>
      if (negb (dx =? 0) || negb (dy =? 0))%Z then [(dx, dy)] else [])
      [-1; 0; 1]%Z)
    [-1; 0; 1]%Z.

(** ** Dots *)

Record Dot : Type := mkDot {
  pos : R * R;
  vel : R * R;
  color : Z * Z * Z;
  size : R;
  visible : bool
}.

Definition set_pos (d : Dot) (p : R * R) : Dot :=
  {| pos := p; vel := vel d; color := color d; size := size d;
     visible := visible d |}.
Definition set_vel (d : Dot) (v : R * R) : Dot :=
  {| pos := pos d; vel := v; color := color d; size := size d;
     visible := visible d |}.
Definition set_visible (d : Dot) (b : bool) : Dot :=
  {| pos := pos d; vel := vel d; color := color d; size := size d;
     visible := b |}.

(** ** Narrow phase *)

Definition detect_collision (dot1 dot2 : Dot) : bool :=
  let dist_x := Rabs (fst (pos dot1) - fst (pos dot2)) in
  let dist_y := Rabs (snd (pos dot1) - snd (pos dot2)) in
  if Rltb (size dot1 + size dot2) dist_x || Rltb (size dot1 + size dot2) dist_y
  then false
  else
    let dx := fst (pos dot1) - fst (pos dot2) in
    let dy := snd (pos dot1) - snd (pos dot2) in
    Rltb (dx * dx + dy * dy) ((size dot1 + size dot2) ^ 2).

(** ** Resolution

    [resolve_collision] returns the two dots as the call leaves them. *)
Definition resolve_collision (dot1 dot2 : Dot) : result (Dot * Dot) :=
  let '(x1, y1) := pos dot1 in
  let '(x2, y2) := pos dot2 in
  let '(vx1, vy1) := vel dot1 in
  let '(vx2, vy2) := vel dot2 in
  let dx := x2 - x1 in
  let dy := y2 - y1 in
  let dist := hypot dx dy in
  nx ← py_div dx dist;
  ny ← py_div dy dist;
  let dot_product := (vx2 - vx1) * nx + (vy2 - vy1) * ny in
  if Rltb 0 dot_product then Ok (dot1, dot2)
  else
    let m1 := size dot1 in
    let m2 := size dot2 in
    coeff ← py_div (2 * dot_product) (m1 + m2);
    let vx1 := vx1 + coeff * m2 * nx in
    let vy1 := vy1 + coeff * m2 * ny in
    let vx2 := vx2 - coeff * m1 * nx in
    let vy2 := vy2 - coeff * m1 * ny in
    Ok (set_vel dot1 (vx1, vy1), set_vel dot2 (vx2, vy2)).

(** ** Globals

    The module-level variables that the functions read: the camera offset
    [CURRENT_POSITION], the zoom level [current_zoom] and the window size
    [WINDOW_SIZE].  Every function that reads a global takes them all. *)

Record Globals : Type := mkGlobals {
  CURRENT_POSITION : R * R;
  current_zoom : R;
  WINDOW_SIZE : R * R
}.

Definition set_CURRENT_POSITION (g : Globals) (p : R * R) : Globals :=
  {| CURRENT_POSITION := p; current_zoom := current_zoom g;
     WINDOW_SIZE := WINDOW_SIZE g |}.
Definition set_current_zoom (g : Globals) (z : R) : Globals :=
  {| CURRENT_POSITION := CURRENT_POSITION g; current_zoom := z;
     WINDOW_SIZE := WINDOW_SIZE g |}.

(** The values the module starts with. *)
Definition initial_globals : Globals :=
  {| CURRENT_POSITION := (- fst WORLD_SIZE / 2, - snd WORLD_SIZE / 2);
     current_zoom := 1;
     WINDOW_SIZE := (800, 600) |}.

(** ** Visibility *)

Definition check_visibility (g : Globals) (self : Dot) : Dot * bool :=
  let x := fst (pos self) + fst (CURRENT_POSITION g) in
  let y := snd (pos self) + snd (CURRENT_POSITION g) in
  let is_visible :=
    (Rleb (- size self) (x * current_zoom g)
     && Rleb (x * current_zoom g) (fst (WINDOW_SIZE g) + size self))
    && (Rleb (- size self) (y * current_zoom g)
        && Rleb (y * current_zoom g) (snd (WINDOW_SIZE g) + size self)) in
  (set_visible self is_visible, is_visible).

Definition is_visible (self : Dot) : bool := visible self.

(** The screen point at which the draw code puts a world point, before its
    truncation to pixels: [(dot_x * current_zoom, dot_y * current_zoom)] with
    [dot_x = pos[0] + CURRENT_POSITION[0]]. *)
Definition world_to_screen (g : Globals) (p : R * R) : R * R :=
  ((fst p + fst (CURRENT_POSITION g)) * current_zoom g,
   (snd p + snd (CURRENT_POSITION g)) * current_zoom g).

(** [world_mouse_x], [world_mouse_y]: the world point under a screen point. *)
Definition screen_to_world (g : Globals) (m : R * R) : result (R * R) :=
  wx ← py_div (fst m) (current_zoom g);
  wy ← py_div (snd m) (current_zoom g);
  Ok (wx - fst (CURRENT_POSITION g), wy - snd (CURRENT_POSITION g)).

(** ** The grid *)

Abbreviation Cell := (Z * Z)%type.

(** The [defaultdict(list)]: an association list in insertion order, which is
    the order [grid.items()] iterates in.  The buckets hold indices into the
    store of dots. *)
Abbreviation Grid := (list (Cell * list nat)).

Fixpoint grid_get (grid : Grid) (cell : Cell) : option (list nat) :=
  match grid with
  | [] => None
  | (c, ks) :: rest => if decide (c = cell) then Some ks else grid_get rest cell
  end.

(** [grid[cell].append(key)] *)
Fixpoint grid_append (grid : Grid) (cell : Cell) (key : nat) : Grid :=
  match grid with
  | [] => [(cell, [key])]
  | (c, ks) :: rest =>
      if decide (c = cell) then (c, ks ++ [key]) :: rest
      else (c, ks) :: grid_append rest cell key
  end.

Definition get_grid_cell (g : Globals) (position : R * R) : result Cell :=
  adjusted_grid_size ← py_div GRID_SIZE (current_zoom g);
  cx ← py_floordiv (fst position) adjusted_grid_size;
  cy ← py_floordiv (snd position) adjusted_grid_size;
  Ok (cx, cy).

(** ** Motion and wall bounce

    [update g self key grid]: the method [self.update(grid)], where [key] is
    the reference to [self] that goes into the grid.  Returns the dot and the
    grid as the call leaves them. *)
Definition update (g : Globals) (self : Dot) (key : nat) (grid : Grid)
  : result (Dot * Grid) :=
  let x := fst (pos self) + fst (vel self) in
  let y := snd (pos self) + snd (vel self) in
  let '(x, vx) :=
    if Rltb x (size self) || Rltb (fst WORLD_SIZE - size self) x
    then (Rmax (size self) (Rmin x (fst WORLD_SIZE - size self)),
          fst (vel self) * -1)
    else (x, fst (vel self)) in
  let '(y, vy) :=
    if Rltb y (size self) || Rltb (snd WORLD_SIZE - size self) y
    then (Rmax (size self) (Rmin y (snd WORLD_SIZE - size self)),
          snd (vel self) * -1)
    else (y, snd (vel self)) in
  let self := set_vel (set_pos self (x, y)) (vx, vy) in
  cell ← get_grid_cell g (pos self);
  Ok (self, grid_append grid cell key).

(** ** One tick of physics *)

(** [dot.update(grid)] on the dot that the reference [key] stands for. *)
Definition update_ref (g : Globals) (key : nat) (st : list Dot * Grid)
  : result (list Dot * Grid) :=
  let '(dots, grid) := st in
  match dots !! key with
  | None => Raise DanglingReference
  | Some self =>
      '(self, grid) ← update g self key grid;
      Ok (<[key := self]> dots, grid)
  end.

(** [list(map(lambda dot: dot.update(grid), DOTS))] on a fresh grid. *)
Definition update_all (g : Globals) (dots : list Dot)
  : result (list Dot * Grid) :=
  for_each (seq 0 (length dots)) (update_ref g) (dots, []).

(** [if detect_collision(dot1, dot2): resolve_collision(dot1, dot2)] on the
    dots that the references [k1] and [k2] stand for. *)
Definition check_pair (k1 k2 : nat) (dots : list Dot) : result (list Dot) :=
  match dots !! k1, dots !! k2 with
  | Some dot1, Some dot2 =>
      if detect_collision dot1 dot2 then
        '(dot1, dot2) ← resolve_collision dot1 dot2;
        Ok (<[k2 := dot2]> (<[k1 := dot1]> dots))
      else Ok dots
  | _, _ => Raise DanglingReference
  end.

(** Collisions within the same cell: [for i, dot1 in enumerate(dots)],
    [for j in range(i + 1, len(dots))]. *)
Definition same_cell (ks : list nat) (dots : list Dot) : result (list Dot) :=
  for_each (seq 0 (length ks))
    (fun i dots =>
       for_each (seq (i + 1) (length ks - (i + 1)))
         (fun j dots =>
            match ks !! i, ks !! j with
            | Some k1, Some k2 => check_pair k1 k2 dots
            | _, _ => Raise IndexError
            end)
         dots)
    dots.

(** Collisions with neighboring cells. *)
Definition neighbor_cells (grid : Grid) (cell : Cell) (ks : list nat)
    (dots : list Dot) : result (list Dot) :=
  for_each neighbor_offsets
    (fun offset dots =>
       let neighbor_cell :=
         ((fst cell + fst offset)%Z, (snd cell + snd offset)%Z) in
       match grid_get grid neighbor_cell with
       | Some ks2 =>
           for_each ks (fun k1 => for_each ks2 (fun k2 => check_pair k1 k2))
             dots
       | None => Ok dots
       end)
    dots.

(** [for cell, dots in grid.items()] *)
Definition collisions (grid : Grid) (dots : list Dot) : result (list Dot) :=
  for_each grid
    (fun '(cell, ks) dots =>
       dots ← same_cell ks dots;
       neighbor_cells grid cell ks dots)
    dots.

(** The physics of one iteration of the main loop, when not paused. *)
Definition physics (g : Globals) (dots : list Dot)
  : result (list Dot * Grid) :=
  '(dots, grid) ← update_all g dots;
  dots ← collisions grid dots;
  Ok (dots, grid).

(** ** The rest of an iteration of the main loop *)

(** [Dot.check_visibility] on the dot that the reference [key] stands for,
    added to the counter [visible_dots]. *)
Definition check_visibility_ref (g : Globals) (key : nat)
    (st : list Dot * Z) : result (list Dot * Z) :=
  let '(dots, visible_dots) := st in
  match dots !! key with
  | None => Raise DanglingReference
  | Some self =>
      let '(self, is_visible) := check_visibility g self in
      Ok (<[key := self]> dots,
          (visible_dots + if is_visible then 1 else 0)%Z)
  end.

(** [for cell in grid: visible_dots += sum(map(Dot.check_visibility,
    grid[cell]))] *)
Definition count_visible (g : Globals) (grid : Grid) (dots : list Dot)
  : result (list Dot * Z) :=
  for_each grid (fun '(cell, ks) => for_each ks (check_visibility_ref g))
    (dots, 0%Z).

(** One iteration of the main loop, not paused, up to the drawing: the
    physics and the visibility of every dot. *)
Definition frame (g : Globals) (dots : list Dot) : result (list Dot * Z) :=
  '(dots, grid) ← physics g dots;
  count_visible g grid dots.

(** Successive iterations; [gs] holds the globals as the event handling of
    each iteration leaves them. *)
Fixpoint frames (gs : list Globals) (dots : list Dot) : result (list Dot) :=
  match gs with
  | [] => Ok dots
  | g :: gs' => '(dots, _) ← frame g dots; frames gs' dots
  end.

(** ** Zoom *)

(** Lines "Adjust the current position to zoom into the mouse position" of
    the [MOUSEWHEEL] branch, with [new_zoom] already computed. *)
Definition zoom_to (g : Globals) (mouse : R * R) (new_zoom : R)
  : result Globals :=
  ox ← py_div (fst mouse) (current_zoom g);
  nx ← py_div (fst mouse) new_zoom;
  oy ← py_div (snd mouse) (current_zoom g);
  ny ← py_div (snd mouse) new_zoom;
  Ok (set_current_zoom
        (set_CURRENT_POSITION g
           (fst (CURRENT_POSITION g) - (ox - nx),
            snd (CURRENT_POSITION g) - (oy - ny)))
        new_zoom).

(** The [MOUSEWHEEL] branch; [event_y] is the wheel movement. *)
Definition on_mousewheel (g : Globals) (mouse : R * R) (event_y : Z)
  : result Globals :=
  let zoom_factor := if (0 <? event_y)%Z then 5 / 100 else - (5 / 100) in
  let zoom_speed := 5 / 10 + current_zoom g / 3 in
  let new_zoom := current_zoom g + zoom_factor * zoom_speed in
  let new_zoom := Rmax (1 / 10) (Rmin new_zoom 3) in
  zoom_to g mouse new_zoom.

(** ** Quantities the properties are stated with *)

(** The collision normal of lines [dx = x2 - x1] to [nx, ny = ...]. *)
Definition normal (dot1 dot2 : Dot) : R * R :=
  let dx := fst (pos dot2) - fst (pos dot1) in
  let dy := snd (pos dot2) - snd (pos dot1) in
  (dx / hypot dx dy, dy / hypot dx dy).

(** [dot_product]: the relative velocity along the normal. *)
Definition normal_speed (dot1 dot2 : Dot) : R :=
  (fst (vel dot2) - fst (vel dot1)) * fst (normal dot1 dot2)
  + (snd (vel dot2) - snd (vel dot1)) * snd (normal dot1 dot2).

(** The component of [v] along the tangent [(-ny, nx)] of the normal [n]. *)
Definition tangential (n v : R * R) : R :=
  fst v * - snd n + snd v * fst n.

(** The two dots after the impulse of a collision has been applied. *)
Definition impulse (dot1 dot2 : Dot) : Dot * Dot :=
  let n := normal dot1 dot2 in
  let coeff := 2 * normal_speed dot1 dot2 / (size dot1 + size dot2) in
  (set_vel dot1 (fst (vel dot1) + coeff * size dot2 * fst n,
                 snd (vel dot1) + coeff * size dot2 * snd n),
   set_vel dot2 (fst (vel dot2) - coeff * size dot1 * fst n,
                 snd (vel dot2) - coeff * size dot1 * snd n)).

(** One axis of [update]: the new coordinate and velocity component. *)
Definition bounce (x v lo hi : R) : R * R :=
  if Rltb x lo || Rltb hi x then (Rmax lo (Rmin x hi), v * -1) else (x, v).

(** The dot as [update] leaves it. *)
Definition moved (self : Dot) : Dot :=
  let bx := bounce (fst (pos self) + fst (vel self)) (fst (vel self))
              (size self) (fst WORLD_SIZE - size self) in
  let b_y := bounce (snd (pos self) + snd (vel self)) (snd (vel self))
              (size self) (snd WORLD_SIZE - size self) in
  set_vel (set_pos self (fst bx, fst b_y)) (snd bx, snd b_y).

(** The cell of a position when the zoom is not zero. *)
Definition cell_of (g : Globals) (position : R * R) : Cell :=
  (Int_part (fst position / (GRID_SIZE / current_zoom g)),
   Int_part (snd position / (GRID_SIZE / current_zoom g))).

(** The specification's words: the screen-space bounding box of a dot, its
    screen point with a margin of [size] on every side. *)
Definition in_bounding_box (g : Globals) (self : Dot) (p : R * R) : Prop :=
  let c := world_to_screen g (pos self) in
  (fst c - size self <= fst p <= fst c + size self)
  /\ (snd c - size self <= snd p <= snd c + size self).

(** The screen rectangle [[0, width] x [0, height]]. *)
Definition on_screen (g : Globals) (p : R * R) : Prop :=
  (0 <= fst p <= fst (WINDOW_SIZE g)) /\ (0 <= snd p <= snd (WINDOW_SIZE g)).

(** The bounding box and the screen rectangle have a point in common. *)
Definition box_intersects_screen (g : Globals) (self : Dot) : Prop :=
  exists p, in_bounding_box g self p /\ on_screen g p.

(** Two stores that hold dots of the same position and size under every
    reference. *)
Definition same_shape (dots dots' : list Dot) : Prop :=
  length dots' = length dots
  /\ forall k d', dots' !! k = Some d' ->
       exists d, dots !! k = Some d /\ pos d' = pos d /\ size d' = size d.

(** The pair of references [(k1, k2)] does not collide in [dots]. *)
Definition calm (dots : list Dot) (k1 k2 : nat) : Prop :=
  exists dot1 dot2,
    dots !! k1 = Some dot1 /\ dots !! k2 = Some dot2
    /\ detect_collision dot1 dot2 = false.

(** [neighbor_cell]: the cell at offset [o] from [cell]. *)
Definition shift (cell : Cell) (o : Z * Z) : Cell :=
  ((fst cell + fst o)%Z, (snd cell + snd o)%Z).

(** Every bucket of the grid holds distinct references below [n], each to a
    dot whose position lies in the bucket's cell. *)
Definition filed (g : Globals) (dots : list Dot) (grid : Grid) (n : nat)
  : Prop :=
  forall c ks, (c, ks) ∈ grid ->
    NoDup ks
    /\ forall k, k ∈ ks ->
         (k < n)%nat /\ exists d, dots !! k = Some d /\ cell_of g (pos d) = c.

(** Two dots with the same position, velocity and size: they may differ in
    the [visible] flag, which the camera decides, and in color. *)
Definition alike (d d' : Dot) : Prop :=
  pos d = pos d' /\ vel d = vel d' /\ size d = size d'.

(** Two stores whose dots are alike, reference by reference. *)
Definition same_motion (dots dots' : list Dot) : Prop :=
  Forall2 alike dots dots'.

(** Two results that raise the same exception or return related values. *)
Definition agree {A : Type} (rel : A -> A -> Prop) (r r' : result A) : Prop :=
  match r, r' with
  | Ok a, Ok a' => rel a a'
  | Raise e, Raise e' => e = e'
  | _, _ => False
  end.

(** ** Scenarios

    The dots and cameras that the properties are evaluated on. *)

Definition WHITE : Z * Z * Z := (255, 255, 255)%Z.

(** Two overlapping dots that approach each other along the x axis. *)
Definition dot_a : Dot :=
  {| pos := (100, 100); vel := (2, 1); color := WHITE; size := 15;
     visible := false |}.
Definition dot_b : Dot :=
  {| pos := (120, 100); vel := (-1, 0); color := WHITE; size := 13;
     visible := false |}.

(** A dot thrown far beyond the right and the top wall. *)
Definition dot_fast : Dot :=
  {| pos := (3000, 2000); vel := (1000000, -1000000); color := WHITE;
     size := 19; visible := false |}.

(** The globals with another zoom level. *)
Definition zoomed (z : R) : Globals := set_current_zoom initial_globals z.

(** The camera of the visibility scenario. *)
Definition camera_origin : Globals :=
  {| CURRENT_POSITION := (0, 0); current_zoom := 1;
     WINDOW_SIZE := (800, 600) |}.

(** The two dots of the visibility scenario. *)
Definition dot_near : Dot :=
  {| pos := (100, 100); vel := (0, 0); color := WHITE; size := 10;
     visible := false |}.
Definition dot_far : Dot :=
  {| pos := (5000, 4000); vel := (0, 0); color := WHITE; size := 10;
     visible := false |}.

(** Two dots that one step drives beyond the left and the bottom wall, so
    that both are clamped to the corner [(13, 13)]. *)
Definition corner_1 : Dot :=
  {| pos := (14, 14); vel := (-5, -5); color := WHITE; size := 13;
     visible := false |}.
Definition corner_2 : Dot :=
  {| pos := (15, 16); vel := (- (9 / 2), - (21 / 5)); color := WHITE;
     size := 13; visible := false |}.

(** After one step [tick_l] and [tick_far] are in cell [(1, 1)] and [tick_r]
    is in cell [(2, 1)]; [tick_l] and [tick_r] overlap and approach each
    other, [tick_far] touches neither. *)
Definition tick_l : Dot :=
  {| pos := (40, 30); vel := (5, 0); color := WHITE; size := 13;
     visible := false |}.
Definition tick_r : Dot :=
  {| pos := (65, 30); vel := (-5, 0); color := WHITE; size := 13;
     visible := false |}.
Definition tick_far : Dot :=
  {| pos := (26, 49); vel := (0, 0); color := WHITE; size := 13;
     visible := false |}.

(** The store of the three dots, and the grid that one step files them
    into. *)
Definition tick_dots : list Dot := [tick_l; tick_r; tick_far].
Definition tick_grid : Grid := [((1, 1)%Z, [0; 2]%nat); ((2, 1)%Z, [1]%nat)].

(** ** Quantities of the whole system *)

(** Twice the kinetic energy of a dot, its size being its mass
    ([m1, m2 = dot1.size, dot2.size]). *)
Definition kinetic (d : Dot) : R :=
  size d * (fst (vel d) * fst (vel d) + snd (vel d) * snd (vel d)).

(** The momentum of a dot on the x and on the y axis. *)
Definition momentum_x (d : Dot) : R := size d * fst (vel d).
Definition momentum_y (d : Dot) : R := size d * snd (vel d).

(** The sum of a quantity over all dots of a store. *)
Definition total (f : Dot -> R) (dots : list Dot) : R :=
  foldr (fun d acc => f d + acc) 0 dots.

(** The result of a call on two dots, with the dots in the other order. *)
Definition swapped (r : result (Dot * Dot)) : result (Dot * Dot) :=
  match r with
  | Ok (d1, d2) => Ok (d2, d1)
  | Raise e => Raise e
  end.

(** Two small dots that overlap across the border of the cells [(0, 0)]
    and [(1, 0)]. *)
Definition small_l : Dot :=
  {| pos := (24, 10); vel := (0, 0); color := WHITE; size := 5;
     visible := false |}.
Definition small_r : Dot :=
  {| pos := (30, 10); vel := (0, 0); color := WHITE; size := 5;
     visible := false |}.

(** The references that a grid holds, bucket after bucket. *)
Definition grid_keys (grid : Grid) : list nat := concat (snd <$> grid).

(** A dot is within the walls. *)
Definition contained (d : Dot) : Prop :=
  (size d <= fst (pos d) <= fst WORLD_SIZE - size d)
  /\ (size d <= snd (pos d) <= snd WORLD_SIZE - size d).

(** A dot fits between the walls. *)
Definition fits (d : Dot) : Prop :=
  2 * size d <= fst WORLD_SIZE /\ 2 * size d <= snd WORLD_SIZE.

(** A dot as [check_visibility] leaves it. *)
Definition shown (g : Globals) (d : Dot) : Dot := fst (check_visibility g d).

(** [1] for a dot that is on the screen, [0] for one that is not: what
    [sum] adds for the [True] and [False] that [check_visibility] returns. *)
Definition on_screen_count (g : Globals) (d : Dot) : Z :=
  if snd (check_visibility g d) then 1 else 0.

(** The sum of an integer quantity over a list. *)
Definition tally {A : Type} (f : A -> Z) (l : list A) : Z :=
  foldr (fun x acc => (f x + acc)%Z) 0%Z l.

(** [d'] differs from [d] in its velocity at most. *)
Definition same_body (d d' : Dot) : Prop := d' = set_vel d (vel d').

(** The three dots after one tick. *)
Definition tick_moved : list Dot := [moved tick_l; moved tick_r; moved tick_far].
Definition tick_after : list Dot :=
  [set_vel (moved tick_l) (-5, 0); set_vel (moved tick_r) (5, 0);
   moved tick_far].

(** Two dots that no tick brings together. *)
Definition apart_dots : list Dot := [tick_l; tick_far].

(** ** The other event handlers and the main loop *)

Definition set_WINDOW_SIZE (g : Globals) (s : R * R) : Globals :=
  {| CURRENT_POSITION := CURRENT_POSITION g; current_zoom := current_zoom g;
     WINDOW_SIZE := s |}.

(** The [MOUSEMOTION] branch; [buttons_2] is [event.buttons[2]], the right
    mouse button, and [rel] is [event.rel]. *)
Definition on_mousemotion (g : Globals) (buttons_2 : bool) (rel : R * R)
  : result Globals :=
  if buttons_2 then
    rx ← py_div (fst rel) (current_zoom g);
    ry ← py_div (snd rel) (current_zoom g);
    Ok (set_CURRENT_POSITION g
          (fst (CURRENT_POSITION g) + rx, snd (CURRENT_POSITION g) + ry))
  else Ok g.

(** The keys that the [KEYDOWN] branch tells apart. *)
Inductive Key : Set := K_e | K_ESCAPE | K_other.

(** The events that the loop tells apart, with the fields it reads. *)
Inductive Event : Type :=
| QUIT
| KEYDOWN (key : Key)
| MOUSEWHEEL (y : Z)
| MOUSEMOTION (buttons_2 : bool) (rel : R * R)
| VIDEORESIZE (size : R * R)
| OTHER.

(** The variables of the main loop.  [grid] is [None] as long as the name
    has not been assigned: the first assignment is in the physics of an
    iteration that is not paused. *)
Record Loop : Type := mkLoop {
  running : bool;
  is_paused : bool;
  text_update_counter : Z;
  globals : Globals;
  grid : option Grid;
  DOTS : list Dot;
  visible_dots : Z
}.

(** The start of [__main__]. *)
Definition initial_loop (dots : list Dot) : Loop :=
  {| running := true; is_paused := false; text_update_counter := 0;
     globals := initial_globals; grid := None; DOTS := dots;
     visible_dots := 0 |}.

(** What ends an iteration that does not complete. *)
Inductive loop_exn : Set :=
| NameError            (* a name read before its first assignment *)
| Uncaught (e : exn).  (* an exception of the physics or of a handler *)

Inductive outcome (A : Type) : Type :=
| Completes (a : A)
| Fails (e : loop_exn).
Arguments Completes {A} a.
Arguments Fails {A} e.

(** One event of [for event in pygame.event.get()], with the mouse position
    read at the start of the iteration. *)
Definition handle_event (mouse : R * R) (event : Event) (st : Loop)
  : result Loop :=
  match event with
  | QUIT =>
      Ok {| running := false; is_paused := is_paused st;
            text_update_counter := text_update_counter st;
            globals := globals st; grid := grid st; DOTS := DOTS st;
            visible_dots := visible_dots st |}
  | KEYDOWN K_e =>
      Ok {| running := running st; is_paused := negb (is_paused st);
            text_update_counter := text_update_counter st;
            globals := globals st; grid := grid st; DOTS := DOTS st;
            visible_dots := visible_dots st |}
  | KEYDOWN K_ESCAPE =>
      Ok {| running := false; is_paused := is_paused st;
            text_update_counter := text_update_counter st;
            globals := globals st; grid := grid st; DOTS := DOTS st;
            visible_dots := visible_dots st |}
  | KEYDOWN K_other => Ok st
  | MOUSEWHEEL y =>
      g ← on_mousewheel (globals st) mouse y;
      Ok {| running := running st; is_paused := is_paused st;
            text_update_counter := text_update_counter st;
            globals := g; grid := grid st; DOTS := DOTS st;
            visible_dots := visible_dots st |}
  | MOUSEMOTION buttons_2 rel =>
      g ← on_mousemotion (globals st) buttons_2 rel;
      Ok {| running := running st; is_paused := is_paused st;
            text_update_counter := text_update_counter st;
            globals := g; grid := grid st; DOTS := DOTS st;
            visible_dots := visible_dots st |}
  | VIDEORESIZE size =>
      Ok {| running := running st; is_paused := is_paused st;
            text_update_counter := text_update_counter st;
            globals := set_WINDOW_SIZE (globals st) size; grid := grid st;
            DOTS := DOTS st; visible_dots := visible_dots st |}
  | OTHER => Ok st
  end.

(** "Calculate physics if not paused". *)
Definition physics_step (st : Loop) : result Loop :=
  if is_paused st then Ok st
  else
    '(dots, new_grid) ← physics (globals st) (DOTS st);
    Ok {| running := running st; is_paused := is_paused st;
          text_update_counter := text_update_counter st;
          globals := globals st; grid := Some new_grid; DOTS := dots;
          visible_dots := visible_dots st |}.

(** "Calculate what dots are visible on the screen": reads [grid]. *)
Definition visibility_step (st : Loop) : outcome Loop :=
  match grid st with
  | None => Fails NameError
  | Some the_grid =>
      match count_visible (globals st) the_grid (DOTS st) with
      | Raise e => Fails (Uncaught e)
      | Ok (dots, n) =>
          Completes {| running := running st; is_paused := is_paused st;
                       text_update_counter := text_update_counter st;
                       globals := globals st; grid := grid st; DOTS := dots;
                       visible_dots := n |}
      end
  end.

(** "Update the GUI text every 3 frames": the counter after the iteration,
    and whether the text is made anew. *)
Definition text_step (counter : Z) : Z * bool :=
  if (3 <=? counter)%Z then (0%Z, true) else (counter, false).

(** The body of [while running], up to the drawing, on the mouse position
    and the events of the iteration.  Returns the variables and, when the
    GUI text is made anew, the world coordinates of the mouse that it shows
    (before their rounding). *)
Definition iteration (mouse : R * R) (events : list Event) (st : Loop)
  : outcome (Loop * option (R * R)) :=
  let st := {| running := running st; is_paused := is_paused st;
               text_update_counter := (text_update_counter st + 1)%Z;
               globals := globals st; grid := grid st; DOTS := DOTS st;
               visible_dots := visible_dots st |} in
  match for_each events (handle_event mouse) st with
  | Raise e => Fails (Uncaught e)
  | Ok st =>
      match physics_step st with
      | Raise e => Fails (Uncaught e)
      | Ok st =>
          match visibility_step st with
          | Fails e => Fails e
          | Completes st =>
              let '(counter, renew) := text_step (text_update_counter st) in
              let st := {| running := running st; is_paused := is_paused st;
                           text_update_counter := counter;
                           globals := globals st; grid := grid st;
                           DOTS := DOTS st;
                           visible_dots := visible_dots st |} in
              if renew then
                match screen_to_world (globals st) mouse with
                | Raise e => Fails (Uncaught e)
                | Ok world_mouse => Completes (st, Some world_mouse)
                end
              else Completes (st, None)
          end
      end
  end.

(** [while running]: the iterations on the inputs that arrive, as long as
    [running] holds at the start of an iteration.  Returns the variables and
    what every iteration done has returned for the GUI text. *)
Fixpoint main_loop (inputs : list ((R * R) * list Event)) (st : Loop)
  : outcome (Loop * list (option (R * R))) :=
  match inputs with
  | [] => Completes (st, [])
  | (mouse, events) :: rest =>
      if running st then
        match iteration mouse events st with
        | Fails e => Fails e
        | Completes (st, text) =>
            match main_loop rest st with
            | Fails e => Fails e
            | Completes (st, texts) => Completes (st, text :: texts)
            end
        end
      else Completes (st, [])
  end.

(** The event that toggles the pause. *)
Definition is_pause_key (event : Event) : bool :=
  match event with
  | KEYDOWN K_e => true
  | _ => false
  end.

(** [is_paused] after the events of an iteration. *)
Definition paused_after (events : list Event) (paused : bool) : bool :=
  foldl (fun p event => if is_pause_key event then negb p else p)
    paused events.

(** The grid of the loop references every dot once. *)
Definition ready (st : Loop) : Prop :=
  exists the_grid,
    grid st = Some the_grid
    /\ grid_keys the_grid ≡ₚ seq 0 (length (DOTS st)).

(** Two dots of the largest size of the program that overlap, two cells
    apart. *)
Definition big_l : Dot :=
  {| pos := (24, 30); vel := (0, 0); color := WHITE; size := 19;
     visible := false |}.
Definition big_r : Dot :=
  {| pos := (61, 30); vel := (0, 0); color := WHITE; size := 19;
     visible := false |}.

(** The events that end the loop. *)
Definition is_quit (event : Event) : bool :=
  match event with
  | QUIT | KEYDOWN K_ESCAPE => true
  | _ => false
  end.

(** [size = dot.size * current_zoom]: the radius that the draw code gives
    the circle of a dot. *)
Definition drawn_radius (g : Globals) (d : Dot) : R := size d * current_zoom g.

(** The disc of that radius around the screen point of the dot has a point
    on the screen rectangle. *)
Definition disc_on_screen (g : Globals) (d : Dot) : Prop :=
  exists p,
    on_screen g p
    /\ (fst p - fst (world_to_screen g (pos d))) ^ 2
       + (snd p - snd (world_to_screen g (pos d))) ^ 2
       <= drawn_radius g d ^ 2.

(** * Properties *)

(** ** Numbers *)

Lemma Ok_inj {A : Type} (a b : A) : Ok a = Ok b -> a = b.
Proof. congruence. Qed.

Lemma Rltb_true x y : Rltb x y = true <-> x < y.
Proof. unfold Rltb. destruct (Rlt_dec x y); split; auto; discriminate. Qed.

Lemma Rltb_false x y : Rltb x y = false <-> y <= x.
Proof.
  unfold Rltb. destruct (Rlt_dec x y); split; auto; try discriminate; lra.
Qed.

Lemma Rleb_true x y : Rleb x y = true <-> x <= y.
Proof. unfold Rleb. destruct (Rle_dec x y); split; auto; discriminate. Qed.

Lemma Rleb_false x y : Rleb x y = false <-> y < x.
Proof.
  unfold Rleb. destruct (Rle_dec x y); split; auto; try discriminate; lra.
Qed.

Lemma py_div_ok x y : y <> 0 -> py_div x y = Ok (x / y).
Proof. intros H. unfold py_div. destruct (Req_dec_T y 0); congruence. Qed.

Lemma py_div_zero x : py_div x 0 = Raise ZeroDivisionError.
Proof. unfold py_div. destruct (Req_dec_T 0 0); congruence. Qed.

Lemma py_floordiv_ok x y : y <> 0 -> py_floordiv x y = Ok (Int_part (x / y)).
Proof. intros H. unfold py_floordiv. destruct (Req_dec_T y 0); congruence. Qed.

Lemma sum_squares_nonneg x y : 0 <= x * x + y * y.
Proof. nra. Qed.

Lemma hypot_0 : hypot 0 0 = 0.
Proof. unfold hypot. replace (0 * 0 + 0 * 0) with 0 by ring. apply sqrt_0. Qed.

Lemma hypot_square x y : hypot x y * hypot x y = x * x + y * y.
Proof. unfold hypot. apply sqrt_sqrt, sum_squares_nonneg. Qed.

Lemma hypot_pos x y : (x, y) <> (0, 0) -> 0 < hypot x y.
Proof.
  intros H. destruct (sqrt_pos (x * x + y * y)) as [Hlt | Heq]; [exact Hlt |].
  exfalso. apply H.
  symmetry in Heq. apply sqrt_eq_0 in Heq; [| apply sum_squares_nonneg].
  assert (x = 0) by nra. assert (y = 0) by nra. congruence.
Qed.

Lemma hypot_opp x y : hypot (- x) (- y) = hypot x y.
Proof. unfold hypot. f_equal. ring. Qed.

(** ** The normal *)

Lemma offset_nonzero (dot1 dot2 : Dot) :
  pos dot1 <> pos dot2 ->
  (fst (pos dot2) - fst (pos dot1), snd (pos dot2) - snd (pos dot1)) <> (0, 0).
Proof.
  intros H Heq. apply H. destruct (pos dot1), (pos dot2). simpl in *.
  injection Heq as H1 H2. f_equal; lra.
Qed.

Lemma normal_unit dot1 dot2 :
  pos dot1 <> pos dot2 ->
  fst (normal dot1 dot2) * fst (normal dot1 dot2)
  + snd (normal dot1 dot2) * snd (normal dot1 dot2) = 1.
Proof.
  intros H. apply offset_nonzero, hypot_pos in H.
  unfold normal. cbn [fst snd].
  set (dx := fst (pos dot2) - fst (pos dot1)) in *.
  set (dy := snd (pos dot2) - snd (pos dot1)) in *.
  pose proof (hypot_square dx dy) as Hsq.
  set (h := hypot dx dy) in *.
  replace (dx / h * (dx / h) + dy / h * (dy / h))
    with ((dx * dx + dy * dy) / (h * h)) by (field; lra).
  rewrite <- Hsq. field. lra.
Qed.

Lemma normal_swap dot1 dot2 :
  normal dot2 dot1 = (- fst (normal dot1 dot2), - snd (normal dot1 dot2)).
Proof.
  unfold normal. cbn [fst snd].
  set (dx := fst (pos dot2) - fst (pos dot1)).
  set (dy := snd (pos dot2) - snd (pos dot1)).
  replace (fst (pos dot1) - fst (pos dot2)) with (- dx) by (unfold dx; ring).
  replace (snd (pos dot1) - snd (pos dot2)) with (- dy) by (unfold dy; ring).
  rewrite hypot_opp. unfold Rdiv. f_equal; ring.
Qed.

Lemma normal_speed_swap dot1 dot2 :
  normal_speed dot2 dot1 = normal_speed dot1 dot2.
Proof. unfold normal_speed. rewrite normal_swap. cbn [fst snd]. ring. Qed.

(** ** What [resolve_collision] computes *)

Lemma resolve_collision_coincident dot1 dot2 :
  pos dot1 = pos dot2 -> resolve_collision dot1 dot2 = Raise ZeroDivisionError.
Proof.
  intros H. unfold resolve_collision. rewrite H.
  destruct (pos dot2) as [x2 y2], (vel dot1), (vel dot2).
  replace (x2 - x2) with 0 by ring. replace (y2 - y2) with 0 by ring.
  rewrite hypot_0, py_div_zero. reflexivity.
Qed.

Lemma resolve_collision_eq dot1 dot2 :
  pos dot1 <> pos dot2 -> size dot1 + size dot2 <> 0 ->
  resolve_collision dot1 dot2 =
  Ok (if Rltb 0 (normal_speed dot1 dot2) then (dot1, dot2)
      else impulse dot1 dot2).
Proof.
  intros Hpos Hm. pose proof (hypot_pos _ _ (offset_nonzero _ _ Hpos)) as Hh.
  unfold resolve_collision, impulse, normal_speed, normal.
  destruct (pos dot1) as [x1 y1], (pos dot2) as [x2 y2].
  destruct (vel dot1) as [vx1 vy1], (vel dot2) as [vx2 vy2].
  cbn [fst snd] in *.
  rewrite !py_div_ok by lra. cbn [mbind result_bind].
  destruct (Rltb 0 _); [reflexivity |].
  rewrite py_div_ok by assumption. reflexivity.
Qed.

Lemma normal_impulse dot1 dot2 :
  normal (fst (impulse dot1 dot2)) (snd (impulse dot1 dot2))
  = normal dot1 dot2.
Proof. reflexivity. Qed.

Lemma impulse_normal_speed dot1 dot2 :
  pos dot1 <> pos dot2 -> size dot1 + size dot2 <> 0 ->
  normal_speed (fst (impulse dot1 dot2)) (snd (impulse dot1 dot2))
  = - normal_speed dot1 dot2.
Proof.
  intros Hpos Hm. pose proof (normal_unit _ _ Hpos) as Hunit.
  unfold normal_speed at 1. rewrite normal_impulse.
  unfold impulse. cbn [fst snd pos vel set_vel].
  set (vn := normal_speed dot1 dot2).
  assert (Hvn : vn
                 = (fst (vel dot2) - fst (vel dot1)) * fst (normal dot1 dot2)
                   + (snd (vel dot2) - snd (vel dot1))
                     * snd (normal dot1 dot2))
    by reflexivity.
  destruct (normal dot1 dot2) as [n1 n2]. cbn [fst snd] in *.
  set (c := 2 * vn / (size dot1 + size dot2)).
  transitivity (vn - c * (size dot1 + size dot2) * (n1 * n1 + n2 * n2));
    [rewrite Hvn; ring |].
  rewrite Hunit. unfold c. field. assumption.
Qed.

Lemma impulse_tangential dot1 dot2 :
  tangential (normal dot1 dot2) (vel (fst (impulse dot1 dot2)))
  = tangential (normal dot1 dot2) (vel dot1)
  /\ tangential (normal dot1 dot2) (vel (snd (impulse dot1 dot2)))
     = tangential (normal dot1 dot2) (vel dot2).
Proof.
  unfold impulse, tangential. cbn [fst snd pos vel set_vel]. split; ring.
Qed.

Lemma impulse_momentum dot1 dot2 :
  size dot1 + size dot2 <> 0 ->
  size dot1 * fst (vel (fst (impulse dot1 dot2)))
  + size dot2 * fst (vel (snd (impulse dot1 dot2)))
  = size dot1 * fst (vel dot1) + size dot2 * fst (vel dot2)
  /\ size dot1 * snd (vel (fst (impulse dot1 dot2)))
     + size dot2 * snd (vel (snd (impulse dot1 dot2)))
     = size dot1 * snd (vel dot1) + size dot2 * snd (vel dot2).
Proof.
  intros Hm. unfold impulse. cbn [fst snd pos vel set_vel].
  split; field; assumption.
Qed.

(** ** Two dots that approach each other *)

Lemma pair_neq_fst (a b c d : R) : a <> c -> (a, b) <> (c, d).
Proof. congruence. Qed.

Lemma dot_a_b_apart : pos dot_a <> pos dot_b.
Proof. apply pair_neq_fst. lra. Qed.

(** ** Momentum *)

(** C3. For two dots with positive sizes (the masses) and different
    centers, [resolve_collision] returns, and the total momentum
    [size dot1 * vel dot1 + size dot2 * vel dot2] is the same before and
    after on both axes, whatever the two velocities are. *)
Theorem resolve_collision_momentum dot1 dot2 :
  0 < size dot1 -> 0 < size dot2 -> pos dot1 <> pos dot2 ->
  exists dot1' dot2',
    resolve_collision dot1 dot2 = Ok (dot1', dot2')
    /\ size dot1' = size dot1 /\ size dot2' = size dot2
    /\ size dot1' * fst (vel dot1') + size dot2' * fst (vel dot2')
       = size dot1 * fst (vel dot1) + size dot2 * fst (vel dot2)
    /\ size dot1' * snd (vel dot1') + size dot2' * snd (vel dot2')
       = size dot1 * snd (vel dot1) + size dot2 * snd (vel dot2).
Proof.
  intros H1 H2 Hpos. assert (Hm : size dot1 + size dot2 <> 0) by lra.
  rewrite (resolve_collision_eq _ _ Hpos Hm).
  destruct (Rltb 0 (normal_speed dot1 dot2)).
  - exists dot1, dot2. auto.
  - exists (fst (impulse dot1 dot2)), (snd (impulse dot1 dot2)).
    split; [destruct (impulse dot1 dot2); reflexivity |].
    split; [reflexivity |]. split; [reflexivity |].
    apply (impulse_momentum _ _ Hm).
Qed.

Lemma resolve_collision_momentum_witness :
  exists dot1' dot2',
    resolve_collision dot_a dot_b = Ok (dot1', dot2')
    /\ size dot1' = 15 /\ size dot2' = 13
    /\ size dot1' * fst (vel dot1') + size dot2' * fst (vel dot2')
       = 15 * 2 + 13 * -1
    /\ size dot1' * snd (vel dot1') + size dot2' * snd (vel dot2')
       = 15 * 1 + 13 * 0.
Proof.
  apply (resolve_collision_momentum dot_a dot_b).
  - simpl. lra.
  - simpl. lra.
  - exact dot_a_b_apart.
Defined.

(** ** Elasticity *)

(** C4. When [resolve_collision] applies the impulse, that is when the
    relative velocity along the normal is not positive, the relative velocity
    along the normal changes sign and keeps its magnitude, and the component
    of each velocity tangential to the normal is unchanged. *)
Theorem resolve_collision_elastic dot1 dot2 :
  0 < size dot1 -> 0 < size dot2 -> pos dot1 <> pos dot2 ->
  normal_speed dot1 dot2 <= 0 ->
  exists dot1' dot2',
    resolve_collision dot1 dot2 = Ok (dot1', dot2')
    /\ normal dot1' dot2' = normal dot1 dot2
    /\ normal_speed dot1' dot2' = - normal_speed dot1 dot2
    /\ Rabs (normal_speed dot1' dot2') = Rabs (normal_speed dot1 dot2)
    /\ tangential (normal dot1 dot2) (vel dot1')
       = tangential (normal dot1 dot2) (vel dot1)
    /\ tangential (normal dot1 dot2) (vel dot2')
       = tangential (normal dot1 dot2) (vel dot2).
Proof.
  intros H1 H2 Hpos Hvn. assert (Hm : size dot1 + size dot2 <> 0) by lra.
  rewrite (resolve_collision_eq _ _ Hpos Hm).
  apply Rltb_false in Hvn. rewrite Hvn.
  exists (fst (impulse dot1 dot2)), (snd (impulse dot1 dot2)).
  split; [destruct (impulse dot1 dot2); reflexivity |].
  split; [reflexivity |].
  pose proof (impulse_normal_speed _ _ Hpos Hm) as Hn.
  split; [exact Hn |].
  split; [rewrite Hn; apply Rabs_Ropp |].
  apply impulse_tangential.
Qed.

Lemma hypot_x_0 x : 0 <= x -> hypot x 0 = x.
Proof.
  intros H. unfold hypot. replace (x * x + 0 * 0) with (x * x) by ring.
  apply sqrt_square, H.
Qed.

Lemma normal_dot_a_b : normal dot_a dot_b = (1, 0).
Proof.
  unfold normal, dot_a, dot_b. cbn [pos fst snd].
  replace (120 - 100) with 20 by lra. replace (100 - 100) with 0 by lra.
  rewrite hypot_x_0 by lra. f_equal; lra.
Qed.

Lemma normal_speed_dot_a_b : normal_speed dot_a dot_b = -3.
Proof.
  unfold normal_speed. rewrite normal_dot_a_b.
  unfold dot_a, dot_b. cbn [vel fst snd]. lra.
Qed.

Lemma resolve_collision_elastic_witness :
  exists dot1' dot2',
    resolve_collision dot_a dot_b = Ok (dot1', dot2')
    /\ normal dot1' dot2' = normal dot_a dot_b
    /\ normal_speed dot1' dot2' = - normal_speed dot_a dot_b
    /\ Rabs (normal_speed dot1' dot2') = Rabs (normal_speed dot_a dot_b)
    /\ tangential (normal dot_a dot_b) (vel dot1')
       = tangential (normal dot_a dot_b) (vel dot_a)
    /\ tangential (normal dot_a dot_b) (vel dot2')
       = tangential (normal dot_a dot_b) (vel dot_b).
Proof.
  apply (resolve_collision_elastic dot_a dot_b).
  - simpl. lra.
  - simpl. lra.
  - exact dot_a_b_apart.
  - rewrite normal_speed_dot_a_b. lra.
Defined.

(** ** Narrow phase *)

Lemma detect_collision_exact dot1 dot2 :
  0 <= size dot1 + size dot2 ->
  detect_collision dot1 dot2 = true
  <-> (fst (pos dot1) - fst (pos dot2)) ^ 2
      + (snd (pos dot1) - snd (pos dot2)) ^ 2
      < (size dot1 + size dot2) ^ 2.
Proof.
  intros Hs. unfold detect_collision.
  set (dx := fst (pos dot1) - fst (pos dot2)).
  set (dy := snd (pos dot1) - snd (pos dot2)).
  set (s := size dot1 + size dot2) in *.
  replace (dx * dx + dy * dy) with (dx ^ 2 + dy ^ 2) by ring.
  destruct (Rltb s (Rabs dx)) eqn:Hx; cbn [orb].
  - apply Rltb_true in Hx. split; [discriminate |]. intros H. exfalso.
    unfold Rabs in Hx. destruct (Rcase_abs dx); nra.
  - destruct (Rltb s (Rabs dy)) eqn:Hy.
    + apply Rltb_true in Hy. split; [discriminate |]. intros H. exfalso.
      unfold Rabs in Hy. destruct (Rcase_abs dy); nra.
    + apply Rltb_true.
Qed.

(** C7. For two dots whose sizes do not sum to a negative number,
    [detect_collision] answers [true] exactly when
    [(x1 - x2)^2 + (y1 - y2)^2 < (size1 + size2)^2], with a strict
    inequality, so two dots that touch do not collide; the bounding-box
    rejection that comes first never changes that answer. *)
Theorem detect_collision_iff dot1 dot2 :
  0 <= size dot1 + size dot2 ->
  (detect_collision dot1 dot2 = true
   <-> (fst (pos dot1) - fst (pos dot2)) ^ 2
       + (snd (pos dot1) - snd (pos dot2)) ^ 2
       < (size dot1 + size dot2) ^ 2)
  /\ ((fst (pos dot1) - fst (pos dot2)) ^ 2
      + (snd (pos dot1) - snd (pos dot2)) ^ 2
      = (size dot1 + size dot2) ^ 2 ->
      detect_collision dot1 dot2 = false).
Proof.
  intros Hs. pose proof (detect_collision_exact dot1 dot2 Hs) as Hiff.
  split; [exact Hiff |].
  intros Heq. apply not_true_is_false. rewrite Hiff. lra.
Qed.

Lemma detect_collision_iff_witness :
  (detect_collision dot_a dot_b = true
   <-> (100 - 120) ^ 2 + (100 - 100) ^ 2 < (15 + 13) ^ 2)
  /\ ((100 - 120) ^ 2 + (100 - 100) ^ 2 = (15 + 13) ^ 2 ->
      detect_collision dot_a dot_b = false).
Proof.
  apply (detect_collision_iff dot_a dot_b). simpl. lra.
Defined.

Lemma detect_collision_sym dot1 dot2 :
  detect_collision dot2 dot1 = detect_collision dot1 dot2.
Proof.
  unfold detect_collision.
  rewrite (Rabs_minus_sym (fst (pos dot2))), (Rabs_minus_sym (snd (pos dot2))).
  rewrite (Rplus_comm (size dot2)).
  destruct (_ || _); [reflexivity |]. f_equal. ring.
Qed.

(** ** Motion and wall bounce *)

Lemma adjusted_grid_size_nonzero g :
  current_zoom g <> 0 -> GRID_SIZE / current_zoom g <> 0.
Proof.
  intros H. unfold GRID_SIZE, Rdiv.
  apply Rmult_integral_contrapositive_currified; [lra |].
  apply Rinv_neq_0_compat, H.
Qed.

Lemma get_grid_cell_eq g position :
  current_zoom g <> 0 -> get_grid_cell g position = Ok (cell_of g position).
Proof.
  intros H. unfold get_grid_cell.
  rewrite py_div_ok by assumption. cbn [mbind result_bind].
  rewrite !py_floordiv_ok by (apply adjusted_grid_size_nonzero, H).
  reflexivity.
Qed.

Lemma get_grid_cell_zero g position :
  current_zoom g = 0 -> get_grid_cell g position = Raise ZeroDivisionError.
Proof. intros H. unfold get_grid_cell. rewrite H, py_div_zero. reflexivity. Qed.

Lemma update_eq g self key grid :
  current_zoom g <> 0 ->
  update g self key grid
  = Ok (moved self, grid_append grid (cell_of g (pos (moved self))) key).
Proof.
  intros H. unfold update, moved, bounce.
  destruct (Rltb _ _ || Rltb _ _); destruct (Rltb _ _ || Rltb _ _);
    cbn [fst snd]; rewrite get_grid_cell_eq by assumption; reflexivity.
Qed.

Lemma bounce_contained x v lo hi :
  lo <= hi -> lo <= fst (bounce x v lo hi) <= hi.
Proof.
  intros H. unfold bounce.
  destruct (Rltb x lo) eqn:Hlo; cbn [orb fst].
  - split; [apply Rmax_l |]. apply Rmax_lub; [exact H | apply Rmin_r].
  - apply Rltb_false in Hlo. destruct (Rltb hi x) eqn:Hhi; cbn [fst].
    + split; [apply Rmax_l |]. apply Rmax_lub; [exact H | apply Rmin_r].
    + apply Rltb_false in Hhi. lra.
Qed.

Lemma bounce_velocity x v lo hi :
  snd (bounce x v lo hi) = if Rltb x lo || Rltb hi x then - v else v.
Proof. unfold bounce. destruct (_ || _); cbn [snd]; [ring | reflexivity]. Qed.

Lemma wall_hit_true x lo hi :
  x < lo \/ hi < x -> Rltb x lo || Rltb hi x = true.
Proof.
  intros [H | H]; apply Rltb_true in H; rewrite H;
    [reflexivity | apply orb_true_r].
Qed.

Lemma wall_hit_false x lo hi :
  lo <= x <= hi -> Rltb x lo || Rltb hi x = false.
Proof.
  intros [H1 H2]. apply Rltb_false in H1, H2. rewrite H1, H2. reflexivity.
Qed.

(** C5. For a dot whose diameter fits into the world on both axes, [update]
    returns (the zoom not being zero) and leaves the dot with
    [size <= pos <= WORLD_SIZE - size] on both axes, whatever position and
    velocity it started with; on an axis where the moved dot was beyond a
    wall the velocity component is negated, and on an axis where it was not,
    it is kept. *)
Theorem update_contained g self key grid :
  current_zoom g <> 0 ->
  2 * size self <= fst WORLD_SIZE -> 2 * size self <= snd WORLD_SIZE ->
  exists self' grid',
    update g self key grid = Ok (self', grid')
    /\ size self' = size self
    /\ size self <= fst (pos self') <= fst WORLD_SIZE - size self
    /\ size self <= snd (pos self') <= snd WORLD_SIZE - size self
    /\ (fst (pos self) + fst (vel self) < size self
        \/ fst WORLD_SIZE - size self < fst (pos self) + fst (vel self) ->
        fst (vel self') = - fst (vel self))
    /\ (snd (pos self) + snd (vel self) < size self
        \/ snd WORLD_SIZE - size self < snd (pos self) + snd (vel self) ->
        snd (vel self') = - snd (vel self))
    /\ (size self <= fst (pos self) + fst (vel self)
                  <= fst WORLD_SIZE - size self ->
        fst (vel self') = fst (vel self))
    /\ (size self <= snd (pos self) + snd (vel self)
                  <= snd WORLD_SIZE - size self ->
        snd (vel self') = snd (vel self)).
Proof.
  intros Hz Hx Hy. rewrite (update_eq _ _ _ _ Hz).
  eexists _, _. split; [reflexivity |].
  unfold moved. cbn [pos vel size set_pos set_vel fst snd].
  split; [reflexivity |].
  split; [apply bounce_contained; lra |].
  split; [apply bounce_contained; lra |].
  rewrite !bounce_velocity.
  repeat split; intros H;
    first [ rewrite (wall_hit_true _ _ _ H)
          | rewrite (wall_hit_false _ _ _ H) ];
    reflexivity.
Qed.

Lemma initial_zoom_nonzero : current_zoom initial_globals <> 0.
Proof. simpl. lra. Qed.

Lemma update_contained_witness :
  exists self' grid',
    update initial_globals dot_fast 0%nat [] = Ok (self', grid')
    /\ size self' = 19
    /\ 19 <= fst (pos self') <= 6000 - 19
    /\ 19 <= snd (pos self') <= 4500 - 19
    /\ fst (vel self') = - 1000000
    /\ snd (vel self') = 1000000.
Proof.
  destruct (update_contained initial_globals dot_fast 0%nat [])
    as (self' & grid' & Hu & Hs & Hpx & Hpy & Hvx & Hvy & _).
  - exact initial_zoom_nonzero.
  - simpl. lra.
  - simpl. lra.
  - exists self', grid'. simpl in *.
    repeat split; try tauto; lra.
Defined.

(** ** The cell of a dot *)

Lemma Int_part_eq (r : R) (z : Z) : IZR z <= r < IZR z + 1 -> Int_part r = z.
Proof. intros H. symmetry. apply Int_part_spec. lra. Qed.

Lemma grid_get_append_eq grid cell key :
  grid_get (grid_append grid cell key) cell
  = Some (default [] (grid_get grid cell) ++ [key]).
Proof.
  induction grid as [| [c ks] rest IH]; cbn [grid_append grid_get].
  - rewrite decide_True by reflexivity. reflexivity.
  - destruct (decide (c = cell)) as [-> | Hne]; cbn [grid_get].
    + rewrite decide_True by reflexivity. reflexivity.
    + rewrite decide_False by assumption. exact IH.
Qed.

Lemma grid_get_append_ne grid cell key cell' :
  cell <> cell' ->
  grid_get (grid_append grid cell key) cell' = grid_get grid cell'.
Proof.
  intros Hne. induction grid as [| [c ks] rest IH]; cbn [grid_append grid_get].
  - rewrite decide_False by assumption. reflexivity.
  - destruct (decide (c = cell)) as [-> | Hc]; cbn [grid_get].
    + rewrite !decide_False by assumption. reflexivity.
    + destruct (decide (c = cell')); [reflexivity | exact IH].
Qed.

(** C6, as the code has it.  The cell that [update] puts a dot into is
    [(floor (x / s), floor (y / s))] for the dot's new position [(x, y)] and
    the cell size [s = GRID_SIZE / current_zoom]: it is a function of the
    position and of the current zoom, and of no other global.  At zoom 1 the
    cell size is [GRID_SIZE]. *)
Theorem update_bucket g self key grid :
  current_zoom g <> 0 ->
  exists self' grid' ks,
    update g self key grid = Ok (self', grid')
    /\ get_grid_cell g (pos self')
       = Ok (Int_part (fst (pos self') / (GRID_SIZE / current_zoom g)),
             Int_part (snd (pos self') / (GRID_SIZE / current_zoom g)))
    /\ grid_get grid'
         (Int_part (fst (pos self') / (GRID_SIZE / current_zoom g)),
          Int_part (snd (pos self') / (GRID_SIZE / current_zoom g)))
       = Some (ks ++ [key])
    /\ (forall g', current_zoom g' = current_zoom g ->
          update g' self key grid = Ok (self', grid'))
    /\ (current_zoom g = 1 ->
          get_grid_cell g (pos self')
          = Ok (Int_part (fst (pos self') / GRID_SIZE),
                Int_part (snd (pos self') / GRID_SIZE))).
Proof.
  intros Hz. rewrite (update_eq _ _ _ _ Hz).
  eexists _, _, _. split; [reflexivity |].
  split; [apply get_grid_cell_eq, Hz |].
  split; [apply grid_get_append_eq |].
  split.
  - intros g' Hg'. rewrite update_eq by congruence.
    unfold cell_of. rewrite Hg'. reflexivity.
  - intros H1. rewrite get_grid_cell_eq by assumption.
    unfold cell_of. rewrite H1. unfold Rdiv at 2 4. rewrite Rinv_1, Rmult_1_r.
    reflexivity.
Qed.

Lemma update_bucket_witness :
  exists self' grid' ks,
    update initial_globals dot_a 0%nat [] = Ok (self', grid')
    /\ get_grid_cell initial_globals (pos self')
       = Ok (Int_part (fst (pos self') / (GRID_SIZE / 1)),
             Int_part (snd (pos self') / (GRID_SIZE / 1)))
    /\ grid_get grid'
         (Int_part (fst (pos self') / (GRID_SIZE / 1)),
          Int_part (snd (pos self') / (GRID_SIZE / 1)))
       = Some (ks ++ [0%nat])
    /\ (forall g', current_zoom g' = 1 ->
          update g' dot_a 0%nat [] = Ok (self', grid'))
    /\ (1 = 1 ->
          get_grid_cell initial_globals (pos self')
          = Ok (Int_part (fst (pos self') / GRID_SIZE),
                Int_part (snd (pos self') / GRID_SIZE))).
Proof.
  apply (update_bucket initial_globals dot_a 0%nat []).
  exact initial_zoom_nonzero.
Defined.

Lemma cell_of_20_zoom_1 : cell_of (zoomed 1) (20, 20) = (0, 0)%Z.
Proof.
  unfold cell_of, zoomed, GRID_SIZE.
  cbn [current_zoom set_current_zoom fst snd].
  rewrite (Int_part_eq (20 / (25 / 1)) 0) by lra. reflexivity.
Qed.

Lemma cell_of_20_zoom_3 : cell_of (zoomed 3) (20, 20) = (2, 2)%Z.
Proof.
  unfold cell_of, zoomed, GRID_SIZE.
  cbn [current_zoom set_current_zoom fst snd].
  rewrite (Int_part_eq (20 / (25 / 3)) 2) by lra. reflexivity.
Qed.

(** C6, as the specification has it, fails: the same position [(20, 20)] is
    in cell [(0, 0)] at zoom 1 and in cell [(2, 2)] at zoom 3, so the cell is
    not a function of the position only. *)
Lemma get_grid_cell_depends_on_zoom :
  get_grid_cell (zoomed 1) (20, 20) = Ok (0, 0)%Z
  /\ get_grid_cell (zoomed 3) (20, 20) = Ok (2, 2)%Z
  /\ get_grid_cell (zoomed 1) (20, 20) <> get_grid_cell (zoomed 3) (20, 20).
Proof.
  rewrite !get_grid_cell_eq by (simpl; lra).
  rewrite cell_of_20_zoom_1, cell_of_20_zoom_3.
  repeat split. discriminate.
Qed.

(** ** Visibility *)

Lemma check_visibility_true g self :
  snd (check_visibility g self) = true
  <-> (- size self <= fst (world_to_screen g (pos self))
                   <= fst (WINDOW_SIZE g) + size self)
      /\ (- size self <= snd (world_to_screen g (pos self))
                      <= snd (WINDOW_SIZE g) + size self).
Proof.
  unfold check_visibility, world_to_screen. cbn [fst snd].
  rewrite !andb_true_iff, !Rleb_true. tauto.
Qed.

Lemma interval_meet (a b c d : R) :
  a <= b -> c <= d -> a <= d -> c <= b -> exists p, a <= p <= b /\ c <= p <= d.
Proof.
  intros Hab Hcd Had Hcb. exists (Rmax a c).
  pose proof (Rmax_l a c). pose proof (Rmax_r a c).
  assert (Rmax a c <= b) by (apply Rmax_lub; lra).
  assert (Rmax a c <= d) by (apply Rmax_lub; lra).
  lra.
Qed.

Lemma check_visibility_box g self :
  0 <= size self -> 0 <= fst (WINDOW_SIZE g) -> 0 <= snd (WINDOW_SIZE g) ->
  snd (check_visibility g self) = true <-> box_intersects_screen g self.
Proof.
  intros Hs Hw Hh. rewrite check_visibility_true.
  unfold box_intersects_screen, in_bounding_box, on_screen.
  destruct (world_to_screen g (pos self)) as [sx sy]. cbn [fst snd]. split.
  - intros [Hx Hy].
    destruct (interval_meet (sx - size self) (sx + size self)
                0 (fst (WINDOW_SIZE g))) as [px Hpx]; try lra.
    destruct (interval_meet (sy - size self) (sy + size self)
                0 (snd (WINDOW_SIZE g))) as [py Hpy]; try lra.
    exists (px, py). cbn [fst snd]. tauto.
  - intros [[px py] [[Hbx Hby] [Hsx Hsy]]]. cbn [fst snd] in *. lra.
Qed.

(** C8. [check_visibility] answers [true] exactly when the screen-space
    bounding box of the dot (margin [size]) meets the screen rectangle, the
    screen point of a world point being [(pos + offset) * zoom]; it stores
    the answer in [visible].  With offset [(0, 0)], zoom 1 and an 800 x 600
    window, a dot of size 10 at [(100, 100)] is visible and one at
    [(5000, 4000)] is not. *)
Theorem check_visibility_correct :
  (forall g self,
      0 <= size self -> 0 <= fst (WINDOW_SIZE g) -> 0 <= snd (WINDOW_SIZE g) ->
      (snd (check_visibility g self) = true <-> box_intersects_screen g self)
      /\ is_visible (fst (check_visibility g self))
         = snd (check_visibility g self))
  /\ (forall g p,
        world_to_screen g p
        = ((fst p + fst (CURRENT_POSITION g)) * current_zoom g,
           (snd p + snd (CURRENT_POSITION g)) * current_zoom g))
  /\ snd (check_visibility camera_origin dot_near) = true
  /\ snd (check_visibility camera_origin dot_far) = false.
Proof.
  split; [| split; [| split]].
  - intros g self Hs Hw Hh. split; [| reflexivity].
    apply check_visibility_box; assumption.
  - reflexivity.
  - apply check_visibility_true. simpl. lra.
  - apply not_true_is_false. rewrite check_visibility_true. simpl. lra.
Qed.

Lemma check_visibility_correct_witness :
  (snd (check_visibility camera_origin dot_near) = true
   <-> box_intersects_screen camera_origin dot_near)
  /\ is_visible (fst (check_visibility camera_origin dot_near))
     = snd (check_visibility camera_origin dot_near).
Proof.
  apply (proj1 check_visibility_correct camera_origin dot_near); simpl; lra.
Defined.

(** ** Zoom *)

Lemma zoom_to_eq g mouse new_zoom :
  current_zoom g <> 0 -> new_zoom <> 0 ->
  zoom_to g mouse new_zoom
  = Ok {| CURRENT_POSITION :=
            (fst (CURRENT_POSITION g)
             - (fst mouse / current_zoom g - fst mouse / new_zoom),
             snd (CURRENT_POSITION g)
             - (snd mouse / current_zoom g - snd mouse / new_zoom));
          current_zoom := new_zoom;
          WINDOW_SIZE := WINDOW_SIZE g |}.
Proof.
  intros Hz Hn. unfold zoom_to. rewrite !py_div_ok by assumption. reflexivity.
Qed.

Lemma screen_to_world_eq g m :
  current_zoom g <> 0 ->
  screen_to_world g m
  = Ok (fst m / current_zoom g - fst (CURRENT_POSITION g),
        snd m / current_zoom g - snd (CURRENT_POSITION g)).
Proof.
  intros Hz. unfold screen_to_world. rewrite !py_div_ok by assumption.
  reflexivity.
Qed.

Lemma zoom_to_anchor g mouse new_zoom :
  current_zoom g <> 0 -> new_zoom <> 0 ->
  exists w g',
    screen_to_world g mouse = Ok w
    /\ world_to_screen g w = mouse
    /\ zoom_to g mouse new_zoom = Ok g'
    /\ current_zoom g' = new_zoom
    /\ world_to_screen g' w = mouse.
Proof.
  intros Hz Hn. rewrite screen_to_world_eq, zoom_to_eq by assumption.
  destruct mouse as [mx my].
  eexists _, _. split; [reflexivity |].
  unfold world_to_screen. cbn [fst snd].
  split; [f_equal; field; assumption |].
  split; [reflexivity |]. split; [reflexivity |].
  cbn [CURRENT_POSITION current_zoom fst snd]. f_equal; field; tauto.
Qed.

Lemma new_zoom_clamped z : 1 / 10 <= Rmax (1 / 10) (Rmin z 3) <= 3.
Proof.
  split; [apply Rmax_l |]. apply Rmax_lub; [lra | apply Rmin_r].
Qed.

(** C9. The zoom change keeps the world point under the anchor on the anchor:
    for every offset, every anchor and every old and new zoom in
    [[0.1, 3]], the world point that was under the anchor is mapped to the
    anchor again afterwards.  The wheel handler clamps the new zoom to
    [[0.1, 3]] and does the same.  From zoom 1 and offset [(0, 0)], zooming
    to 2 around [(400, 300)] keeps world point [(400, 300)] on screen point
    [(400, 300)]. *)
Theorem zoom_recenters :
  (forall g mouse new_zoom,
      1 / 10 <= current_zoom g <= 3 -> 1 / 10 <= new_zoom <= 3 ->
      exists w g',
        screen_to_world g mouse = Ok w
        /\ world_to_screen g w = mouse
        /\ zoom_to g mouse new_zoom = Ok g'
        /\ current_zoom g' = new_zoom
        /\ world_to_screen g' w = mouse)
  /\ (forall g mouse event_y,
        1 / 10 <= current_zoom g <= 3 ->
        exists w g',
          screen_to_world g mouse = Ok w
          /\ on_mousewheel g mouse event_y = Ok g'
          /\ 1 / 10 <= current_zoom g' <= 3
          /\ world_to_screen g' w = mouse)
  /\ (exists g',
        screen_to_world camera_origin (400, 300) = Ok (400, 300)
        /\ zoom_to camera_origin (400, 300) 2 = Ok g'
        /\ current_zoom g' = 2
        /\ world_to_screen g' (400, 300) = (400, 300)).
Proof.
  split; [| split].
  - intros g mouse new_zoom Hz Hn. apply zoom_to_anchor; lra.
  - intros g mouse event_y Hz. unfold on_mousewheel.
    set (z := Rmax _ _).
    assert (Hc : 1 / 10 <= z <= 3) by apply new_zoom_clamped.
    destruct (zoom_to_anchor g mouse z) as (w & g' & Hw & _ & Hg & Hz' & Hfix);
      [lra | lra |].
    exists w, g'. rewrite Hz'. auto.
  - destruct (zoom_to_anchor camera_origin (400, 300) 2)
      as (w & g' & Hw & _ & Hg & Hz' & Hfix); [simpl; lra | lra |].
    assert (Hw0 : screen_to_world camera_origin (400, 300) = Ok (400, 300)).
    { rewrite screen_to_world_eq by (simpl; lra). simpl.
      f_equal. f_equal; lra. }
    rewrite Hw0 in Hw. injection Hw as <-.
    exists g'. auto.
Qed.

Lemma zoom_recenters_witness :
  exists w g',
    screen_to_world initial_globals (400, 300) = Ok w
    /\ world_to_screen initial_globals w = (400, 300)
    /\ zoom_to initial_globals (400, 300) 3 = Ok g'
    /\ current_zoom g' = 3
    /\ world_to_screen g' w = (400, 300).
Proof.
  apply (proj1 zoom_recenters initial_globals (400, 300) 3); simpl; lra.
Defined.

(** ** Loops *)

Section for_each.
Context {A S : Type}.
Implicit Types (l : list A) (body : A -> S -> result S) (s : S).

(** A loop whose every iteration leaves the state alone. *)
Lemma for_each_skip l body s :
  (forall x, x ∈ l -> body x s = Ok s) -> for_each l body s = Ok s.
Proof.
  induction l as [| x l IH]; intros H; cbn [for_each]; [reflexivity |].
  rewrite H by left. cbn [mbind result_bind].
  apply IH. intros y Hy. apply H. right. exact Hy.
Qed.

(** A loop in which only the iteration for [a] does something. *)
Lemma for_each_one l body s a :
  NoDup l -> a ∈ l ->
  (forall x, x ∈ l -> x <> a -> body x s = Ok s) ->
  (forall s', body a s = Ok s' ->
              forall x, x ∈ l -> x <> a -> body x s' = Ok s') ->
  for_each l body s = body a s.
Proof.
  induction l as [| x l IH]; intros Hnd Ha Hskip Hafter.
  - inversion Ha.
  - apply NoDup_cons in Hnd as [Hx Hnd]. cbn [for_each].
    apply elem_of_cons in Ha as [-> | Ha].
    + destruct (body x s) as [s' |] eqn:Hb; [| reflexivity].
      cbn [mbind result_bind]. apply for_each_skip.
      intros y Hy. apply (Hafter s' eq_refl); [right; exact Hy |].
      intros ->. contradiction.
    + assert (Hne : x <> a) by (intros ->; contradiction).
      rewrite Hskip by (left || assumption). cbn [mbind result_bind].
      apply IH; try assumption.
      * intros y Hy. apply Hskip. right. exact Hy.
      * intros s' Hs' y Hy. apply (Hafter s' Hs'). right. exact Hy.
Qed.

(** Two loops with bodies that agree. *)
Lemma for_each_ext l body body' s :
  (forall x s', x ∈ l -> body x s' = body' x s') ->
  for_each l body s = for_each l body' s.
Proof.
  revert s. induction l as [| x l IH]; intros s H; cbn [for_each];
    [reflexivity |].
  rewrite H by left. destruct (body' x s); [| reflexivity].
  cbn [mbind result_bind]. apply IH. intros y s' Hy. apply H. right. exact Hy.
Qed.
End for_each.

(** ** Pairs *)

Lemma detect_collision_shape dot1 dot2 dot1' dot2' :
  pos dot1' = pos dot1 -> size dot1' = size dot1 ->
  pos dot2' = pos dot2 -> size dot2' = size dot2 ->
  detect_collision dot1' dot2' = detect_collision dot1 dot2.
Proof.
  intros Hp1 Hs1 Hp2 Hs2. unfold detect_collision.
  rewrite Hp1, Hs1, Hp2, Hs2. reflexivity.
Qed.

Lemma same_shape_refl dots : same_shape dots dots.
Proof. split; [reflexivity |]. intros k d Hd. exists d. auto. Qed.

Lemma calm_shape dots dots' k1 k2 :
  same_shape dots dots' -> calm dots k1 k2 -> calm dots' k1 k2.
Proof.
  intros [Hlen Hsh] (d1 & d2 & H1 & H2 & Hd).
  destruct (lookup_lt_is_Some_2 dots' k1) as [d1' H1'];
    [rewrite Hlen; eapply lookup_lt_Some, H1 |].
  destruct (lookup_lt_is_Some_2 dots' k2) as [d2' H2'];
    [rewrite Hlen; eapply lookup_lt_Some, H2 |].
  exists d1', d2'. split; [exact H1' |]. split; [exact H2' |].
  destruct (Hsh _ _ H1') as (e1 & He1 & Hp1 & Hs1).
  destruct (Hsh _ _ H2') as (e2 & He2 & Hp2 & Hs2).
  rewrite H1 in He1. rewrite H2 in He2.
  injection He1 as <-. injection He2 as <-.
  rewrite <- Hd. apply detect_collision_shape; assumption.
Qed.

Lemma calm_sym dots k1 k2 : calm dots k1 k2 -> calm dots k2 k1.
Proof.
  intros (d1 & d2 & H1 & H2 & Hd). exists d2, d1.
  rewrite detect_collision_sym. auto.
Qed.

Lemma check_pair_calm dots k1 k2 :
  calm dots k1 k2 -> check_pair k1 k2 dots = Ok dots.
Proof.
  intros (d1 & d2 & H1 & H2 & Hd). unfold check_pair.
  rewrite H1, H2, Hd. reflexivity.
Qed.

Lemma resolve_collision_shape dot1 dot2 dot1' dot2' :
  resolve_collision dot1 dot2 = Ok (dot1', dot2') ->
  pos dot1' = pos dot1 /\ size dot1' = size dot1
  /\ pos dot2' = pos dot2 /\ size dot2' = size dot2.
Proof.
  unfold resolve_collision.
  destruct (pos dot1) as [x1 y1] eqn:Hp1, (pos dot2) as [x2 y2] eqn:Hp2.
  destruct (vel dot1) as [vx1 vy1], (vel dot2) as [vx2 vy2].
  destruct (py_div (x2 - x1) _) as [nx |]; [| discriminate].
  destruct (py_div (y2 - y1) _) as [n_y |]; [| discriminate].
  cbn [mbind result_bind].
  destruct (Rltb 0 _).
  - intros [= <- <-]. auto.
  - destruct (py_div _ _) as [coeff |]; [| discriminate].
    cbn [mbind result_bind]. intros [= <- <-].
    cbn [pos size set_vel]. auto.
Qed.

Lemma check_pair_shape dots k1 k2 dots' :
  check_pair k1 k2 dots = Ok dots' -> same_shape dots dots'.
Proof.
  unfold check_pair.
  destruct (dots !! k1) as [d1 |] eqn:H1; [| discriminate].
  destruct (dots !! k2) as [d2 |] eqn:H2; [| discriminate].
  destruct (detect_collision d1 d2);
    [| intros [= <-]; apply same_shape_refl].
  destruct (resolve_collision d1 d2) as [[d1' d2'] |] eqn:Hr; [| discriminate].
  cbn [mbind result_bind]. intros [= <-].
  apply resolve_collision_shape in Hr as (Hp1 & Hs1 & Hp2 & Hs2).
  split; [rewrite !length_insert; reflexivity |].
  intros k d' Hk.
  destruct (decide (k2 = k)) as [<- | Hne2].
  - rewrite list_lookup_insert_eq in Hk
      by (rewrite length_insert; eapply lookup_lt_Some, H2).
    injection Hk as <-. exists d2. auto.
  - rewrite list_lookup_insert_ne in Hk by assumption.
    destruct (decide (k1 = k)) as [<- | Hne1].
    + rewrite list_lookup_insert_eq in Hk by (eapply lookup_lt_Some, H1).
      injection Hk as <-. exists d1. auto.
    + rewrite list_lookup_insert_ne in Hk by assumption. exists d'. auto.
Qed.

(** ** The passes over a cell *)

Lemma same_cell_calm ks dots :
  NoDup ks ->
  (forall k1 k2, k1 ∈ ks -> k2 ∈ ks -> k1 <> k2 -> calm dots k1 k2) ->
  same_cell ks dots = Ok dots.
Proof.
  intros Hnd Hcalm. unfold same_cell.
  apply for_each_skip. intros i Hi. apply for_each_skip. intros j Hj.
  apply elem_of_seq in Hi, Hj.
  destruct (lookup_lt_is_Some_2 ks i) as [k1 H1]; [lia |].
  destruct (lookup_lt_is_Some_2 ks j) as [k2 H2]; [lia |].
  rewrite H1, H2. apply check_pair_calm, Hcalm.
  - eapply list_elem_of_lookup_2, H1.
  - eapply list_elem_of_lookup_2, H2.
  - intros ->. pose proof (NoDup_lookup _ _ _ _ Hnd H1 H2). lia.
Qed.

(** Every dot of one bucket against every dot of another, when [(a, b)] is
    the only pair that collides. *)
Lemma cross_cells ks1 ks2 a b dots :
  NoDup ks1 -> NoDup ks2 -> a ∈ ks1 -> b ∈ ks2 ->
  (forall k1 k2, k1 ∈ ks1 -> k2 ∈ ks2 -> k1 <> a \/ k2 <> b ->
                 calm dots k1 k2) ->
  for_each ks1 (fun k1 => for_each ks2 (fun k2 => check_pair k1 k2)) dots
  = check_pair a b dots.
Proof.
  intros Hnd1 Hnd2 Ha Hb Hcalm.
  assert (Hinner : for_each ks2 (fun k2 => check_pair a k2) dots
                   = check_pair a b dots).
  { apply for_each_one; try assumption.
    - intros k2 Hk2 Hne. apply check_pair_calm, Hcalm; auto.
    - intros dots' Hab k2 Hk2 Hne. apply check_pair_shape in Hab.
      apply check_pair_calm, (calm_shape _ _ _ _ Hab), Hcalm; auto. }
  rewrite <- Hinner.
  apply (for_each_one ks1
           (fun k1 => for_each ks2 (fun k2 => check_pair k1 k2)) dots a);
    try assumption.
  - intros k1 Hk1 Hne. apply for_each_skip. intros k2 Hk2.
    apply check_pair_calm, Hcalm; auto.
  - intros dots' Hab k1 Hk1 Hne. rewrite Hinner in Hab.
    apply check_pair_shape in Hab.
    apply for_each_skip. intros k2 Hk2.
    apply check_pair_calm, (calm_shape _ _ _ _ Hab), Hcalm; auto.
Qed.

Lemma neighbor_offsets_NoDup : NoDup neighbor_offsets.
Proof.
  unfold neighbor_offsets.
  repeat (apply NoDup_cons; split;
          [rewrite ?elem_of_cons, elem_of_nil; intros H;
           decompose [or] H; (discriminate || contradiction) |]).
  apply NoDup_nil. exact I.
Qed.

Lemma elem_of_neighbor_offsets (o : Z * Z) :
  o ∈ neighbor_offsets
  <-> (-1 <= fst o <= 1 /\ -1 <= snd o <= 1 /\ o <> (0, 0))%Z.
Proof.
  unfold neighbor_offsets. split.
  - rewrite !elem_of_cons, elem_of_nil.
    intros H. decompose [or] H; subst; cbn [fst snd];
      try (repeat split; (lia || discriminate)); contradiction.
  - destruct o as [x y]. cbn [fst snd]. intros (Hx & Hy & Hne).
    assert (Hcx : (x = -1 \/ x = 0 \/ x = 1)%Z) by lia.
    assert (Hcy : (y = -1 \/ y = 0 \/ y = 1)%Z) by lia.
    rewrite !elem_of_cons.
    destruct Hcx as [-> | [-> | ->]], Hcy as [-> | [-> | ->]];
      try contradiction; tauto.
Qed.

(** The neighbor pass of a cell, when [o] is the only offset that leads to an
    occupied cell. *)
Lemma neighbor_cells_one grid cell ks o ks' dots :
  o ∈ neighbor_offsets ->
  grid_get grid ((fst cell + fst o)%Z, (snd cell + snd o)%Z) = Some ks' ->
  (forall o', o' ∈ neighbor_offsets -> o' <> o ->
     grid_get grid ((fst cell + fst o')%Z, (snd cell + snd o')%Z) = None) ->
  neighbor_cells grid cell ks dots
  = for_each ks (fun k1 => for_each ks' (fun k2 => check_pair k1 k2)) dots.
Proof.
  intros Ho Hget Hnone. unfold neighbor_cells.
  rewrite (for_each_one neighbor_offsets _ dots o).
  - rewrite Hget. reflexivity.
  - exact neighbor_offsets_NoDup.
  - exact Ho.
  - intros o' Ho' Hne. rewrite (Hnone o' Ho' Hne). reflexivity.
  - intros dots' _ o' Ho' Hne. rewrite (Hnone o' Ho' Hne). reflexivity.
Qed.

(** ** Resolving a pair a second time *)

Lemma set_vel_id (d : Dot) (v : R * R) : v = vel d -> set_vel d v = d.
Proof. intros ->. destruct d. reflexivity. Qed.

Lemma impulse_at_rest dot1 dot2 :
  normal_speed dot1 dot2 = 0 -> impulse dot1 dot2 = (dot1, dot2).
Proof.
  intros H. unfold impulse. rewrite H.
  replace (2 * 0 / (size dot1 + size dot2)) with 0 by (unfold Rdiv; ring).
  f_equal; apply set_vel_id.
  - destruct (vel dot1). cbn [fst snd]. f_equal; ring.
  - destruct (vel dot2). cbn [fst snd]. f_equal; ring.
Qed.

(** After [resolve_collision] has returned, the same pair taken in the other
    order is left as it is: the dots now separate, or are at rest along the
    normal. *)
Lemma resolve_collision_again dot1 dot2 dot1' dot2' :
  pos dot1 <> pos dot2 -> size dot1 + size dot2 <> 0 ->
  resolve_collision dot1 dot2 = Ok (dot1', dot2') ->
  resolve_collision dot2' dot1' = Ok (dot2', dot1').
Proof.
  intros Hpos Hm Hr.
  pose proof (resolve_collision_shape _ _ _ _ Hr) as (Hp1 & Hs1 & Hp2 & Hs2).
  assert (Hvn : 0 <= normal_speed dot1' dot2').
  { rewrite (resolve_collision_eq _ _ Hpos Hm) in Hr.
    destruct (Rltb 0 (normal_speed dot1 dot2)) eqn:Hlt.
    - injection Hr as <- <-. apply Rltb_true in Hlt. lra.
    - apply Rltb_false in Hlt. apply Ok_inj in Hr as Hi.
      pose proof (impulse_normal_speed _ _ Hpos Hm) as Hn.
      rewrite Hi in Hn. cbn [fst snd] in Hn. lra. }
  rewrite resolve_collision_eq by (rewrite ?Hp1, ?Hp2, ?Hs1, ?Hs2; auto; lra).
  rewrite normal_speed_swap.
  destruct (Rltb 0 (normal_speed dot1' dot2')) eqn:Hlt; [reflexivity |].
  apply Rltb_false in Hlt. rewrite impulse_at_rest; [reflexivity |].
  rewrite normal_speed_swap. lra.
Qed.

Lemma check_pair_again a b dots da db dots' :
  a <> b -> dots !! a = Some da -> dots !! b = Some db ->
  pos da <> pos db -> size da + size db <> 0 ->
  check_pair a b dots = Ok dots' ->
  check_pair b a dots' = Ok dots'.
Proof.
  intros Hne Ha Hb Hpos Hm. unfold check_pair at 1. rewrite Ha, Hb.
  destruct (detect_collision da db) eqn:Hd.
  - destruct (resolve_collision da db) as [[da' db'] |] eqn:Hr;
      [| discriminate].
    cbn [mbind result_bind]. intros [= <-].
    pose proof (resolve_collision_shape _ _ _ _ Hr) as (Hp1 & Hs1 & Hp2 & Hs2).
    pose proof (lookup_lt_Some _ _ _ Ha) as Hla.
    pose proof (lookup_lt_Some _ _ _ Hb) as Hlb.
    assert (Hb' : <[b:=db']> (<[a:=da']> dots) !! b = Some db')
      by (apply list_lookup_insert_eq; rewrite length_insert; exact Hlb).
    assert (Ha' : <[b:=db']> (<[a:=da']> dots) !! a = Some da').
    { rewrite list_lookup_insert_ne by auto.
      apply list_lookup_insert_eq, Hla. }
    unfold check_pair. rewrite Ha', Hb'.
    rewrite detect_collision_sym,
      (detect_collision_shape _ _ _ _ Hp1 Hs1 Hp2 Hs2), Hd.
    rewrite (resolve_collision_again _ _ _ _ Hpos Hm Hr).
    cbn [mbind result_bind].
    rewrite (list_insert_id _ b db') by exact Hb'.
    rewrite (list_insert_id _ a da') by exact Ha'. reflexivity.
  - intros [= <-]. unfold check_pair. rewrite Ha, Hb.
    rewrite detect_collision_sym, Hd. reflexivity.
Qed.

(** ** Two adjacent cells *)

Lemma shift_back cell o :
  shift (shift cell o) ((- fst o)%Z, (- snd o)%Z) = cell.
Proof. destruct cell, o. unfold shift. cbn [fst snd]. f_equal; lia. Qed.

Lemma shift_inj cell o o' : shift cell o = shift cell o' -> o = o'.
Proof.
  destruct cell, o, o'. unfold shift. cbn [fst snd].
  intros [= H1 H2]. f_equal; lia.
Qed.

Lemma shift_neq cell o : o ∈ neighbor_offsets -> shift cell o <> cell.
Proof.
  intros Ho Heq. apply elem_of_neighbor_offsets in Ho as (_ & _ & Hne).
  apply Hne. destruct cell, o. unfold shift in Heq. cbn [fst snd] in Heq.
  injection Heq as H1 H2. f_equal; lia.
Qed.

Lemma neighbor_offsets_opp o :
  o ∈ neighbor_offsets -> ((- fst o)%Z, (- snd o)%Z) ∈ neighbor_offsets.
Proof.
  rewrite !elem_of_neighbor_offsets. destruct o as [x y]. cbn [fst snd].
  intros (Hx & Hy & Hne). repeat split; try lia.
  intros [= H1 H2]. apply Hne. f_equal; lia.
Qed.

Lemma collisions_two_cells c1 ks1 c2 ks2 o a b dots da db :
  o ∈ neighbor_offsets -> c2 = shift c1 o ->
  NoDup ks1 -> NoDup ks2 -> (forall k, k ∈ ks1 -> k ∉ ks2) ->
  a ∈ ks1 -> b ∈ ks2 ->
  dots !! a = Some da -> dots !! b = Some db ->
  pos da <> pos db -> size da + size db <> 0 ->
  (forall k1 k2, k1 ∈ ks1 ++ ks2 -> k2 ∈ ks1 ++ ks2 -> k1 <> k2 ->
     ~ (k1 = a /\ k2 = b) -> ~ (k1 = b /\ k2 = a) -> calm dots k1 k2) ->
  collisions [(c1, ks1); (c2, ks2)] dots = check_pair a b dots.
Proof.
  intros Ho -> Hnd1 Hnd2 Hdisj Ha Hb Hda Hdb Hpos Hm Hcalm.
  pose proof (shift_neq c1 o Ho) as Hc.
  assert (Hab : a <> b) by (intros ->; exact (Hdisj _ Ha Hb)).
  set (grid := [(c1, ks1); (shift c1 o, ks2)]).
  assert (Hcross1 : forall dots',
            neighbor_cells grid c1 ks1 dots'
            = for_each ks1 (fun k1 => for_each ks2 (fun k2 => check_pair k1 k2))
                dots').
  { intros dots'. apply (neighbor_cells_one grid c1 ks1 o ks2); [exact Ho | |].
    - fold (shift c1 o). unfold grid. cbn [grid_get].
      rewrite decide_False by auto. rewrite decide_True by reflexivity.
      reflexivity.
    - intros o' Ho' Hne. fold (shift c1 o'). unfold grid. cbn [grid_get].
      rewrite decide_False by (symmetry; apply shift_neq, Ho').
      rewrite decide_False by (intros Heq; apply shift_inj in Heq; auto).
      reflexivity. }
  assert (Hcross2 : forall dots',
            neighbor_cells grid (shift c1 o) ks2 dots'
            = for_each ks2 (fun k1 => for_each ks1 (fun k2 => check_pair k1 k2))
                dots').
  { intros dots'.
    apply (neighbor_cells_one grid (shift c1 o) ks2
             ((- fst o)%Z, (- snd o)%Z) ks1);
      [apply neighbor_offsets_opp, Ho | |].
    - fold (shift (shift c1 o) ((- fst o)%Z, (- snd o)%Z)).
      rewrite shift_back. unfold grid. cbn [grid_get].
      rewrite decide_True by reflexivity. reflexivity.
    - intros o' Ho' Hne. fold (shift (shift c1 o) o'). unfold grid.
      cbn [grid_get].
      rewrite decide_False.
      + rewrite decide_False by (symmetry; apply shift_neq, Ho').
        reflexivity.
      + intros Heq. apply Hne. apply (shift_inj (shift c1 o)).
        rewrite shift_back. symmetry. exact Heq. }
  assert (Hin1 : forall k1 k2, k1 ∈ ks1 -> k2 ∈ ks1 -> k1 <> k2 ->
                              calm dots k1 k2).
  { intros k1 k2 H1 H2 Hne. apply Hcalm; rewrite ?elem_of_app; auto.
    - intros [-> ->]. exact (Hdisj _ H2 Hb).
    - intros [-> ->]. exact (Hdisj _ H1 Hb). }
  assert (Hin2 : forall k1 k2, k1 ∈ ks2 -> k2 ∈ ks2 -> k1 <> k2 ->
                              calm dots k1 k2).
  { intros k1 k2 H1 H2 Hne. apply Hcalm; rewrite ?elem_of_app; auto.
    - intros [-> ->]. exact (Hdisj _ Ha H1).
    - intros [-> ->]. exact (Hdisj _ Ha H2). }
  assert (Hx12 : forall k1 k2, k1 ∈ ks1 -> k2 ∈ ks2 -> k1 <> a \/ k2 <> b ->
                              calm dots k1 k2).
  { intros k1 k2 H1 H2 Hor. apply Hcalm; rewrite ?elem_of_app; auto.
    - intros ->. exact (Hdisj _ H1 H2).
    - intros [-> ->]. tauto.
    - intros [-> ->]. exact (Hdisj _ H1 Hb). }
  assert (Hx21 : forall k1 k2, k1 ∈ ks2 -> k2 ∈ ks1 -> k1 <> b \/ k2 <> a ->
                              calm dots k1 k2).
  { intros k1 k2 H1 H2 Hor. apply Hcalm; rewrite ?elem_of_app; auto.
    - intros ->. exact (Hdisj _ H2 H1).
    - intros [-> ->]. exact (Hdisj _ Ha H1).
    - intros [-> ->]. tauto. }
  unfold collisions. unfold grid at 1. cbn [for_each].
  rewrite (same_cell_calm ks1 dots Hnd1 Hin1).
  cbn [mbind result_bind]. rewrite Hcross1.
  rewrite (cross_cells ks1 ks2 a b dots Hnd1 Hnd2 Ha Hb Hx12).
  destruct (check_pair a b dots) as [dots' |] eqn:Hp; [| reflexivity].
  cbn [mbind result_bind].
  pose proof (check_pair_shape _ _ _ _ Hp) as Hshape.
  rewrite (same_cell_calm ks2 dots' Hnd2)
    by (intros k1 k2 H1 H2 Hne; apply (calm_shape _ _ _ _ Hshape); auto).
  cbn [mbind result_bind]. rewrite Hcross2.
  rewrite (cross_cells ks2 ks1 b a dots' Hnd2 Hnd1 Hb Ha)
    by (intros k1 k2 H1 H2 Hor; apply (calm_shape _ _ _ _ Hshape); auto).
  rewrite (check_pair_again _ _ _ _ _ _ Hab Hda Hdb Hpos Hm Hp).
  reflexivity.
Qed.

(** ** Filling the grid *)

Lemma grid_append_elem grid cell key c ks' :
  (c, ks') ∈ grid_append grid cell key ->
  (c, ks') ∈ grid
  \/ (c = cell
      /\ exists ks, ks' = ks ++ [key] /\ (ks = [] \/ (c, ks) ∈ grid)).
Proof.
  induction grid as [| [c0 ks0] rest IH]; cbn [grid_append].
  - intros H. apply list_elem_of_singleton in H. injection H as -> ->.
    right. split; [reflexivity |]. exists []. auto.
  - destruct (decide (c0 = cell)) as [-> | Hne]; intros H;
      apply elem_of_cons in H as [H | H].
    + injection H as -> ->. right. split; [reflexivity |].
      exists ks0. split; [reflexivity |]. right. left.
    + left. right. exact H.
    + left. rewrite H. left.
    + destruct (IH H) as [Hin | (-> & ks & -> & [-> | Hin])].
      * left. right. exact Hin.
      * right. split; [reflexivity |]. exists []. auto.
      * right. split; [reflexivity |]. exists ks.
        split; [reflexivity |]. right. right. exact Hin.
Qed.

Lemma update_ref_eq g key dots grid self :
  current_zoom g <> 0 -> dots !! key = Some self ->
  update_ref g key (dots, grid)
  = Ok (<[key := moved self]> dots,
        grid_append grid (cell_of g (pos (moved self))) key).
Proof.
  intros Hz Hk. unfold update_ref. rewrite Hk, update_eq by assumption.
  reflexivity.
Qed.

Lemma update_ref_filed g n dots grid dots' grid' :
  current_zoom g <> 0 -> filed g dots grid n ->
  update_ref g n (dots, grid) = Ok (dots', grid') ->
  filed g dots' grid' (S n) /\ length dots' = length dots.
Proof.
  intros Hz Hf Hu.
  destruct (dots !! n) as [self |] eqn:Hn;
    [| unfold update_ref in Hu; rewrite Hn in Hu; discriminate].
  rewrite (update_ref_eq _ _ _ _ _ Hz Hn) in Hu. injection Hu as <- <-.
  split; [| apply length_insert].
  pose proof (lookup_lt_Some _ _ _ Hn) as Hlt.
  assert (Hold : forall c ks k, (c, ks) ∈ grid -> k ∈ ks ->
            (k < S n)%nat
            /\ exists d, <[n := moved self]> dots !! k = Some d
                         /\ cell_of g (pos d) = c).
  { intros c ks k Hin Hk. destruct (Hf c ks Hin) as [_ Hks].
    destruct (Hks k Hk) as (Hkn & d & Hd & Hc).
    split; [lia |]. exists d. rewrite list_lookup_insert_ne by lia. auto. }
  assert (Hnew : (n < S n)%nat
            /\ exists d, <[n := moved self]> dots !! n = Some d
                 /\ cell_of g (pos d) = cell_of g (pos (moved self))).
  { split; [lia |]. exists (moved self).
    rewrite list_lookup_insert_eq by exact Hlt. auto. }
  intros c ks' Hin.
  apply grid_append_elem in Hin as [Hin | (-> & ks & -> & [-> | Hin])].
  - split; [apply (Hf c ks' Hin) |]. intros k Hk. eapply Hold; eassumption.
  - cbn [app]. split; [apply NoDup_singleton |].
    intros k Hk. apply list_elem_of_singleton in Hk as ->. exact Hnew.
  - destruct (Hf _ ks Hin) as [Hnd Hks]. split.
    + apply NoDup_app. split; [exact Hnd |]. split; [| apply NoDup_singleton].
      intros k Hk Hk'. apply list_elem_of_singleton in Hk' as ->.
      destruct (Hks n Hk) as [Hlt' _]. lia.
    + intros k Hk. apply elem_of_app in Hk as [Hk | Hk].
      * eapply Hold; eassumption.
      * apply list_elem_of_singleton in Hk as ->. exact Hnew.
Qed.

Lemma update_loop_filed g m : forall n dots grid dots' grid',
  current_zoom g <> 0 -> filed g dots grid n ->
  for_each (seq n m) (update_ref g) (dots, grid) = Ok (dots', grid') ->
  filed g dots' grid' (n + m) /\ length dots' = length dots.
Proof.
  induction m as [| m IH]; intros n dots grid dots' grid' Hz Hf Hloop.
  - cbn [seq for_each] in Hloop. injection Hloop as <- <-.
    rewrite Nat.add_0_r. auto.
  - cbn [seq for_each] in Hloop.
    destruct (update_ref g n (dots, grid)) as [[dots1 grid1] |] eqn:Hu;
      [| discriminate].
    cbn [mbind result_bind] in Hloop.
    destruct (update_ref_filed _ _ _ _ _ _ Hz Hf Hu) as [Hf1 Hlen1].
    destruct (IH _ _ _ _ _ Hz Hf1 Hloop) as [Hf2 Hlen2].
    split; [| congruence]. replace (n + S m)%nat with (S n + m)%nat by lia.
    exact Hf2.
Qed.

Lemma update_all_filed g dots dots' grid' :
  current_zoom g <> 0 -> update_all g dots = Ok (dots', grid') ->
  filed g dots' grid' (length dots) /\ length dots' = length dots.
Proof.
  intros Hz Hu. apply (update_loop_filed g (length dots) 0%nat dots []);
    [exact Hz | | exact Hu].
  intros c ks Hin. inversion Hin.
Qed.

Lemma update_zero g self key grid :
  current_zoom g = 0 -> update g self key grid = Raise ZeroDivisionError.
Proof.
  intros Hz. unfold update.
  destruct (Rltb _ _ || Rltb _ _); destruct (Rltb _ _ || Rltb _ _);
    rewrite get_grid_cell_zero by assumption; reflexivity.
Qed.

Lemma update_ref_zero g key dots grid self :
  current_zoom g = 0 -> dots !! key = Some self ->
  update_ref g key (dots, grid) = Raise ZeroDivisionError.
Proof.
  intros Hz Hk. unfold update_ref. rewrite Hk, update_zero by assumption.
  reflexivity.
Qed.

Lemma update_all_zoom g dots dots' grid' :
  update_all g dots = Ok (dots', grid') -> grid' <> [] -> current_zoom g <> 0.
Proof.
  intros Hu Hne Hz. destruct dots as [| d rest].
  - unfold update_all in Hu. cbn [length seq for_each] in Hu.
    injection Hu as _ <-. contradiction.
  - unfold update_all in Hu. cbn [length seq for_each] in Hu.
    rewrite (update_ref_zero g 0%nat (d :: rest) [] d Hz eq_refl) in Hu.
    discriminate.
Qed.

(** ** One tick on two adjacent cells *)

(** C1. Let the dots, once moved and bucketed, occupy exactly two adjacent
    cells, and let the only pair of dots that collides be [a] in the first
    cell and [b] in the second.  Then the tick returns, and it leaves every
    dot as the bucketing left it except [a] and [b], which are as ONE call
    [resolve_collision a b] leaves them: the impulse is applied once when the
    two approach each other, although the neighbor pass visits the pair from
    both cells. *)
Theorem tick_resolves_once g dots0 dots c1 ks1 c2 ks2 o a b da db :
  update_all g dots0 = Ok (dots, [(c1, ks1); (c2, ks2)]) ->
  o ∈ neighbor_offsets -> c2 = shift c1 o ->
  a ∈ ks1 -> b ∈ ks2 ->
  dots !! a = Some da -> dots !! b = Some db ->
  0 < size da -> 0 < size db ->
  detect_collision da db = true ->
  (forall k1 k2 d1 d2,
      k1 <> k2 -> ~ (k1 = a /\ k2 = b) -> ~ (k1 = b /\ k2 = a) ->
      dots !! k1 = Some d1 -> dots !! k2 = Some d2 ->
      detect_collision d1 d2 = false) ->
  exists da' db',
    resolve_collision da db = Ok (da', db')
    /\ (da', db')
       = (if Rltb 0 (normal_speed da db) then (da, db) else impulse da db)
    /\ physics g dots0
       = Ok (<[b := db']> (<[a := da']> dots), [(c1, ks1); (c2, ks2)]).
Proof.
  intros Hu Ho Hc2 Ha Hb Hda Hdb Hsa Hsb Hdet Hothers.
  assert (Hz : current_zoom g <> 0)
    by (apply (update_all_zoom _ _ _ _ Hu); discriminate).
  destruct (update_all_filed _ _ _ _ Hz Hu) as [Hfiled _].
  destruct (Hfiled c1 ks1) as [Hnd1 Hks1]; [left |].
  destruct (Hfiled c2 ks2) as [Hnd2 Hks2]; [right; left |].
  assert (Hc : c2 <> c1) by (rewrite Hc2; apply shift_neq, Ho).
  assert (Hdisj : forall k, k ∈ ks1 -> k ∉ ks2).
  { intros k H1 H2.
    destruct (Hks1 k H1) as (_ & d & Hd & Hcell).
    destruct (Hks2 k H2) as (_ & d' & Hd' & Hcell').
    rewrite Hd in Hd'. injection Hd' as <-. congruence. }
  assert (Hpos : pos da <> pos db).
  { intros Heq.
    destruct (Hks1 a Ha) as (_ & d & Hd & Hcell).
    destruct (Hks2 b Hb) as (_ & d' & Hd' & Hcell').
    rewrite Hda in Hd. rewrite Hdb in Hd'.
    injection Hd as <-. injection Hd' as <-. congruence. }
  assert (Hm : size da + size db <> 0) by lra.
  assert (Hcalm : forall k1 k2, k1 ∈ ks1 ++ ks2 -> k2 ∈ ks1 ++ ks2 ->
            k1 <> k2 -> ~ (k1 = a /\ k2 = b) -> ~ (k1 = b /\ k2 = a) ->
            calm dots k1 k2).
  { assert (Hin : forall k, k ∈ ks1 ++ ks2 -> exists d, dots !! k = Some d).
    { intros k Hk. apply elem_of_app in Hk as [Hk | Hk].
      - destruct (Hks1 k Hk) as (_ & d & Hd & _). eauto.
      - destruct (Hks2 k Hk) as (_ & d & Hd & _). eauto. }
    intros k1 k2 H1 H2 Hne Hab Hba.
    destruct (Hin k1 H1) as [d1 Hd1]. destruct (Hin k2 H2) as [d2 Hd2].
    exists d1, d2. eauto. }
  rewrite (resolve_collision_eq _ _ Hpos Hm).
  eexists _, _. split; [apply f_equal, surjective_pairing |].
  split; [symmetry; apply surjective_pairing |].
  unfold physics. rewrite Hu. cbn [mbind result_bind].
  rewrite (collisions_two_cells c1 ks1 c2 ks2 o a b dots da db); try assumption.
  unfold check_pair. rewrite Hda, Hdb, Hdet.
  rewrite (resolve_collision_eq _ _ Hpos Hm).
  destruct (if Rltb 0 (normal_speed da db) then (da, db) else impulse da db).
  reflexivity.
Qed.

(** ** Evaluating [update] on given dots *)

Lemma moved_inside self :
  size self <= fst (pos self) + fst (vel self) <= fst WORLD_SIZE - size self ->
  size self <= snd (pos self) + snd (vel self) <= snd WORLD_SIZE - size self ->
  moved self
  = set_pos self (fst (pos self) + fst (vel self),
                  snd (pos self) + snd (vel self)).
Proof.
  intros Hx Hy. unfold moved, bounce.
  rewrite (wall_hit_false _ _ _ Hx), (wall_hit_false _ _ _ Hy).
  destruct self as [p [vx vy] c s v]. reflexivity.
Qed.

Lemma moved_corner self :
  fst (pos self) + fst (vel self) < size self ->
  snd (pos self) + snd (vel self) < size self ->
  2 * size self <= snd WORLD_SIZE ->
  moved self
  = set_vel (set_pos self (size self, size self))
      (fst (vel self) * -1, snd (vel self) * -1).
Proof.
  intros Hx Hy Hs. unfold moved, bounce.
  rewrite !wall_hit_true by auto. cbn [fst snd].
  assert (Hclamp : forall x hi, x < size self -> size self <= hi ->
            Rmax (size self) (Rmin x hi) = size self).
  { intros x hi H1 H2. rewrite Rmin_left by lra. apply Rmax_left. lra. }
  rewrite !Hclamp by (unfold WORLD_SIZE in *; cbn [fst snd] in *; lra).
  reflexivity.
Qed.

Lemma cell_of_eq g (p : R * R) (z1 z2 : Z) :
  current_zoom g = 1 ->
  IZR z1 * 25 <= fst p < (IZR z1 + 1) * 25 ->
  IZR z2 * 25 <= snd p < (IZR z2 + 1) * 25 ->
  cell_of g p = (z1, z2).
Proof.
  intros Hz H1 H2. unfold cell_of, GRID_SIZE. rewrite Hz.
  rewrite (Int_part_eq (fst p / (25 / 1)) z1) by lra.
  rewrite (Int_part_eq (snd p / (25 / 1)) z2) by lra.
  reflexivity.
Qed.

Lemma same_cell_two k1 k2 dots :
  same_cell [k1; k2] dots = check_pair k1 k2 dots.
Proof.
  unfold same_cell. cbn [length seq for_each Nat.add Nat.sub].
  change ([k1; k2] !! 0%nat) with (Some k1).
  change ([k1; k2] !! 1%nat) with (Some k2).
  destruct (check_pair k1 k2 dots); reflexivity.
Qed.

Lemma detect_collision_coincident dot1 dot2 :
  pos dot1 = pos dot2 -> 0 < size dot1 + size dot2 ->
  detect_collision dot1 dot2 = true.
Proof.
  intros Hp Hs. apply detect_collision_exact; [lra |].
  rewrite Hp. nra.
Qed.

(** ** Two dots driven into the same corner *)

Lemma moved_corner_1 :
  moved corner_1 = set_vel (set_pos corner_1 (13, 13)) (-5 * -1, -5 * -1).
Proof.
  apply moved_corner; unfold WORLD_SIZE; simpl; lra.
Qed.

Lemma moved_corner_2 :
  moved corner_2
  = set_vel (set_pos corner_2 (13, 13)) (- (9 / 2) * -1, - (21 / 5) * -1).
Proof.
  apply moved_corner; unfold WORLD_SIZE; simpl; lra.
Qed.

Lemma corner_cell (d : Dot) :
  pos d = (13, 13) -> cell_of initial_globals (pos d) = (0, 0)%Z.
Proof.
  intros ->. apply cell_of_eq; [reflexivity | |]; cbn [fst snd]; lra.
Qed.

Lemma update_all_corner :
  update_all initial_globals [corner_1; corner_2]
  = Ok ([moved corner_1; moved corner_2], [((0, 0)%Z, [0; 1]%nat)]).
Proof.
  unfold update_all. cbn [length seq for_each].
  erewrite update_ref_eq; [| exact initial_zoom_nonzero | reflexivity].
  cbn [mbind result_bind].
  erewrite update_ref_eq; [| exact initial_zoom_nonzero | reflexivity].
  cbn [mbind result_bind].
  rewrite !corner_cell
    by (rewrite ?moved_corner_1, ?moved_corner_2; reflexivity).
  reflexivity.
Qed.

(** C2, on the code.  Two dots of size 13 that one tick drives into the
    corner [(13, 13)] have the same center; the tick then calls
    [resolve_collision] on them and ends with [ZeroDivisionError], where the
    specification asks for a call that returns and changes nothing. *)
Theorem tick_coincident_raises :
  pos (moved corner_1) = pos (moved corner_2)
  /\ detect_collision (moved corner_1) (moved corner_2) = true
  /\ resolve_collision (moved corner_1) (moved corner_2)
     = Raise ZeroDivisionError
  /\ physics initial_globals [corner_1; corner_2] = Raise ZeroDivisionError.
Proof.
  assert (Hp : pos (moved corner_1) = pos (moved corner_2))
    by (rewrite moved_corner_1, moved_corner_2; reflexivity).
  assert (Hd : detect_collision (moved corner_1) (moved corner_2) = true)
    by (apply detect_collision_coincident; [exact Hp | simpl; lra]).
  assert (Hr : resolve_collision (moved corner_1) (moved corner_2)
               = Raise ZeroDivisionError)
    by (apply resolve_collision_coincident, Hp).
  repeat split; try assumption.
  unfold physics. rewrite update_all_corner. cbn [mbind result_bind].
  unfold collisions. cbn [for_each]. rewrite same_cell_two.
  unfold check_pair.
  change ([moved corner_1; moved corner_2] !! 0%nat)
    with (Some (moved corner_1)).
  change ([moved corner_1; moved corner_2] !! 1%nat)
    with (Some (moved corner_2)).
  cbv beta iota. rewrite Hd, Hr. reflexivity.
Qed.

(** ** Three dots on two adjacent cells *)

Lemma moved_tick_l : moved tick_l = set_pos tick_l (40 + 5, 30 + 0).
Proof. apply moved_inside; unfold WORLD_SIZE; simpl; lra. Qed.

Lemma moved_tick_r : moved tick_r = set_pos tick_r (65 + -5, 30 + 0).
Proof. apply moved_inside; unfold WORLD_SIZE; simpl; lra. Qed.

Lemma moved_tick_far : moved tick_far = set_pos tick_far (26 + 0, 49 + 0).
Proof. apply moved_inside; unfold WORLD_SIZE; simpl; lra. Qed.

Lemma update_all_tick_dots :
  update_all initial_globals tick_dots
  = Ok ([moved tick_l; moved tick_r; moved tick_far], tick_grid).
Proof.
  unfold update_all, tick_dots. cbn [length seq for_each].
  do 3 (erewrite update_ref_eq; [| exact initial_zoom_nonzero | reflexivity];
        cbn [mbind result_bind]).
  rewrite moved_tick_l, moved_tick_r, moved_tick_far.
  rewrite (cell_of_eq initial_globals (pos (set_pos tick_l _)) 1 1)
    by (try reflexivity; simpl; lra).
  rewrite (cell_of_eq initial_globals (pos (set_pos tick_r _)) 2 1)
    by (try reflexivity; simpl; lra).
  rewrite (cell_of_eq initial_globals (pos (set_pos tick_far _)) 1 1)
    by (try reflexivity; simpl; lra).
  reflexivity.
Qed.

Lemma detect_collision_tick_l_r :
  detect_collision (moved tick_l) (moved tick_r) = true.
Proof.
  rewrite moved_tick_l, moved_tick_r.
  apply detect_collision_exact; simpl; lra.
Qed.

Lemma detect_collision_tick_l_far :
  detect_collision (moved tick_l) (moved tick_far) = false.
Proof.
  rewrite moved_tick_l, moved_tick_far. apply not_true_is_false.
  rewrite detect_collision_exact; simpl; lra.
Qed.

Lemma detect_collision_tick_r_far :
  detect_collision (moved tick_r) (moved tick_far) = false.
Proof.
  rewrite moved_tick_r, moved_tick_far. apply not_true_is_false.
  rewrite detect_collision_exact; simpl; lra.
Qed.

Lemma normal_tick_l_r : normal (moved tick_l) (moved tick_r) = (1, 0).
Proof.
  rewrite moved_tick_l, moved_tick_r. unfold normal.
  cbn [pos set_pos fst snd].
  replace (65 + -5 - (40 + 5)) with 15 by lra.
  replace (30 + 0 - (30 + 0)) with 0 by lra.
  rewrite hypot_x_0 by lra. f_equal; lra.
Qed.

Lemma normal_speed_tick_l_r :
  normal_speed (moved tick_l) (moved tick_r) = -10.
Proof.
  unfold normal_speed. rewrite normal_tick_l_r, moved_tick_l, moved_tick_r.
  simpl. lra.
Qed.

Lemma impulse_tick_l_r :
  impulse (moved tick_l) (moved tick_r)
  = (set_vel (moved tick_l) (-5, 0), set_vel (moved tick_r) (5, 0)).
Proof.
  unfold impulse. rewrite normal_speed_tick_l_r, normal_tick_l_r.
  cbn [fst snd].
  rewrite moved_tick_l, moved_tick_r. unfold set_vel, set_pos. simpl.
  f_equal; f_equal; f_equal; lra.
Qed.

Lemma approaching_tick_l_r :
  Rltb 0 (normal_speed (moved tick_l) (moved tick_r)) = false.
Proof. apply Rltb_false. rewrite normal_speed_tick_l_r. lra. Qed.

(** One tick on [tick_dots]: the two dots that collide swap their velocities
    along the x axis, once. *)
Lemma tick_resolves_once_witness :
  physics initial_globals tick_dots
  = Ok ([set_vel (moved tick_l) (-5, 0); set_vel (moved tick_r) (5, 0);
         moved tick_far],
        tick_grid).
Proof.
  destruct (tick_resolves_once initial_globals tick_dots
              [moved tick_l; moved tick_r; moved tick_far]
              (1, 1)%Z [0; 2]%nat (2, 1)%Z [1]%nat (1, 0)%Z 0%nat 1%nat
              (moved tick_l) (moved tick_r))
    as (da' & db' & _ & Himp & Hphys).
  - exact update_all_tick_dots.
  - apply elem_of_neighbor_offsets. cbn [fst snd]. repeat split; try lia.
    discriminate.
  - reflexivity.
  - left.
  - left.
  - reflexivity.
  - reflexivity.
  - simpl. lra.
  - simpl. lra.
  - exact detect_collision_tick_l_r.
  - intros k1 k2 d1 d2 Hne Hab Hba H1 H2.
    destruct k1 as [| [| [| k1]]]; destruct k2 as [| [| [| k2]]];
      try discriminate; try (exfalso; tauto);
      injection H1 as <-; injection H2 as <-;
      first [ exact detect_collision_tick_l_far
            | exact detect_collision_tick_r_far
            | rewrite detect_collision_sym;
              first [ exact detect_collision_tick_l_far
                    | exact detect_collision_tick_r_far ] ].
  - rewrite approaching_tick_l_r, impulse_tick_l_r in Himp.
    injection Himp as -> ->. exact Hphys.
Defined.

(** ** The camera and the physics *)

Lemma alike_refl d : alike d d.
Proof. repeat split. Qed.

Lemma same_motion_refl dots : same_motion dots dots.
Proof. induction dots; constructor; [apply alike_refl | assumption]. Qed.

Lemma agree_bind {A B : Type} (rel : A -> A -> Prop) (rel' : B -> B -> Prop)
    (m m' : result A) (f f' : A -> result B) :
  agree rel m m' ->
  (forall a a', rel a a' -> agree rel' (f a) (f' a')) ->
  agree rel' (m ≫= f) (m' ≫= f').
Proof.
  intros Hm Hf. destruct m as [a | e], m' as [a' | e']; cbn in *;
    try contradiction; auto.
Qed.

Lemma for_each_agree {A S : Type} (rel : S -> S -> Prop) (l : list A)
    (body body' : A -> S -> result S) :
  (forall x s s', x ∈ l -> rel s s' -> agree rel (body x s) (body' x s')) ->
  forall s s', rel s s' -> agree rel (for_each l body s) (for_each l body' s').
Proof.
  induction l as [| x l IH]; intros Hbody s s' Hs; cbn [for_each].
  - exact Hs.
  - apply (agree_bind rel rel); [apply Hbody; [left | exact Hs] |].
    intros a a' Ha. apply IH; [| exact Ha].
    intros y t t' Hy. apply Hbody. right. exact Hy.
Qed.

Lemma get_grid_cell_zoom g g' position :
  current_zoom g = current_zoom g' ->
  get_grid_cell g position = get_grid_cell g' position.
Proof. intros Hz. unfold get_grid_cell. rewrite Hz. reflexivity. Qed.

Lemma alike_moved d d' : alike d d' -> alike (moved d) (moved d').
Proof.
  intros (Hp & Hv & Hs). unfold moved, alike.
  cbn [pos vel size set_pos set_vel].
  rewrite Hp, Hv, Hs. auto.
Qed.

Lemma update_agree g g' d d' key grid :
  current_zoom g = current_zoom g' -> alike d d' ->
  agree (fun r r' => alike (fst r) (fst r') /\ snd r = snd r')
    (update g d key grid) (update g' d' key grid).
Proof.
  intros Hz Hd. destruct (Req_dec_T (current_zoom g) 0) as [H0 | H0].
  - rewrite !update_zero by congruence. reflexivity.
  - rewrite !update_eq by congruence. cbn [agree fst snd].
    pose proof (alike_moved _ _ Hd) as Hm. split; [exact Hm |].
    destruct Hm as (Hp & _). unfold cell_of. rewrite Hp, Hz. reflexivity.
Qed.

Lemma same_motion_lookup dots dots' k :
  same_motion dots dots' ->
  match dots !! k, dots' !! k with
  | Some d, Some d' => alike d d'
  | None, None => True
  | _, _ => False
  end.
Proof.
  intros H. apply Forall2_lookup with (i := k) in H.
  destruct H; auto.
Qed.

Lemma update_ref_agree g g' key st st' :
  current_zoom g = current_zoom g' ->
  same_motion (fst st) (fst st') /\ snd st = snd st' ->
  agree (fun s s' => same_motion (fst s) (fst s') /\ snd s = snd s')
    (update_ref g key st) (update_ref g' key st').
Proof.
  intros Hz [Hm Hg]. destruct st as [dots grid], st' as [dots' grid'].
  cbn [fst snd] in *. subst grid'. unfold update_ref.
  pose proof (same_motion_lookup _ _ key Hm) as Hk.
  destruct (dots !! key) as [d |], (dots' !! key) as [d' |];
    try contradiction; [| reflexivity].
  pose proof (update_agree g g' d d' key grid Hz Hk) as Hu.
  destruct (update g d key grid) as [[d1 g1] |],
           (update g' d' key grid) as [[d1' g1'] |];
    cbn in Hu |- *; try contradiction; [| exact Hu].
  destruct Hu as [Hd1 Hg1]. split; [| exact Hg1].
  apply Forall2_insert; assumption.
Qed.

Lemma resolve_collision_agree d1 d2 d1' d2' :
  alike d1 d1' -> alike d2 d2' ->
  agree (fun r r' => alike (fst r) (fst r') /\ alike (snd r) (snd r'))
    (resolve_collision d1 d2) (resolve_collision d1' d2').
Proof.
  intros (Hp1 & Hv1 & Hs1) (Hp2 & Hv2 & Hs2). unfold resolve_collision.
  rewrite Hp1, Hv1, Hs1, Hp2, Hv2, Hs2.
  destruct (pos d1') as [x1 y1] eqn:Hp1', (pos d2') as [x2 y2] eqn:Hp2'.
  destruct (vel d1') as [vx1 vy1] eqn:Hv1', (vel d2') as [vx2 vy2] eqn:Hv2'.
  destruct (py_div (x2 - x1) _) as [nx |]; [| reflexivity].
  destruct (py_div (y2 - y1) _) as [n_y |]; [| reflexivity].
  cbn [mbind result_bind].
  destruct (Rltb 0 _).
  - cbn. unfold alike. repeat split; congruence.
  - destruct (py_div _ _) as [coeff |]; [| reflexivity].
    cbn. unfold alike. cbn [pos vel size set_vel].
    repeat split; congruence.
Qed.

Lemma check_pair_agree k1 k2 dots dots' :
  same_motion dots dots' ->
  agree same_motion (check_pair k1 k2 dots) (check_pair k1 k2 dots').
Proof.
  intros Hm. unfold check_pair.
  pose proof (same_motion_lookup _ _ k1 Hm) as H1.
  pose proof (same_motion_lookup _ _ k2 Hm) as H2.
  destruct (dots !! k1) as [d1 |], (dots' !! k1) as [d1' |];
    try contradiction; [| reflexivity].
  destruct (dots !! k2) as [d2 |], (dots' !! k2) as [d2' |];
    try contradiction; [| reflexivity].
  assert (Hd : detect_collision d1 d2 = detect_collision d1' d2').
  { destruct H1 as (Hp1 & _ & Hs1), H2 as (Hp2 & _ & Hs2).
    apply detect_collision_shape; assumption. }
  rewrite Hd. destruct (detect_collision d1' d2'); [| exact Hm].
  pose proof (resolve_collision_agree _ _ _ _ H1 H2) as Hr.
  destruct (resolve_collision d1 d2) as [[e1 e2] |],
           (resolve_collision d1' d2') as [[e1' e2'] |];
    cbn in Hr |- *; try contradiction; [| exact Hr].
  destruct Hr as [He1 He2]. repeat apply Forall2_insert; assumption.
Qed.

Lemma collisions_agree grid dots dots' :
  same_motion dots dots' ->
  agree same_motion (collisions grid dots) (collisions grid dots').
Proof.
  unfold collisions. apply for_each_agree.
  intros [cell ks] s s' _ Hs.
  apply (agree_bind same_motion same_motion).
  - unfold same_cell. revert s s' Hs. apply for_each_agree.
    intros i t t' _ Ht. revert t t' Ht. apply for_each_agree.
    intros j u u' _ Hu.
    destruct (ks !! i), (ks !! j); try reflexivity.
    apply check_pair_agree, Hu.
  - unfold neighbor_cells. apply for_each_agree.
    intros o t t' _ Ht.
    destruct (grid_get grid _) as [ks2 |]; [| exact Ht].
    revert t t' Ht. apply for_each_agree.
    intros k1 u u' _ Hu. revert u u' Hu. apply for_each_agree.
    intros k2 v v' _ Hv. apply check_pair_agree, Hv.
Qed.

Lemma physics_agree g g' dots dots' :
  current_zoom g = current_zoom g' -> same_motion dots dots' ->
  agree (fun r r' => same_motion (fst r) (fst r') /\ snd r = snd r')
    (physics g dots) (physics g' dots').
Proof.
  intros Hz Hm. unfold physics.
  apply (agree_bind
           (fun s s' => same_motion (fst s) (fst s') /\ snd s = snd s')).
  - unfold update_all. rewrite (Forall2_length _ _ _ Hm).
    apply for_each_agree; [| split; [exact Hm | reflexivity]].
    intros key s s' _ Hs. apply update_ref_agree; assumption.
  - intros [ds grid] [ds' grid'] [Hds Hgrid]. cbn [fst snd] in *. subst grid'.
    apply (agree_bind same_motion); [apply collisions_agree, Hds |].
    intros a a' Ha. split; [exact Ha | reflexivity].
Qed.

Lemma update_zoom g g' self key grid :
  current_zoom g = current_zoom g' ->
  update g self key grid = update g' self key grid.
Proof.
  intros Hz. unfold update.
  destruct (Rltb _ _ || Rltb _ _); destruct (Rltb _ _ || Rltb _ _);
    rewrite (get_grid_cell_zoom g g' _ Hz); reflexivity.
Qed.

Lemma physics_zoom g g' dots :
  current_zoom g = current_zoom g' -> physics g dots = physics g' dots.
Proof.
  intros Hz. unfold physics, update_all.
  rewrite (for_each_ext _ (update_ref g) (update_ref g')); [reflexivity |].
  intros key [ds grid] _. unfold update_ref.
  destruct (ds !! key); [| reflexivity].
  rewrite (update_zoom g g' _ _ _ Hz). reflexivity.
Qed.

Lemma check_visibility_alike g g' d d' :
  alike d d' ->
  alike (fst (check_visibility g d)) (fst (check_visibility g' d')).
Proof. intros H. exact H. Qed.

Lemma count_visible_agree g g' grid dots dots' :
  same_motion dots dots' ->
  agree (fun s s' => same_motion (fst s) (fst s'))
    (count_visible g grid dots) (count_visible g' grid dots').
Proof.
  intros Hm. unfold count_visible.
  apply (for_each_agree
           (fun s s' : list Dot * Z => same_motion (fst s) (fst s')));
    [| exact Hm].
  intros [cell ks] s s' _ Hs. revert s s' Hs. apply for_each_agree.
  intros key [ds n] [ds' n'] _ Hs. cbn [fst] in Hs.
  unfold check_visibility_ref.
  pose proof (same_motion_lookup _ _ key Hs) as Hk.
  destruct (ds !! key) as [d |], (ds' !! key) as [d' |];
    try contradiction; [| reflexivity].
  cbn. apply Forall2_insert; [exact Hs |].
  apply check_visibility_alike, Hk.
Qed.

Lemma frame_agree g g' dots dots' :
  current_zoom g = current_zoom g' -> same_motion dots dots' ->
  agree (fun s s' => same_motion (fst s) (fst s'))
    (frame g dots) (frame g' dots').
Proof.
  intros Hz Hm. unfold frame.
  apply (agree_bind _ _ _ _ _ _ (physics_agree g g' dots dots' Hz Hm)).
  intros [ds grid] [ds' grid'] [Hds Hgrid]. cbn [fst snd] in *. subst grid'.
  apply count_visible_agree, Hds.
Qed.

(** Over any number of iterations, with camera offsets and window sizes
    that differ from one run to the other in every iteration, the dots move
    alike. *)
Lemma frames_agree gs gs' :
  Forall2 (fun g g' => current_zoom g = current_zoom g') gs gs' ->
  forall dots dots', same_motion dots dots' ->
    agree same_motion (frames gs dots) (frames gs' dots').
Proof.
  induction 1 as [| g g' gs gs' Hz Hgs IH]; intros dots dots' Hm;
    cbn [frames]; [exact Hm |].
  apply (agree_bind _ _ _ _ _ _ (frame_agree g g' dots dots' Hz Hm)).
  intros [ds n] [ds' n'] Hds. cbn [fst] in Hds. apply IH, Hds.
Qed.

(** C10. One tick of physics under two settings of the globals that have
    the same zoom, whatever their camera offsets are, gives the same result:
    the same exception, or the same dots and the same grid.  The same holds
    between two stores whose dots agree in position, velocity and size and
    differ in what the camera has written to them, the [visible] flags: after
    the tick the dots again agree in position, velocity and size. *)
Theorem physics_ignores_camera_offset g g' dots :
  current_zoom g = current_zoom g' ->
  physics g dots = physics g' dots
  /\ forall dots', same_motion dots dots' ->
       agree (fun r r' => same_motion (fst r) (fst r') /\ snd r = snd r')
         (physics g dots) (physics g' dots').
Proof.
  intros Hz. split; [apply physics_zoom, Hz |].
  intros dots' Hm. apply physics_agree; assumption.
Qed.

Lemma physics_ignores_camera_offset_witness :
  CURRENT_POSITION initial_globals <> CURRENT_POSITION camera_origin
  /\ physics initial_globals tick_dots = physics camera_origin tick_dots
  /\ forall dots', same_motion tick_dots dots' ->
       agree (fun r r' => same_motion (fst r) (fst r') /\ snd r = snd r')
         (physics initial_globals tick_dots) (physics camera_origin dots').
Proof.
  split.
  - apply pair_neq_fst. unfold WORLD_SIZE. simpl. lra.
  - apply (physics_ignores_camera_offset initial_globals camera_origin).
    reflexivity.
Defined.

(** Where the sizes sum to a negative number, which no dot of the program
    has, the bounding-box rejection does change the answer: the exact test
    holds and the box test rejects. *)
Remark detect_collision_negative_sizes :
  let d := {| pos := (0, 0); vel := (0, 0); color := WHITE; size := -1;
              visible := false |} in
  detect_collision d d = false
  /\ (fst (pos d) - fst (pos d)) ^ 2 + (snd (pos d) - snd (pos d)) ^ 2
     < (size d + size d) ^ 2.
Proof.
  cbv zeta. split; [| simpl; lra].
  unfold detect_collision. cbn [pos size fst snd].
  replace (Rltb (-1 + -1) (Rabs (0 - 0))) with true; [reflexivity |].
  symmetry. apply Rltb_true. rewrite Rminus_diag, Rabs_R0. lra.
Qed.

(** ** The exceptions of a tick

    The references of the model never dangle and the indices of the loops
    are in range: a tick that does not return ends with
    [ZeroDivisionError]. *)

Lemma for_each_raise {A S : Type} (inv : S -> Prop) (bad : exn -> Prop)
    (l : list A) (body : A -> S -> result S) :
  (forall x s, x ∈ l -> inv s ->
     match body x s with Ok s' => inv s' | Raise e => bad e end) ->
  forall s, inv s ->
    match for_each l body s with Ok s' => inv s' | Raise e => bad e end.
Proof.
  induction l as [| x l IH]; intros Hbody s Hs; cbn [for_each];
    [exact Hs |].
  pose proof (Hbody x s (list_elem_of_here _ _) Hs) as Hx.
  destruct (body x s) as [s' | e]; cbn [mbind result_bind]; [| exact Hx].
  apply IH; [| exact Hx].
  intros y t Hy. apply Hbody. right. exact Hy.
Qed.

Lemma py_div_raise x y e : py_div x y = Raise e -> e = ZeroDivisionError.
Proof. unfold py_div. destruct (Req_dec_T y 0); congruence. Qed.

Lemma resolve_collision_raise dot1 dot2 e :
  resolve_collision dot1 dot2 = Raise e -> e = ZeroDivisionError.
Proof.
  unfold resolve_collision.
  destruct (pos dot1) as [x1 y1], (pos dot2) as [x2 y2].
  destruct (vel dot1), (vel dot2).
  destruct (py_div (x2 - x1) _) as [nx | e1] eqn:H1; cbn [mbind result_bind];
    [| intros [= <-]; apply (py_div_raise _ _ _ H1)].
  destruct (py_div (y2 - y1) _) as [n_y | e2] eqn:H2; cbn [mbind result_bind];
    [| intros [= <-]; apply (py_div_raise _ _ _ H2)].
  destruct (Rltb 0 _); [discriminate |].
  destruct (py_div (2 * _) _) as [coeff | e3] eqn:H3; cbn [mbind result_bind];
    [discriminate | intros [= <-]; apply (py_div_raise _ _ _ H3)].
Qed.

Lemma check_pair_raise n k1 k2 dots :
  (k1 < n)%nat -> (k2 < n)%nat -> length dots = n ->
  match check_pair k1 k2 dots with
  | Ok dots' => length dots' = n
  | Raise e => e = ZeroDivisionError
  end.
Proof.
  intros H1 H2 Hn. unfold check_pair.
  destruct (lookup_lt_is_Some_2 dots k1) as [d1 ->]; [lia |].
  destruct (lookup_lt_is_Some_2 dots k2) as [d2 ->]; [lia |].
  destruct (detect_collision d1 d2); [| exact Hn].
  destruct (resolve_collision d1 d2) as [[e1 e2] | e] eqn:Hr;
    cbn [mbind result_bind].
  - rewrite !length_insert. exact Hn.
  - apply (resolve_collision_raise _ _ _ Hr).
Qed.

Lemma collisions_raise n grid dots :
  (forall c ks k, (c, ks) ∈ grid -> k ∈ ks -> (k < n)%nat) ->
  length dots = n ->
  match collisions grid dots with
  | Ok dots' => length dots' = n
  | Raise e => e = ZeroDivisionError
  end.
Proof.
  intros Hkeys. unfold collisions.
  apply (for_each_raise (fun ds => length ds = n)
           (fun e => e = ZeroDivisionError)).
  intros [cell ks] ds Hin Hds.
  assert (Hsame : match same_cell ks ds with
                  | Ok ds' => length ds' = n
                  | Raise e => e = ZeroDivisionError
                  end).
  { unfold same_cell. revert ds Hds.
    apply (for_each_raise (fun ds => length ds = n)
             (fun e => e = ZeroDivisionError)).
    intros i ds Hi Hds. revert ds Hds.
    apply (for_each_raise (fun ds => length ds = n)
             (fun e => e = ZeroDivisionError)).
    intros j ds Hj Hds. apply elem_of_seq in Hi, Hj.
    destruct (lookup_lt_is_Some_2 ks i) as [k1 H1]; [lia |].
    destruct (lookup_lt_is_Some_2 ks j) as [k2 H2]; [lia |].
    rewrite H1, H2. apply check_pair_raise; [| | exact Hds].
    - eapply Hkeys; [exact Hin | eapply list_elem_of_lookup_2, H1].
    - eapply Hkeys; [exact Hin | eapply list_elem_of_lookup_2, H2]. }
  destruct (same_cell ks ds) as [ds1 | e]; cbn [mbind result_bind];
    [| exact Hsame].
  unfold neighbor_cells. revert ds1 Hsame.
  apply (for_each_raise (fun ds => length ds = n)
           (fun e => e = ZeroDivisionError)).
  intros o ds1 _ Hds1.
  destruct (grid_get grid _) as [ks2 |] eqn:Hget; [| exact Hds1].
  assert (Hin2 : exists c2, (c2, ks2) ∈ grid).
  { clear -Hget. induction grid as [| [c ks'] rest IH]; [discriminate |].
    cbn [grid_get] in Hget. destruct (decide (c = _)).
    - injection Hget as ->. exists c. left.
    - destruct (IH Hget) as [c2 Hc2]. exists c2. right. exact Hc2. }
  destruct Hin2 as [c2 Hin2]. revert ds1 Hds1.
  apply (for_each_raise (fun ds => length ds = n)
           (fun e => e = ZeroDivisionError)).
  intros k1 ds1 Hk1 Hds1. revert ds1 Hds1.
  apply (for_each_raise (fun ds => length ds = n)
           (fun e => e = ZeroDivisionError)).
  intros k2 ds1 Hk2 Hds1. apply check_pair_raise; [| | exact Hds1].
  - exact (Hkeys cell ks k1 Hin Hk1).
  - exact (Hkeys c2 ks2 k2 Hin2 Hk2).
Qed.

Lemma update_all_raise g dots :
  match update_all g dots with
  | Ok (dots', grid) =>
      length dots' = length dots
      /\ forall c ks k, (c, ks) ∈ grid -> k ∈ ks -> (k < length dots)%nat
  | Raise e => e = ZeroDivisionError
  end.
Proof.
  destruct (Req_dec_T (current_zoom g) 0) as [Hz | Hz].
  - destruct dots as [| d rest]; [cbn; split; [reflexivity |];
      intros c ks k Hin; inversion Hin |].
    unfold update_all. cbn [length seq for_each].
    rewrite (update_ref_zero g 0%nat (d :: rest) [] d Hz eq_refl).
    reflexivity.
  - destruct (update_all g dots) as [[dots' grid] | e] eqn:Hu.
    + destruct (update_all_filed _ _ _ _ Hz Hu) as [Hf Hlen].
      split; [exact Hlen |]. intros c ks k Hin Hk.
      destruct (Hf c ks Hin) as [_ Hks]. apply (Hks k Hk).
    + revert Hu. unfold update_all.
      pose proof (for_each_raise
        (fun s : list Dot * Grid => length (fst s) = length dots)
        (fun e => e = ZeroDivisionError)
        (seq 0 (length dots)) (update_ref g)) as Hloop.
      intros Hu. specialize (Hloop) with (s := (dots, [])).
      rewrite Hu in Hloop. apply Hloop; [| reflexivity].
      intros key [ds gr] Hkey Hds. cbn [fst] in Hds.
      apply elem_of_seq in Hkey.
      destruct (lookup_lt_is_Some_2 ds key) as [self Hself]; [lia |].
      rewrite (update_ref_eq _ _ _ _ _ Hz Hself). cbn [fst].
      rewrite length_insert. exact Hds.
Qed.

Lemma physics_raise g dots e :
  physics g dots = Raise e -> e = ZeroDivisionError.
Proof.
  unfold physics. pose proof (update_all_raise g dots) as Hu.
  destruct (update_all g dots) as [[dots' grid] | e'];
    cbn [mbind result_bind]; [| congruence].
  destruct Hu as [Hlen Hkeys].
  pose proof (collisions_raise (length dots) grid dots' Hkeys Hlen) as Hc.
  destruct (collisions grid dots'); cbn [mbind result_bind];
    [discriminate | congruence].
Qed.

(** * Further properties *)

(** ** [resolve_collision] on its own *)

(** The three ways a call on two dots with different centers ends. *)
Lemma resolve_collision_cases dot1 dot2 :
  pos dot1 <> pos dot2 ->
  resolve_collision dot1 dot2
  = if Rltb 0 (normal_speed dot1 dot2) then Ok (dot1, dot2)
    else if Req_dec_T (size dot1 + size dot2) 0 then Raise ZeroDivisionError
         else Ok (impulse dot1 dot2).
Proof.
  intros Hpos. pose proof (hypot_pos _ _ (offset_nonzero _ _ Hpos)) as Hh.
  unfold resolve_collision, impulse, normal_speed, normal.
  destruct (pos dot1) as [x1 y1], (pos dot2) as [x2 y2].
  destruct (vel dot1) as [vx1 vy1], (vel dot2) as [vx2 vy2].
  cbn [fst snd] in *.
  rewrite !py_div_ok by lra. cbn [mbind result_bind].
  destruct (Rltb 0 _); [reflexivity |].
  unfold py_div. destruct (Req_dec_T _ 0); reflexivity.
Qed.

Lemma resolve_collision_Ok_apart dot1 dot2 r :
  resolve_collision dot1 dot2 = Ok r -> pos dot1 <> pos dot2.
Proof.
  intros Hr Hpos. rewrite (resolve_collision_coincident _ _ Hpos) in Hr.
  discriminate.
Qed.

(** What a call that returns has done: nothing, or the impulse with masses
    that do not sum to zero. *)
Lemma resolve_collision_Ok dot1 dot2 dot1' dot2' :
  resolve_collision dot1 dot2 = Ok (dot1', dot2') ->
  pos dot1 <> pos dot2
  /\ ((0 < normal_speed dot1 dot2 /\ dot1' = dot1 /\ dot2' = dot2)
      \/ (normal_speed dot1 dot2 <= 0 /\ size dot1 + size dot2 <> 0
          /\ impulse dot1 dot2 = (dot1', dot2'))).
Proof.
  intros Hr. pose proof (resolve_collision_Ok_apart _ _ _ Hr) as Hpos.
  split; [exact Hpos |].
  rewrite (resolve_collision_cases _ _ Hpos) in Hr.
  destruct (Rltb 0 (normal_speed dot1 dot2)) eqn:Hlt.
  - apply Rltb_true in Hlt. injection Hr as <- <-. auto.
  - apply Rltb_false in Hlt.
    destruct (Req_dec_T _ 0); [discriminate |].
    apply Ok_inj in Hr. auto.
Qed.

Lemma impulse_kinetic dot1 dot2 :
  pos dot1 <> pos dot2 -> size dot1 + size dot2 <> 0 ->
  kinetic (fst (impulse dot1 dot2)) + kinetic (snd (impulse dot1 dot2))
  = kinetic dot1 + kinetic dot2.
Proof.
  intros Hpos Hm. pose proof (normal_unit _ _ Hpos) as Hunit.
  unfold impulse, kinetic. cbn [fst snd pos vel size set_vel].
  set (vn := normal_speed dot1 dot2).
  assert (Hvn : vn
                 = (fst (vel dot2) - fst (vel dot1)) * fst (normal dot1 dot2)
                   + (snd (vel dot2) - snd (vel dot1))
                     * snd (normal dot1 dot2))
    by reflexivity.
  destruct (normal dot1 dot2) as [n1 n2]. cbn [fst snd] in *.
  set (c := 2 * vn / (size dot1 + size dot2)).
  assert (Hc : c * (size dot1 + size dot2) = 2 * vn)
    by (unfold c; field; assumption).
  destruct (vel dot1) as [vx1 vy1], (vel dot2) as [vx2 vy2].
  cbn [fst snd] in *.
  set (m1 := size dot1) in *. set (m2 := size dot2) in *.
  apply Rminus_diag_uniq.
  transitivity (m1 * m2 * c
                * (c * (m1 + m2) * (n1 * n1 + n2 * n2) - 2 * vn));
    [rewrite Hvn; ring |].
  rewrite Hunit, Hc. ring.
Qed.

Lemma impulse_swap dot1 dot2 :
  impulse dot2 dot1 = (snd (impulse dot1 dot2), fst (impulse dot1 dot2)).
Proof.
  unfold impulse. rewrite normal_speed_swap, normal_swap.
  rewrite (Rplus_comm (size dot2)). cbn [fst snd].
  f_equal; f_equal; f_equal; ring.
Qed.

(** X1. A call of [resolve_collision] that returns keeps the kinetic energy
    of the pair, [size * (vx^2 + vy^2)] summed over the two dots, and its
    momentum on both axes, and changes nothing of a dot but its velocity. *)
Theorem resolve_collision_conserves dot1 dot2 dot1' dot2' :
  resolve_collision dot1 dot2 = Ok (dot1', dot2') ->
  kinetic dot1' + kinetic dot2' = kinetic dot1 + kinetic dot2
  /\ momentum_x dot1' + momentum_x dot2' = momentum_x dot1 + momentum_x dot2
  /\ momentum_y dot1' + momentum_y dot2' = momentum_y dot1 + momentum_y dot2
  /\ dot1' = set_vel dot1 (vel dot1') /\ dot2' = set_vel dot2 (vel dot2').
Proof.
  intros Hr.
  destruct (resolve_collision_Ok _ _ _ _ Hr)
    as [Hpos [(_ & -> & ->) | (_ & Hm & Hi)]].
  - repeat split; symmetry; apply set_vel_id; reflexivity.
  - pose proof (impulse_kinetic _ _ Hpos Hm) as Hk.
    pose proof (impulse_momentum _ _ Hm) as [Hx Hy].
    rewrite Hi in Hk, Hx, Hy. cbn [fst snd] in Hk, Hx, Hy.
    unfold impulse in Hi. injection Hi as <- <-.
    unfold momentum_x, momentum_y. cbn [size vel set_vel] in *.
    repeat split; assumption.
Qed.

Lemma resolve_collision_conserves_witness :
  exists dot1' dot2',
    resolve_collision dot_a dot_b = Ok (dot1', dot2')
    /\ kinetic dot1' + kinetic dot2' = kinetic dot_a + kinetic dot_b.
Proof.
  destruct (resolve_collision dot_a dot_b) as [[d1 d2] | e] eqn:Hr.
  - exists d1, d2. split; [reflexivity |].
    apply (resolve_collision_conserves dot_a dot_b d1 d2 Hr).
  - exfalso. rewrite resolve_collision_eq in Hr;
      [discriminate | exact dot_a_b_apart | simpl; lra].
Defined.

Lemma point_eq_dec (p q : R * R) : {p = q} + {p <> q}.
Proof.
  destruct p as [px py], q as [qx qy].
  destruct (Req_dec_T px qx) as [-> | Hx]; [| right; congruence].
  destruct (Req_dec_T py qy) as [-> | Hy]; [left; reflexivity |].
  right. congruence.
Qed.

Lemma resolve_collision_swap dot1 dot2 :
  resolve_collision dot2 dot1 = swapped (resolve_collision dot1 dot2).
Proof.
  destruct (point_eq_dec (pos dot1) (pos dot2)) as [Heq | Hne].
  - rewrite (resolve_collision_coincident dot1 dot2 Heq).
    rewrite (resolve_collision_coincident dot2 dot1) by auto. reflexivity.
  - rewrite (resolve_collision_cases dot1 dot2 Hne).
    rewrite (resolve_collision_cases dot2 dot1) by auto.
    rewrite normal_speed_swap, (Rplus_comm (size dot2)).
    destruct (Rltb 0 _); [reflexivity |].
    destruct (Req_dec_T _ 0); [reflexivity |].
    rewrite impulse_swap. cbn [swapped].
    destruct (impulse dot1 dot2). reflexivity.
Qed.

(** X2. [resolve_collision] does not depend on the order of its two
    arguments: called on [(dot2, dot1)] it ends as on [(dot1, dot2)], with
    the same exception or with the same two dots. *)
Theorem resolve_collision_order dot1 dot2 :
  resolve_collision dot2 dot1 = swapped (resolve_collision dot1 dot2).
Proof. apply resolve_collision_swap. Qed.

(** X3. [resolve_collision] is idempotent: after a call that has returned,
    a second call on the same pair, in either order, returns and leaves the
    two dots as they are. *)
Theorem resolve_collision_idempotent dot1 dot2 dot1' dot2' :
  resolve_collision dot1 dot2 = Ok (dot1', dot2') ->
  resolve_collision dot1' dot2' = Ok (dot1', dot2')
  /\ resolve_collision dot2' dot1' = Ok (dot2', dot1').
Proof.
  intros Hr.
  assert (H1 : resolve_collision dot1' dot2' = Ok (dot1', dot2')).
  { destruct (resolve_collision_Ok _ _ _ _ Hr)
      as [Hpos [(Hlt & -> & ->) | (Hle & Hm & Hi)]].
    - exact Hr.
    - pose proof (resolve_collision_shape _ _ _ _ Hr) as (Hp1 & Hs1 & Hp2 & Hs2).
      pose proof (impulse_normal_speed _ _ Hpos Hm) as Hn.
      rewrite Hi in Hn. cbn [fst snd] in Hn.
      rewrite resolve_collision_cases by congruence.
      destruct (Rltb 0 (normal_speed dot1' dot2')) eqn:Hlt; [reflexivity |].
      apply Rltb_false in Hlt.
      destruct (Req_dec_T _ 0) as [H0 | _]; [exfalso; lra |].
      rewrite impulse_at_rest by lra. reflexivity. }
  split; [exact H1 |].
  rewrite resolve_collision_swap, H1. reflexivity.
Qed.

Lemma resolve_collision_idempotent_witness :
  exists dot1' dot2',
    resolve_collision dot_a dot_b = Ok (dot1', dot2')
    /\ resolve_collision dot1' dot2' = Ok (dot1', dot2')
    /\ resolve_collision dot2' dot1' = Ok (dot2', dot1').
Proof.
  destruct (resolve_collision dot_a dot_b) as [[d1 d2] | e] eqn:Hr.
  - exists d1, d2. split; [reflexivity |].
    apply (resolve_collision_idempotent dot_a dot_b d1 d2 Hr).
  - exfalso. rewrite resolve_collision_eq in Hr;
      [discriminate | exact dot_a_b_apart | simpl; lra].
Defined.

(** X4. On two dots of positive size with different centers,
    [resolve_collision] changes the velocities exactly when the dots approach
    each other: it leaves both dots as they are if and only if the relative
    velocity along the normal is not negative. *)
Theorem resolve_collision_changes dot1 dot2 :
  0 < size dot1 -> 0 < size dot2 -> pos dot1 <> pos dot2 ->
  resolve_collision dot1 dot2 = Ok (dot1, dot2)
  <-> 0 <= normal_speed dot1 dot2.
Proof.
  intros H1 H2 Hpos. assert (Hm : size dot1 + size dot2 <> 0) by lra.
  rewrite (resolve_collision_eq _ _ Hpos Hm).
  destruct (Rltb 0 (normal_speed dot1 dot2)) eqn:Hlt.
  - apply Rltb_true in Hlt. split; [lra | reflexivity].
  - apply Rltb_false in Hlt. split.
    + intros Hi. apply Ok_inj in Hi.
      pose proof (normal_unit _ _ Hpos) as Hunit.
      apply (f_equal (fun p => vel (fst p))) in Hi.
      unfold impulse in Hi. cbn [fst snd vel set_vel] in Hi.
      set (vn := normal_speed dot1 dot2) in *.
      destruct (normal dot1 dot2) as [n1 n2], (vel dot1) as [vx vy].
      cbn [fst snd] in *. injection Hi as Hx Hy.
      set (c := 2 * vn / (size dot1 + size dot2)) in *.
      assert (Hc : c * (size dot1 + size dot2) = 2 * vn)
        by (unfold c; field; assumption).
      assert (Hz : c * size dot2 = 0).
      { assert (Ha : c * size dot2 * n1 = 0) by lra.
        assert (Hb : c * size dot2 * n2 = 0) by lra.
        replace (c * size dot2)
          with (c * size dot2 * n1 * n1 + c * size dot2 * n2 * n2)
          by (transitivity (c * size dot2 * (n1 * n1 + n2 * n2));
              [ring | rewrite Hunit; ring]).
        rewrite Ha, Hb. ring. }
      assert (c = 0) by nra. nra.
    + intros Hge. rewrite impulse_at_rest by lra. reflexivity.
Qed.

Lemma resolve_collision_changes_witness :
  resolve_collision dot_a dot_b = Ok (dot_a, dot_b)
  <-> 0 <= normal_speed dot_a dot_b.
Proof.
  apply (resolve_collision_changes dot_a dot_b);
    [simpl; lra | simpl; lra | exact dot_a_b_apart].
Defined.

(** ** The narrow phase and the cells *)

Lemma Rabs_bound x s : Rabs x <= s <-> - s <= x <= s.
Proof. unfold Rabs. destruct (Rcase_abs x); lra. Qed.

Lemma detect_collision_box dot1 dot2 :
  detect_collision dot1 dot2 = true ->
  Rabs (fst (pos dot1) - fst (pos dot2)) <= size dot1 + size dot2
  /\ Rabs (snd (pos dot1) - snd (pos dot2)) <= size dot1 + size dot2.
Proof.
  unfold detect_collision.
  destruct (Rltb _ (Rabs (fst _ - _))) eqn:Hx; [discriminate |].
  destruct (Rltb _ (Rabs (snd _ - _))) eqn:Hy; [discriminate |].
  intros _. apply Rltb_false in Hx, Hy. auto.
Qed.

(** X5. [detect_collision] does not depend on the order of the two dots, and
    two dots that collide have sizes of positive sum and centers closer than
    that sum on each axis. *)
Theorem detect_collision_pair dot1 dot2 :
  detect_collision dot2 dot1 = detect_collision dot1 dot2
  /\ (detect_collision dot1 dot2 = true ->
      0 < size dot1 + size dot2
      /\ Rabs (fst (pos dot1) - fst (pos dot2)) < size dot1 + size dot2
      /\ Rabs (snd (pos dot1) - snd (pos dot2)) < size dot1 + size dot2).
Proof.
  split; [apply detect_collision_sym |].
  intros Hd. destruct (detect_collision_box _ _ Hd) as [Hx Hy].
  assert (Hs : 0 <= size dot1 + size dot2)
    by (pose proof (Rabs_pos (fst (pos dot1) - fst (pos dot2))); lra).
  apply (detect_collision_exact _ _ Hs) in Hd.
  set (dx := fst (pos dot1) - fst (pos dot2)) in *.
  set (dy := snd (pos dot1) - snd (pos dot2)) in *.
  set (s := size dot1 + size dot2) in *.
  split; [nra |].
  unfold Rabs. destruct (Rcase_abs dx), (Rcase_abs dy); split; nra.
Qed.

Lemma adjusted_grid_size_pos g :
  0 < current_zoom g -> 0 < GRID_SIZE / current_zoom g.
Proof.
  intros Hz. unfold GRID_SIZE, Rdiv. apply Rmult_lt_0_compat; [lra |].
  apply Rinv_0_lt_compat, Hz.
Qed.

Lemma Int_part_cell (x s : R) :
  0 < s -> IZR (Int_part (x / s)) * s <= x < (IZR (Int_part (x / s)) + 1) * s.
Proof.
  intros Hs. set (q := x / s).
  assert (Hx : x = q * s) by (unfold q; field; lra).
  destruct (base_Int_part q) as [H1 H2]. split; nra.
Qed.

(** X6. At a positive zoom [get_grid_cell] returns the cell whose square of
    side [GRID_SIZE / current_zoom] holds the position: lower edges
    included, upper edges excluded. *)
Theorem get_grid_cell_square g (position : R * R) :
  0 < current_zoom g ->
  exists cx cy,
    get_grid_cell g position = Ok (cx, cy)
    /\ IZR cx * (GRID_SIZE / current_zoom g) <= fst position
       < (IZR cx + 1) * (GRID_SIZE / current_zoom g)
    /\ IZR cy * (GRID_SIZE / current_zoom g) <= snd position
       < (IZR cy + 1) * (GRID_SIZE / current_zoom g).
Proof.
  intros Hz. rewrite get_grid_cell_eq by lra. unfold cell_of.
  eexists _, _. split; [reflexivity |].
  pose proof (adjusted_grid_size_pos g Hz) as Hs.
  split; apply Int_part_cell; assumption.
Qed.

Lemma get_grid_cell_square_witness :
  exists cx cy,
    get_grid_cell initial_globals (30, 60) = Ok (cx, cy)
    /\ IZR cx * (GRID_SIZE / 1) <= 30 < (IZR cx + 1) * (GRID_SIZE / 1)
    /\ IZR cy * (GRID_SIZE / 1) <= 60 < (IZR cy + 1) * (GRID_SIZE / 1).
Proof.
  apply (get_grid_cell_square initial_globals (30, 60)). simpl. lra.
Defined.

Lemma Int_part_near (a b : R) :
  Rabs (a - b) <= 1 -> (-1 <= Int_part b - Int_part a <= 1)%Z.
Proof.
  intros H. apply Rabs_bound in H.
  destruct (base_Int_part a) as [Ha1 Ha2], (base_Int_part b) as [Hb1 Hb2].
  split.
  - assert (Hlt : IZR (Int_part a) < IZR (Int_part b + 2))
      by (rewrite plus_IZR; lra).
    apply lt_IZR in Hlt. lia.
  - assert (Hlt : IZR (Int_part b) < IZR (Int_part a + 2))
      by (rewrite plus_IZR; lra).
    apply lt_IZR in Hlt. lia.
Qed.

Lemma Int_part_near_div (x1 x2 s0 s : R) :
  0 < s -> s0 <= s -> Rabs (x1 - x2) <= s0 ->
  (-1 <= Int_part (x2 / s) - Int_part (x1 / s) <= 1)%Z.
Proof.
  intros Hs Hs0 Hx. apply Int_part_near.
  replace (x1 / s - x2 / s) with ((x1 - x2) / s) by (field; lra).
  apply Rabs_bound in Hx. apply Rabs_bound.
  assert (Hi : 0 < / s) by (apply Rinv_0_lt_compat, Hs).
  assert (Hone : s * / s = 1) by (field; lra).
  unfold Rdiv. split; nra.
Qed.

Lemma near_cells (c1 c2 : Cell) :
  (-1 <= fst c2 - fst c1 <= 1)%Z -> (-1 <= snd c2 - snd c1 <= 1)%Z ->
  c2 = c1 \/ exists o, o ∈ neighbor_offsets /\ c2 = shift c1 o.
Proof.
  intros Hx Hy. destruct c1 as [x1 y1], c2 as [x2 y2]. cbn [fst snd] in *.
  destruct (decide ((x2 - x1, y2 - y1)%Z = (0, 0)%Z)) as [Heq | Hne].
  - left. injection Heq as H1 H2. f_equal; lia.
  - right. exists ((x2 - x1)%Z, (y2 - y1)%Z). split.
    + apply elem_of_neighbor_offsets. cbn [fst snd]. auto.
    + unfold shift. cbn [fst snd]. f_equal; lia.
Qed.

(** X7. The broad phase is sound for dots that are small enough: at a
    positive zoom, two dots that collide and whose sizes sum to at most the
    cell size [GRID_SIZE / current_zoom] are in the same cell or in two
    cells that one of the [neighbor_offsets] joins. *)
Theorem colliding_dots_are_neighbors g dot1 dot2 :
  0 < current_zoom g ->
  size dot1 + size dot2 <= GRID_SIZE / current_zoom g ->
  detect_collision dot1 dot2 = true ->
  exists c1 c2,
    get_grid_cell g (pos dot1) = Ok c1
    /\ get_grid_cell g (pos dot2) = Ok c2
    /\ (c2 = c1 \/ exists o, o ∈ neighbor_offsets /\ c2 = shift c1 o).
Proof.
  intros Hz Hsize Hd. rewrite !get_grid_cell_eq by lra.
  eexists _, _. split; [reflexivity |]. split; [reflexivity |].
  pose proof (adjusted_grid_size_pos g Hz) as Hs.
  destruct (detect_collision_box _ _ Hd) as [Hx Hy].
  apply near_cells; unfold cell_of; cbn [fst snd];
    eapply Int_part_near_div; eassumption.
Qed.

Lemma small_dots_collide : detect_collision small_l small_r = true.
Proof. apply detect_collision_exact; simpl; lra. Qed.

Lemma colliding_dots_are_neighbors_witness :
  exists c1 c2,
    get_grid_cell initial_globals (pos small_l) = Ok c1
    /\ get_grid_cell initial_globals (pos small_r) = Ok c2
    /\ (c2 = c1 \/ exists o, o ∈ neighbor_offsets /\ c2 = shift c1 o).
Proof.
  apply (colliding_dots_are_neighbors initial_globals small_l small_r).
  - simpl. lra.
  - unfold GRID_SIZE. simpl. lra.
  - exact small_dots_collide.
Defined.

(** ** The pass that moves the dots and fills the grid *)

Lemma update_loop_moved g :
  current_zoom g <> 0 ->
  forall post pre grid,
    exists grid',
      for_each (seq (length pre) (length post)) (update_ref g)
        (pre ++ post, grid)
      = Ok (pre ++ (moved <$> post), grid').
Proof.
  intros Hz. induction post as [| d post IH]; intros pre grid.
  - exists grid. reflexivity.
  - cbn [length seq for_each].
    rewrite (update_ref_eq g (length pre) (pre ++ d :: post) grid d Hz)
      by (apply list_lookup_middle; reflexivity).
    cbn [mbind result_bind].
    rewrite insert_app_r_alt by lia. rewrite Nat.sub_diag.
    cbn [insert list_insert].
    destruct (IH (pre ++ [moved d])
                (grid_append grid (cell_of g (pos (moved d))) (length pre)))
      as [grid' Hloop].
    rewrite length_app, Nat.add_1_r, <- !app_assoc in Hloop.
    exists grid'. exact Hloop.
Qed.

Lemma update_all_moved g dots :
  current_zoom g <> 0 ->
  exists grid, update_all g dots = Ok (moved <$> dots, grid).
Proof.
  intros Hz. apply (update_loop_moved g Hz dots [] []).
Qed.

Lemma moved_kinetic d : kinetic (moved d) = kinetic d.
Proof.
  unfold kinetic, moved. cbn [size vel set_vel set_pos fst snd].
  rewrite !bounce_velocity.
  destruct (Rltb _ _ || Rltb _ _); destruct (Rltb _ _ || Rltb _ _); ring.
Qed.

(** X8. At a zoom that is not zero the pass over [DOTS] returns, and
    leaves every dot as a call of [update] on that dot alone leaves it: the
    dots do not influence each other.  A dot keeps its size and color and its
    kinetic energy, the walls being perfectly elastic.  At zoom zero the pass
    ends with [ZeroDivisionError] on the first dot. *)
Theorem update_all_each g dots :
  (current_zoom g <> 0 ->
   exists dots' grid,
     update_all g dots = Ok (dots', grid)
     /\ length dots' = length dots
     /\ forall key d, dots !! key = Some d ->
          exists d' grid',
            update g d key [] = Ok (d', grid')
            /\ dots' !! key = Some d'
            /\ size d' = size d /\ color d' = color d
            /\ kinetic d' = kinetic d)
  /\ (current_zoom g = 0 ->
      update_all g dots
      = match dots with [] => Ok ([], []) | _ => Raise ZeroDivisionError end).
Proof.
  split.
  - intros Hz. destruct (update_all_moved g dots Hz) as [grid Hu].
    exists (moved <$> dots), grid. split; [exact Hu |].
    split; [apply length_fmap |].
    intros key d Hd. rewrite (update_eq g d key [] Hz).
    eexists _, _. split; [reflexivity |].
    split; [rewrite list_lookup_fmap, Hd; reflexivity |].
    split; [reflexivity |]. split; [reflexivity |]. apply moved_kinetic.
  - intros Hz. destruct dots as [| d rest]; [reflexivity |].
    unfold update_all. cbn [length seq for_each].
    rewrite (update_ref_zero g 0%nat (d :: rest) [] d Hz eq_refl).
    reflexivity.
Qed.

Lemma update_all_each_witness :
  exists dots' grid,
    update_all initial_globals tick_dots = Ok (dots', grid)
    /\ length dots' = 3%nat
    /\ forall key d, tick_dots !! key = Some d ->
         exists d' grid',
           update initial_globals d key [] = Ok (d', grid')
           /\ dots' !! key = Some d'
           /\ size d' = size d /\ color d' = color d
           /\ kinetic d' = kinetic d.
Proof.
  apply (proj1 (update_all_each initial_globals tick_dots)).
  exact initial_zoom_nonzero.
Defined.

Lemma grid_keys_append grid cell key :
  grid_keys (grid_append grid cell key) ≡ₚ key :: grid_keys grid.
Proof.
  unfold grid_keys. induction grid as [| [c ks] rest IH]; cbn [grid_append].
  - reflexivity.
  - destruct (decide (c = cell)); cbn [fmap list_fmap concat snd].
    + rewrite <- app_assoc. cbn [app].
      symmetry. apply Permutation_middle.
    + cbn [fmap list_fmap] in IH. rewrite IH.
      symmetry. apply Permutation_middle.
Qed.

Lemma grid_append_cells grid cell key :
  NoDup (fst <$> grid) -> NoDup (fst <$> grid_append grid cell key).
Proof.
  induction grid as [| [c ks] rest IH]; cbn [grid_append].
  - intros _. apply NoDup_singleton.
  - intros Hnd. apply NoDup_cons in Hnd as [Hc Hnd].
    destruct (decide (c = cell)) as [-> | Hne]; cbn [fmap list_fmap fst].
    + apply NoDup_cons. auto.
    + apply NoDup_cons. split; [| apply IH, Hnd].
      intros Hin. apply list_elem_of_fmap in Hin as ([c' ks'] & Hc' & Hin).
      cbn [fst] in Hc'. subst c'.
      apply grid_append_elem in Hin
        as [Hin | (Heq & _)]; [| congruence].
      apply Hc. apply list_elem_of_fmap. exists (c, ks'). auto.
Qed.

Lemma update_ref_Ok g key dots grid dots' grid' :
  update_ref g key (dots, grid) = Ok (dots', grid') ->
  exists self,
    current_zoom g <> 0 /\ dots !! key = Some self
    /\ dots' = <[key := moved self]> dots
    /\ grid' = grid_append grid (cell_of g (pos (moved self))) key.
Proof.
  intros Hu. destruct (dots !! key) as [self |] eqn:Hk;
    [| unfold update_ref in Hu; rewrite Hk in Hu; discriminate].
  destruct (Req_dec_T (current_zoom g) 0) as [Hz | Hz];
    [rewrite (update_ref_zero _ _ _ _ _ Hz Hk) in Hu; discriminate |].
  rewrite (update_ref_eq _ _ _ _ _ Hz Hk) in Hu. injection Hu as <- <-.
  exists self. auto.
Qed.

Lemma update_loop_keys g m : forall n dots grid dots' grid',
  for_each (seq n m) (update_ref g) (dots, grid) = Ok (dots', grid') ->
  (grid_keys grid' ≡ₚ seq n m ++ grid_keys grid)
  /\ (NoDup (fst <$> grid) -> NoDup (fst <$> grid'))
  /\ ((forall c ks, (c, ks) ∈ grid -> ks <> []) ->
      forall c ks, (c, ks) ∈ grid' -> ks <> []).
Proof.
  induction m as [| m IH]; intros n dots grid dots' grid' Hloop;
    cbn [seq for_each] in Hloop.
  - injection Hloop as <- <-. auto.
  - destruct (update_ref g n (dots, grid)) as [[dots1 grid1] |] eqn:Hu;
      [| discriminate].
    cbn [mbind result_bind] in Hloop.
    apply update_ref_Ok in Hu as (self & _ & _ & _ & ->).
    destruct (IH _ _ _ _ _ Hloop) as (Hkeys & Hcells & Hfull).
    split; [| split].
    + rewrite Hkeys, grid_keys_append. cbn [app].
      symmetry. apply Permutation_middle.
    + intros Hnd. apply Hcells, grid_append_cells, Hnd.
    + intros Hne. apply Hfull. intros c ks Hin.
      apply grid_append_elem in Hin as [Hin | (_ & ks0 & -> & _)];
        [exact (Hne c ks Hin) |].
      intros Hnil. apply app_eq_nil in Hnil as [_ Hnil]. discriminate.
Qed.

(** X9. The grid that the pass over [DOTS] fills is complete and exact:
    every dot is referenced once, in one bucket; no cell has two buckets and
    no bucket is empty; and every bucket holds references to dots whose new
    position [get_grid_cell] maps to the bucket's cell. *)
Theorem update_all_grid g dots dots' grid :
  update_all g dots = Ok (dots', grid) ->
  grid_keys grid ≡ₚ seq 0 (length dots)
  /\ NoDup (fst <$> grid)
  /\ forall c ks, (c, ks) ∈ grid ->
       ks <> []
       /\ forall k, k ∈ ks ->
            exists d, dots' !! k = Some d /\ get_grid_cell g (pos d) = Ok c.
Proof.
  intros Hu.
  destruct (update_loop_keys g (length dots) 0%nat dots [] dots' grid Hu)
    as (Hkeys & Hcells & Hfull).
  split; [rewrite Hkeys, app_nil_r; reflexivity |].
  split; [apply Hcells, NoDup_nil; exact I |].
  intros c ks Hin.
  split; [apply (Hfull (fun c ks H => False_ind _ (not_elem_of_nil _ H)) c ks Hin) |].
  assert (Hz : current_zoom g <> 0).
  { apply (update_all_zoom _ _ _ _ Hu). intros ->. inversion Hin. }
  destruct (update_all_filed _ _ _ _ Hz Hu) as [Hf _].
  destruct (Hf c ks Hin) as [_ Hks]. intros k Hk.
  destruct (Hks k Hk) as (_ & d & Hd & Hc).
  exists d. split; [exact Hd |]. rewrite get_grid_cell_eq by exact Hz.
  rewrite Hc. reflexivity.
Qed.

Lemma update_all_grid_witness :
  grid_keys tick_grid ≡ₚ seq 0 3
  /\ NoDup (fst <$> tick_grid)
  /\ forall c ks, (c, ks) ∈ tick_grid ->
       ks <> []
       /\ forall k, k ∈ ks ->
            exists d, [moved tick_l; moved tick_r; moved tick_far] !! k = Some d
                      /\ get_grid_cell initial_globals (pos d) = Ok c.
Proof.
  apply (update_all_grid initial_globals tick_dots _ _ update_all_tick_dots).
Defined.

(** ** The visibility pass *)

Lemma for_each_app {A S : Type} (l1 l2 : list A) (body : A -> S -> result S)
    (s : S) :
  for_each (l1 ++ l2) body s = for_each l1 body s ≫= for_each l2 body.
Proof.
  revert s. induction l1 as [| x l1 IH]; intros s; cbn [app for_each].
  - reflexivity.
  - destruct (body x s) as [s' | e]; cbn [mbind result_bind];
      [apply IH | reflexivity].
Qed.

Lemma for_each_grid_keys {S : Type} (grid : Grid)
    (body : nat -> S -> result S) (s : S) :
  for_each grid (fun '(cell, ks) => for_each ks body) s
  = for_each (grid_keys grid) body s.
Proof.
  unfold grid_keys. revert s.
  induction grid as [| [c ks] rest IH]; intros s;
    cbn [for_each fmap list_fmap concat snd]; [reflexivity |].
  rewrite for_each_app.
  destruct (for_each ks body s) as [s' | e]; cbn [mbind result_bind];
    [apply IH | reflexivity].
Qed.

Lemma tally_ext {A : Type} (f f' : A -> Z) (l : list A) :
  (forall x, x ∈ l -> f x = f' x) -> tally f l = tally f' l.
Proof.
  induction l as [| x l IH]; intros H; cbn [tally foldr]; [reflexivity |].
  rewrite (H x) by left. f_equal. apply IH. intros y Hy. apply H. right.
  exact Hy.
Qed.

Lemma tally_app {A : Type} (f : A -> Z) (l1 l2 : list A) :
  tally f (l1 ++ l2) = (tally f l1 + tally f l2)%Z.
Proof.
  induction l1 as [| x l1 IH]; cbn [app tally foldr]; [reflexivity |].
  fold (tally f (l1 ++ l2)). fold (tally f l1). rewrite IH. lia.
Qed.

Lemma tally_Permutation {A : Type} (f : A -> Z) (l1 l2 : list A) :
  l1 ≡ₚ l2 -> tally f l1 = tally f l2.
Proof.
  induction 1 as [| x l1 l2 _ IH | x y l | l1 l2 l3 _ IH1 _ IH2];
    cbn [tally foldr].
  - reflexivity.
  - fold (tally f l1). fold (tally f l2). rewrite IH. reflexivity.
  - lia.
  - congruence.
Qed.

(** The sum over the references [0 .. n-1] of a store is the sum over its
    dots. *)
Lemma tally_seq (h : Dot -> Z) (dots : list Dot) :
  tally (fun k => match dots !! k with Some d => h d | None => 0%Z end)
    (seq 0 (length dots))
  = tally h dots.
Proof.
  induction dots as [| d dots IH] using rev_ind; [reflexivity |].
  rewrite length_app, Nat.add_1_r, seq_S, !tally_app. cbn [Nat.add].
  cbn [tally foldr]. rewrite list_lookup_middle by reflexivity.
  rewrite <- IH. f_equal. apply tally_ext.
  intros k Hk. apply elem_of_seq in Hk.
  rewrite lookup_app_l by lia. reflexivity.
Qed.

Lemma check_visibility_ref_eq g key dots n d :
  dots !! key = Some d ->
  check_visibility_ref g key (dots, n)
  = Ok (<[key := shown g d]> dots, (n + on_screen_count g d)%Z).
Proof. intros Hk. unfold check_visibility_ref. rewrite Hk. reflexivity. Qed.

Lemma visibility_loop g ks :
  NoDup ks -> forall dots n,
  (forall k, k ∈ ks -> (k < length dots)%nat) ->
  exists dots',
    for_each ks (check_visibility_ref g) (dots, n)
    = Ok (dots',
          (n + tally (fun k => match dots !! k with
                               | Some d => on_screen_count g d
                               | None => 0%Z
                               end) ks)%Z)
    /\ length dots' = length dots
    /\ forall k, dots' !! k
                 = if decide (k ∈ ks) then shown g <$> dots !! k
                   else dots !! k.
Proof.
  induction ks as [| key ks IH]; intros Hnd dots n Hvalid.
  - exists dots. cbn [for_each tally foldr]. rewrite Z.add_0_r.
    split; [reflexivity |]. split; [reflexivity |].
    intros k. rewrite decide_False by apply not_elem_of_nil. reflexivity.
  - apply NoDup_cons in Hnd as [Hkey Hnd].
    destruct (lookup_lt_is_Some_2 dots key) as [d Hd];
      [apply Hvalid; left |].
    cbn [for_each]. rewrite (check_visibility_ref_eq _ _ _ _ _ Hd).
    cbn [mbind result_bind].
    destruct (IH Hnd (<[key := shown g d]> dots) (n + on_screen_count g d)%Z)
      as (dots' & Hloop & Hlen & Hlook).
    { intros k Hk. rewrite length_insert. apply Hvalid. right. exact Hk. }
    exists dots'. split; [| split].
    + rewrite Hloop. do 2 f_equal. cbn [tally foldr]. rewrite Hd.
      rewrite <- Z.add_assoc. do 2 f_equal. apply tally_ext.
      intros k Hk. rewrite list_lookup_insert_ne; [reflexivity |].
      intros ->. contradiction.
    + rewrite Hlen. apply length_insert.
    + intros k. rewrite Hlook.
      destruct (decide (k = key)) as [-> | Hne].
      * rewrite decide_False by assumption.
        rewrite decide_True by left.
        rewrite list_lookup_insert_eq by (eapply lookup_lt_Some, Hd).
        rewrite Hd. reflexivity.
      * rewrite list_lookup_insert_ne by auto.
        destruct (decide (k ∈ ks)) as [Hin | Hout].
        -- rewrite decide_True by (right; exact Hin). reflexivity.
        -- rewrite decide_False; [reflexivity |].
           intros Hin. apply elem_of_cons in Hin as [-> | Hin]; contradiction.
Qed.

Lemma count_visible_complete g grid dots :
  grid_keys grid ≡ₚ seq 0 (length dots) ->
  count_visible g grid dots
  = Ok (shown g <$> dots, tally (on_screen_count g) dots).
Proof.
  intros Hperm. unfold count_visible. rewrite for_each_grid_keys.
  destruct (visibility_loop g (grid_keys grid)) with (dots := dots) (n := 0%Z)
    as (dots' & Hloop & Hlen & Hlook).
  - rewrite Hperm. apply NoDup_seq.
  - intros k Hk. rewrite Hperm in Hk. apply elem_of_seq in Hk. lia.
  - rewrite Hloop. f_equal. f_equal.
    + apply list_eq. intros k. rewrite Hlook, list_lookup_fmap.
      destruct (decide (k ∈ grid_keys grid)) as [Hin | Hout]; [reflexivity |].
      rewrite Hperm, elem_of_seq in Hout.
      rewrite (lookup_ge_None_2 dots k) by lia. reflexivity.
    + rewrite Z.add_0_l, (tally_Permutation _ _ _ Hperm). apply tally_seq.
Qed.

(** ** What the collision phase keeps *)

Lemma same_body_refl d : same_body d d.
Proof. unfold same_body. destruct d. reflexivity. Qed.

Lemma same_body_trans d1 d2 d3 :
  same_body d1 d2 -> same_body d2 d3 -> same_body d1 d3.
Proof. unfold same_body. intros -> ->. reflexivity. Qed.

Lemma resolve_collision_same_body dot1 dot2 dot1' dot2' :
  resolve_collision dot1 dot2 = Ok (dot1', dot2') ->
  same_body dot1 dot1' /\ same_body dot2 dot2'.
Proof.
  intros Hr.
  destruct (resolve_collision_Ok _ _ _ _ Hr)
    as [_ [(_ & -> & ->) | (_ & _ & Hi)]].
  - split; apply same_body_refl.
  - unfold impulse in Hi. injection Hi as <- <-. split; reflexivity.
Qed.

(** What a call of [check_pair] that returns has done. *)
Lemma check_pair_Ok k1 k2 dots dots' :
  check_pair k1 k2 dots = Ok dots' ->
  dots' = dots
  \/ exists d1 d2 d1' d2',
       k1 <> k2 /\ dots !! k1 = Some d1 /\ dots !! k2 = Some d2
       /\ resolve_collision d1 d2 = Ok (d1', d2')
       /\ dots' = <[k2 := d2']> (<[k1 := d1']> dots).
Proof.
  unfold check_pair.
  destruct (dots !! k1) as [d1 |] eqn:H1; [| discriminate].
  destruct (dots !! k2) as [d2 |] eqn:H2; [| discriminate].
  destruct (detect_collision d1 d2); [| intros [= <-]; left; reflexivity].
  destruct (resolve_collision d1 d2) as [[d1' d2'] |] eqn:Hr; [| discriminate].
  cbn [mbind result_bind]. intros [= <-]. right.
  exists d1, d2, d1', d2'. repeat split; try assumption.
  intros ->. apply (resolve_collision_Ok_apart _ _ _ Hr). congruence.
Qed.

(** A property of the store that every [check_pair] keeps is kept by the
    whole collision phase. *)
Lemma collisions_invariant (inv : list Dot -> Prop) :
  (forall k1 k2 dots dots',
      inv dots -> check_pair k1 k2 dots = Ok dots' -> inv dots') ->
  forall grid dots dots',
    inv dots -> collisions grid dots = Ok dots' -> inv dots'.
Proof.
  intros Hpair grid dots dots' Hinv Hc.
  assert (Hstep : forall k1 k2 ds, inv ds ->
            match check_pair k1 k2 ds with
            | Ok ds' => inv ds'
            | Raise _ => True
            end).
  { intros k1 k2 ds Hds. destruct (check_pair k1 k2 ds) eqn:Hp; [| exact I].
    exact (Hpair _ _ _ _ Hds Hp). }
  pose proof (for_each_raise inv (fun _ => True) grid
    (fun '(cell, ks) dots =>
       dots ← same_cell ks dots; neighbor_cells grid cell ks dots)) as Hloop.
  unfold collisions in Hc. specialize (Hloop) with (s := dots).
  rewrite Hc in Hloop. apply Hloop; [| exact Hinv].
  clear dots dots' Hinv Hc Hloop. intros [cell ks] ds _ Hds.
  assert (Hsame : match same_cell ks ds with
                  | Ok ds' => inv ds'
                  | Raise _ => True
                  end).
  { unfold same_cell. revert ds Hds.
    apply (for_each_raise inv (fun _ => True)). intros i ds _ Hds.
    revert ds Hds. apply (for_each_raise inv (fun _ => True)).
    intros j ds _ Hds. destruct (ks !! i), (ks !! j); try exact I.
    apply Hstep, Hds. }
  destruct (same_cell ks ds) as [ds1 | e]; cbn [mbind result_bind];
    [| exact I].
  unfold neighbor_cells. revert ds1 Hsame.
  apply (for_each_raise inv (fun _ => True)). intros o ds1 _ Hds1.
  destruct (grid_get grid _) as [ks2 |]; [| exact Hds1].
  revert ds1 Hds1. apply (for_each_raise inv (fun _ => True)).
  intros k1 ds1 _ Hds1. revert ds1 Hds1.
  apply (for_each_raise inv (fun _ => True)).
  intros k2 ds1 _ Hds1. apply Hstep, Hds1.
Qed.

Lemma Forall2_insert_right {A B : Type} (P : A -> B -> Prop)
    (l : list A) (k : list B) (i : nat) (y y' : B) :
  Forall2 P l k -> k !! i = Some y -> (forall x, P x y -> P x y') ->
  Forall2 P l (<[i := y']> k).
Proof.
  intros Hlk Hi Hy.
  destruct (Forall2_lookup_r _ _ _ _ _ Hlk Hi) as (x & Hx & Hxy).
  rewrite <- (list_insert_id l i x Hx). apply Forall2_insert; auto.
Qed.

Lemma collisions_same_body grid dots0 dots dots' :
  Forall2 same_body dots0 dots -> collisions grid dots = Ok dots' ->
  Forall2 same_body dots0 dots'.
Proof.
  apply (collisions_invariant (Forall2 same_body dots0)).
  intros k1 k2 ds ds' Hds Hp.
  destruct (check_pair_Ok _ _ _ _ Hp)
    as [-> | (d1 & d2 & d1' & d2' & Hne & H1 & H2 & Hr & ->)];
    [exact Hds |].
  destruct (resolve_collision_same_body _ _ _ _ Hr) as [Hb1 Hb2].
  apply (Forall2_insert_right _ _ _ _ d2).
  - apply (Forall2_insert_right _ _ _ _ d1); [exact Hds | exact H1 |].
    intros x Hx. exact (same_body_trans _ _ _ Hx Hb1).
  - rewrite list_lookup_insert_ne by exact Hne. exact H2.
  - intros x Hx. exact (same_body_trans _ _ _ Hx Hb2).
Qed.

Lemma total_cons (f : Dot -> R) d dots :
  total f (d :: dots) = f d + total f dots.
Proof. reflexivity. Qed.

Lemma total_insert (f : Dot -> R) dots k d d' :
  dots !! k = Some d ->
  total f (<[k := d']> dots) = total f dots - f d + f d'.
Proof.
  revert k. induction dots as [| x dots IH]; intros k Hk; [discriminate |].
  destruct k as [| k].
  - change (<[0%nat := d']> (x :: dots)) with (d' :: dots).
    rewrite !total_cons. injection Hk as ->. ring.
  - change (<[S k := d']> (x :: dots)) with (x :: <[k := d']> dots).
    rewrite !total_cons, (IH k Hk). ring.
Qed.

Lemma collisions_total (f : Dot -> R) :
  (forall d1 d2 d1' d2',
      resolve_collision d1 d2 = Ok (d1', d2') -> f d1' + f d2' = f d1 + f d2) ->
  forall grid dots dots',
    collisions grid dots = Ok dots' -> total f dots' = total f dots.
Proof.
  intros Hpair grid dots dots'.
  apply (collisions_invariant (fun ds => total f ds = total f dots));
    [| reflexivity].
  intros k1 k2 ds ds' Hds Hp.
  destruct (check_pair_Ok _ _ _ _ Hp)
    as [-> | (d1 & d2 & d1' & d2' & Hne & H1 & H2 & Hr & ->)];
    [exact Hds |].
  rewrite (total_insert f _ k2 d2)
    by (rewrite list_lookup_insert_ne by exact Hne; exact H2).
  rewrite (total_insert f _ k1 d1) by exact H1.
  pose proof (Hpair _ _ _ _ Hr). lra.
Qed.

Lemma resolve_collision_pair_kinetic d1 d2 d1' d2' :
  resolve_collision d1 d2 = Ok (d1', d2') ->
  kinetic d1' + kinetic d2' = kinetic d1 + kinetic d2.
Proof.
  intros Hr.
  destruct (resolve_collision_Ok _ _ _ _ Hr)
    as [Hpos [(_ & -> & ->) | (_ & Hm & Hi)]]; [reflexivity |].
  pose proof (impulse_kinetic _ _ Hpos Hm) as Hk.
  rewrite Hi in Hk. exact Hk.
Qed.

Lemma resolve_collision_pair_momentum d1 d2 d1' d2' :
  resolve_collision d1 d2 = Ok (d1', d2') ->
  momentum_x d1' + momentum_x d2' = momentum_x d1 + momentum_x d2
  /\ momentum_y d1' + momentum_y d2' = momentum_y d1 + momentum_y d2.
Proof.
  intros Hr.
  destruct (resolve_collision_Ok _ _ _ _ Hr)
    as [Hpos [(_ & -> & ->) | (_ & Hm & Hi)]]; [split; reflexivity |].
  pose proof (impulse_momentum _ _ Hm) as Hxy.
  unfold impulse in Hi. injection Hi as <- <-.
  unfold momentum_x, momentum_y. cbn [size vel set_vel fst snd] in *.
  exact Hxy.
Qed.

(** X10. The collision phase conserves the momentum of the whole system on
    both axes and its kinetic energy, whenever it returns: the sums of
    [size * vx], of [size * vy] and of [size * (vx^2 + vy^2)] over all dots
    are the same before and after. *)
Theorem collisions_conserve grid dots dots' :
  collisions grid dots = Ok dots' ->
  total momentum_x dots' = total momentum_x dots
  /\ total momentum_y dots' = total momentum_y dots
  /\ total kinetic dots' = total kinetic dots.
Proof.
  intros Hc. repeat split.
  - apply (collisions_total momentum_x) with (grid := grid); [| exact Hc].
    intros. eapply resolve_collision_pair_momentum. eassumption.
  - apply (collisions_total momentum_y) with (grid := grid); [| exact Hc].
    intros. eapply resolve_collision_pair_momentum. eassumption.
  - apply (collisions_total kinetic) with (grid := grid); [| exact Hc].
    intros. eapply resolve_collision_pair_kinetic. eassumption.
Qed.

Lemma collisions_tick_moved : collisions tick_grid tick_moved = Ok tick_after.
Proof.
  unfold tick_grid.
  rewrite (collisions_two_cells (1, 1)%Z [0; 2]%nat (2, 1)%Z [1]%nat
             (1, 0)%Z 0%nat 1%nat tick_moved (moved tick_l) (moved tick_r)).
  - unfold check_pair, tick_moved.
    change ([moved tick_l; moved tick_r; moved tick_far] !! 0%nat)
      with (Some (moved tick_l)).
    change ([moved tick_l; moved tick_r; moved tick_far] !! 1%nat)
      with (Some (moved tick_r)).
    cbv beta iota. rewrite detect_collision_tick_l_r.
    rewrite resolve_collision_eq;
      [| rewrite moved_tick_l, moved_tick_r; apply pair_neq_fst; simpl; lra
       | simpl; lra].
    rewrite approaching_tick_l_r, impulse_tick_l_r. reflexivity.
  - apply elem_of_neighbor_offsets. cbn [fst snd]. repeat split; try lia.
    discriminate.
  - reflexivity.
  - apply NoDup_cons. split; [| apply NoDup_singleton].
    intros H. apply list_elem_of_singleton in H. discriminate.
  - apply NoDup_singleton.
  - intros k Hk Hk'. apply list_elem_of_singleton in Hk' as ->.
    apply elem_of_cons in Hk as [Hk | Hk]; [discriminate |].
    apply list_elem_of_singleton in Hk. discriminate.
  - left.
  - left.
  - reflexivity.
  - reflexivity.
  - rewrite moved_tick_l, moved_tick_r. apply pair_neq_fst. simpl. lra.
  - simpl. lra.
  - intros k1 k2 H1 H2 Hne Hab Hba.
    assert (Hk : forall k, k ∈ [0; 2]%nat ++ [1]%nat ->
                           k = 0%nat \/ k = 1%nat \/ k = 2%nat).
    { intros k Hk. cbn [app] in Hk. rewrite !elem_of_cons in Hk.
      rewrite elem_of_nil in Hk. tauto. }
    apply Hk in H1, H2. unfold calm, tick_moved.
    destruct H1 as [-> | [-> | ->]], H2 as [-> | [-> | ->]];
      try congruence; try (exfalso; tauto);
      eexists _, _; (split; [reflexivity |]); (split; [reflexivity |]);
      first [ exact detect_collision_tick_l_far
            | exact detect_collision_tick_r_far
            | rewrite detect_collision_sym;
              first [ exact detect_collision_tick_l_far
                    | exact detect_collision_tick_r_far ] ].
Qed.

Lemma physics_tick_dots :
  physics initial_globals tick_dots = Ok (tick_after, tick_grid).
Proof.
  unfold physics. rewrite update_all_tick_dots. cbn [mbind result_bind].
  fold tick_moved. rewrite collisions_tick_moved. reflexivity.
Qed.

Lemma collisions_conserve_witness :
  total momentum_x tick_after = total momentum_x tick_moved
  /\ total momentum_y tick_after = total momentum_y tick_moved
  /\ total kinetic tick_after = total kinetic tick_moved.
Proof.
  apply (collisions_conserve tick_grid tick_moved tick_after).
  exact collisions_tick_moved.
Defined.

(** ** What a tick keeps *)

Lemma update_all_Ok g dots dots1 grid :
  update_all g dots = Ok (dots1, grid) -> dots1 = moved <$> dots.
Proof.
  intros Hu. destruct (Req_dec_T (current_zoom g) 0) as [Hz | Hz].
  - destruct dots as [| d rest].
    + unfold update_all in Hu. cbn [length seq for_each] in Hu.
      injection Hu as <- _. reflexivity.
    + unfold update_all in Hu. cbn [length seq for_each] in Hu.
      rewrite (update_ref_zero g 0%nat (d :: rest) [] d Hz eq_refl) in Hu.
      discriminate.
  - destruct (update_all_moved g dots Hz) as [grid' Hu'].
    rewrite Hu' in Hu. injection Hu as <- _. reflexivity.
Qed.

Lemma physics_Ok g dots dots' grid :
  physics g dots = Ok (dots', grid) ->
  update_all g dots = Ok (moved <$> dots, grid)
  /\ collisions grid (moved <$> dots) = Ok dots'.
Proof.
  unfold physics. intros Hp.
  destruct (update_all g dots) as [[dots1 grid1] |] eqn:Hu; [| discriminate].
  cbn [mbind result_bind] in Hp.
  destruct (collisions grid1 dots1) as [dots2 |] eqn:Hc; [| discriminate].
  cbn [mbind result_bind] in Hp. injection Hp as <- <-.
  rewrite (update_all_Ok _ _ _ _ Hu) in *. auto.
Qed.

Lemma moved_contained d : fits d -> contained (moved d).
Proof.
  intros [Hx Hy]. unfold contained, moved.
  cbn [pos size set_pos set_vel fst snd].
  split; apply bounce_contained; lra.
Qed.

Lemma same_body_contained d d' : same_body d d' -> contained d -> contained d'.
Proof. unfold same_body. intros -> H. exact H. Qed.

Lemma physics_same_body g dots dots' grid :
  physics g dots = Ok (dots', grid) ->
  Forall2 same_body (moved <$> dots) dots'.
Proof.
  intros Hp. destruct (physics_Ok _ _ _ _ Hp) as [_ Hc].
  apply (collisions_same_body grid (moved <$> dots) (moved <$> dots));
    [| exact Hc].
  apply Forall2_same_length_lookup_2; [reflexivity |].
  intros i x y Hx Hy. rewrite Hx in Hy. injection Hy as <-.
  apply same_body_refl.
Qed.

(** X11. The collision phase never moves a dot.  After a tick that returns,
    every dot is where the pass over [DOTS] put it, with the size, the color
    and the [visible] flag it had: the tick differs from that pass in
    velocities only.  Hence every dot that fits between the walls is within
    the walls after the tick. *)
Theorem physics_keeps_bodies g dots dots' grid :
  physics g dots = Ok (dots', grid) ->
  exists dots1,
    update_all g dots = Ok (dots1, grid)
    /\ Forall2 same_body dots1 dots'
    /\ forall key d d', dots !! key = Some d -> dots' !! key = Some d' ->
         size d' = size d /\ color d' = color d /\ visible d' = visible d
         /\ (fits d -> contained d').
Proof.
  intros Hp. destruct (physics_Ok _ _ _ _ Hp) as [Hu _].
  pose proof (physics_same_body _ _ _ _ Hp) as Hb.
  exists (moved <$> dots). split; [exact Hu |]. split; [exact Hb |].
  intros key d d' Hd Hd'.
  assert (Hm : (moved <$> dots) !! key = Some (moved d))
    by (rewrite list_lookup_fmap, Hd; reflexivity).
  pose proof (Forall2_lookup_lr _ _ _ _ _ _ Hb Hm Hd') as Hbody.
  unfold same_body in Hbody. rewrite Hbody.
  cbn [size color visible set_vel]. do 3 (split; [reflexivity |]).
  intros Hfit. apply (same_body_contained (moved d)); [reflexivity |].
  apply moved_contained, Hfit.
Qed.

Lemma physics_keeps_bodies_witness :
  exists dots1,
    update_all initial_globals tick_dots = Ok (dots1, tick_grid)
    /\ Forall2 same_body dots1 tick_after
    /\ forall key d d', tick_dots !! key = Some d ->
         tick_after !! key = Some d' ->
         size d' = size d /\ color d' = color d /\ visible d' = visible d
         /\ (fits d -> contained d').
Proof.
  apply (physics_keeps_bodies initial_globals tick_dots tick_after tick_grid).
  exact physics_tick_dots.
Defined.

Lemma total_moved dots : total kinetic (moved <$> dots) = total kinetic dots.
Proof.
  induction dots as [| d dots IH]; [reflexivity |].
  cbn [fmap list_fmap]. rewrite !total_cons, moved_kinetic.
  f_equal. exact IH.
Qed.

Lemma physics_kinetic g dots dots' grid :
  physics g dots = Ok (dots', grid) ->
  total kinetic dots' = total kinetic dots.
Proof.
  intros Hp. destruct (physics_Ok _ _ _ _ Hp) as [_ Hc].
  rewrite <- (total_moved dots).
  apply (collisions_total kinetic) with (grid := grid); [| exact Hc].
  intros. eapply resolve_collision_pair_kinetic. eassumption.
Qed.

(** X12. A tick that returns conserves the kinetic energy of the whole
    system: neither the walls nor the collisions change the sum of
    [size * (vx^2 + vy^2)] over all dots. *)
Theorem physics_conserves_energy g dots dots' grid :
  physics g dots = Ok (dots', grid) ->
  total kinetic dots' = total kinetic dots.
Proof. apply physics_kinetic. Qed.

Lemma physics_conserves_energy_witness :
  total kinetic tick_after = total kinetic tick_dots.
Proof.
  apply (physics_conserves_energy initial_globals tick_dots tick_after
           tick_grid).
  exact physics_tick_dots.
Defined.

(** ** A tick without collisions *)

Lemma grid_get_elem grid cell ks :
  grid_get grid cell = Some ks -> (cell, ks) ∈ grid.
Proof.
  induction grid as [| [c ks'] rest IH]; cbn [grid_get]; [discriminate |].
  destruct (decide (c = cell)) as [-> | Hne].
  - intros [= ->]. left.
  - intros H. right. apply IH, H.
Qed.

Lemma collisions_calm g grid dots n :
  filed g dots grid n ->
  (forall k1 k2 d1 d2, k1 <> k2 ->
     dots !! k1 = Some d1 -> dots !! k2 = Some d2 ->
     detect_collision d1 d2 = false) ->
  collisions grid dots = Ok dots.
Proof.
  intros Hf Hcalm. unfold collisions. apply for_each_skip.
  intros [cell ks] Hin. destruct (Hf cell ks Hin) as [Hnd Hks].
  rewrite same_cell_calm; [| exact Hnd |].
  - cbn [mbind result_bind]. unfold neighbor_cells. apply for_each_skip.
    intros o Ho.
    destruct (grid_get grid _) as [ks2 |] eqn:Hget; [| reflexivity].
    apply grid_get_elem in Hget. destruct (Hf _ ks2 Hget) as [_ Hks2].
    apply for_each_skip. intros k1 Hk1. apply for_each_skip. intros k2 Hk2.
    destruct (Hks k1 Hk1) as (_ & d1 & Hd1 & Hc1).
    destruct (Hks2 k2 Hk2) as (_ & d2 & Hd2 & Hc2).
    apply check_pair_calm. exists d1, d2.
    split; [exact Hd1 |]. split; [exact Hd2 |].
    apply (Hcalm k1 k2); try assumption.
    intros ->. rewrite Hd1 in Hd2. injection Hd2 as <-.
    apply (shift_neq cell o Ho). unfold shift. congruence.
  - intros k1 k2 Hk1 Hk2 Hne.
    destruct (Hks k1 Hk1) as (_ & d1 & Hd1 & _).
    destruct (Hks k2 Hk2) as (_ & d2 & Hd2 & _).
    exists d1, d2. split; [exact Hd1 |]. split; [exact Hd2 |].
    apply (Hcalm k1 k2); assumption.
Qed.

(** X13. A tick in which no two dots collide once they are moved is that
    move: it returns the dots as the pass over [DOTS] leaves them, so that
    velocities change at the walls only. *)
Theorem physics_without_collisions g dots dots1 grid :
  update_all g dots = Ok (dots1, grid) ->
  (forall k1 k2 d1 d2, k1 <> k2 ->
     dots1 !! k1 = Some d1 -> dots1 !! k2 = Some d2 ->
     detect_collision d1 d2 = false) ->
  physics g dots = Ok (dots1, grid).
Proof.
  intros Hu Hcalm. unfold physics. rewrite Hu. cbn [mbind result_bind].
  assert (Hc : collisions grid dots1 = Ok dots1).
  { destruct grid as [| b grid']; [reflexivity |].
    assert (Hz : current_zoom g <> 0)
      by (apply (update_all_zoom _ _ _ _ Hu); discriminate).
    destruct (update_all_filed _ _ _ _ Hz Hu) as [Hf _].
    apply (collisions_calm g _ _ _ Hf Hcalm). }
  rewrite Hc. reflexivity.
Qed.

Lemma update_all_apart_dots :
  update_all initial_globals apart_dots
  = Ok ([moved tick_l; moved tick_far], [((1, 1)%Z, [0; 1]%nat)]).
Proof.
  unfold update_all, apart_dots. cbn [length seq for_each].
  do 2 (erewrite update_ref_eq; [| exact initial_zoom_nonzero | reflexivity];
        cbn [mbind result_bind]).
  rewrite moved_tick_l, moved_tick_far.
  rewrite (cell_of_eq initial_globals (pos (set_pos tick_l _)) 1 1)
    by (try reflexivity; simpl; lra).
  rewrite (cell_of_eq initial_globals (pos (set_pos tick_far _)) 1 1)
    by (try reflexivity; simpl; lra).
  reflexivity.
Qed.

Lemma physics_without_collisions_witness :
  physics initial_globals apart_dots
  = Ok ([moved tick_l; moved tick_far], [((1, 1)%Z, [0; 1]%nat)]).
Proof.
  apply (physics_without_collisions initial_globals apart_dots).
  - exact update_all_apart_dots.
  - intros k1 k2 d1 d2 Hne H1 H2.
    destruct k1 as [| [| k1]]; destruct k2 as [| [| k2]];
      try discriminate; try congruence;
      injection H1 as <-; injection H2 as <-;
      [| rewrite detect_collision_sym]; exact detect_collision_tick_l_far.
Defined.

(** ** Iterations of the main loop *)

Lemma update_all_keys g dots dots1 grid :
  update_all g dots = Ok (dots1, grid) ->
  grid_keys grid ≡ₚ seq 0 (length dots).
Proof.
  intros Hu.
  destruct (update_loop_keys g (length dots) 0%nat dots [] dots1 grid Hu)
    as (Hkeys & _). rewrite Hkeys, app_nil_r. reflexivity.
Qed.

Lemma physics_length g dots dots' grid :
  physics g dots = Ok (dots', grid) -> length dots' = length dots.
Proof.
  intros Hp. pose proof (physics_same_body _ _ _ _ Hp) as Hb.
  apply Forall2_length in Hb. rewrite length_fmap in Hb. congruence.
Qed.

Lemma frame_Ok g dots dots' n :
  frame g dots = Ok (dots', n) ->
  exists dots1 grid,
    physics g dots = Ok (dots1, grid)
    /\ dots' = shown g <$> dots1
    /\ n = tally (on_screen_count g) dots1.
Proof.
  unfold frame. intros Hfr.
  destruct (physics g dots) as [[dots1 grid] |] eqn:Hp; [| discriminate].
  cbn [mbind result_bind] in Hfr.
  destruct (physics_Ok _ _ _ _ Hp) as [Hu _].
  rewrite count_visible_complete in Hfr.
  - injection Hfr as <- <-. exists dots1, grid. auto.
  - rewrite (physics_length _ _ _ _ Hp). apply (update_all_keys _ _ _ _ Hu).
Qed.

Lemma tally_fmap {A B : Type} (f : B -> Z) (h : A -> B) (l : list A) :
  tally f (h <$> l) = tally (fun x => f (h x)) l.
Proof.
  induction l as [| x l IH]; [reflexivity |].
  cbn [fmap list_fmap tally foldr]. f_equal. exact IH.
Qed.

(** X14. After an iteration of the main loop every dot has been asked once
    whether it is visible: its [visible] flag is what [check_visibility]
    answers for it under the current camera, and [visible_dots] is the
    number of dots whose flag is set.  No dot is added or dropped. *)
Theorem frame_visibility g dots dots' visible_dots :
  frame g dots = Ok (dots', visible_dots) ->
  length dots' = length dots
  /\ (forall d', d' ∈ dots' -> is_visible d' = snd (check_visibility g d'))
  /\ visible_dots = tally (fun d => if is_visible d then 1 else 0)%Z dots'.
Proof.
  intros Hfr.
  destruct (frame_Ok _ _ _ _ Hfr) as (dots1 & grid & Hp & -> & ->).
  split; [rewrite length_fmap; apply (physics_length _ _ _ _ Hp) |].
  split.
  - intros d' Hd'. apply list_elem_of_fmap in Hd' as (d & -> & _).
    reflexivity.
  - rewrite tally_fmap. reflexivity.
Qed.

Lemma frame_tick_dots :
  frame initial_globals tick_dots
  = Ok (shown initial_globals <$> tick_after,
        tally (on_screen_count initial_globals) tick_after).
Proof.
  unfold frame. rewrite physics_tick_dots. cbn [mbind result_bind].
  apply count_visible_complete.
  apply (update_all_keys initial_globals tick_dots _ _ update_all_tick_dots).
Qed.

Lemma frame_visibility_witness :
  length (shown initial_globals <$> tick_after) = length tick_dots
  /\ (forall d', d' ∈ shown initial_globals <$> tick_after ->
        is_visible d' = snd (check_visibility initial_globals d'))
  /\ tally (on_screen_count initial_globals) tick_after
     = tally (fun d => if is_visible d then 1 else 0)%Z
         (shown initial_globals <$> tick_after).
Proof.
  apply (frame_visibility initial_globals tick_dots). exact frame_tick_dots.
Defined.

Lemma total_shown g dots : total kinetic (shown g <$> dots) = total kinetic dots.
Proof.
  induction dots as [| d dots IH]; [reflexivity |].
  cbn [fmap list_fmap]. rewrite !total_cons, IH. reflexivity.
Qed.

(** What one iteration keeps of every dot. *)
Lemma frame_keeps g dots dots' n :
  frame g dots = Ok (dots', n) ->
  total kinetic dots' = total kinetic dots
  /\ Forall2 (fun d d' => size d' = size d /\ color d' = color d
                          /\ (fits d -> contained d'))
       dots dots'.
Proof.
  intros Hfr.
  destruct (frame_Ok _ _ _ _ Hfr) as (dots1 & grid & Hp & -> & _).
  split; [rewrite total_shown; apply (physics_kinetic _ _ _ _ Hp) |].
  pose proof (physics_same_body _ _ _ _ Hp) as Hb.
  apply Forall2_same_length_lookup_2.
  - rewrite length_fmap. symmetry. apply (physics_length _ _ _ _ Hp).
  - intros i d d' Hd Hd'. rewrite list_lookup_fmap in Hd'.
    destruct (dots1 !! i) as [d1 |] eqn:Hd1; [| discriminate].
    injection Hd' as <-.
    assert (Hm : (moved <$> dots) !! i = Some (moved d))
      by (rewrite list_lookup_fmap, Hd; reflexivity).
    pose proof (Forall2_lookup_lr _ _ _ _ _ _ Hb Hm Hd1) as Hbody.
    unfold same_body in Hbody. rewrite Hbody.
    do 2 (split; [reflexivity |]). intros Hfit.
    exact (moved_contained d Hfit).
Qed.

(** X15. Over any number of iterations of the main loop that return, with
    any camera in each of them: no dot is added or dropped, every dot keeps
    its size and its color, the kinetic energy of the system stays the same,
    and after at least one iteration every dot that fits between the walls
    is within them. *)
Theorem frames_keep gs dots dots' :
  frames gs dots = Ok dots' ->
  total kinetic dots' = total kinetic dots
  /\ Forall2 (fun d d' => size d' = size d /\ color d' = color d
                          /\ (gs <> [] -> fits d -> contained d'))
       dots dots'.
Proof.
  revert dots. induction gs as [| g gs IH]; intros dots Hfs;
    cbn [frames] in Hfs.
  - injection Hfs as <-. split; [reflexivity |].
    apply Forall2_same_length_lookup_2; [reflexivity |].
    intros i d d' Hd Hd'. rewrite Hd in Hd'. injection Hd' as <-.
    do 2 (split; [reflexivity |]). intros Hne. contradiction.
  - destruct (frame g dots) as [[dots1 n] |] eqn:Hfr; [| discriminate].
    cbn [mbind result_bind] in Hfs.
    destruct (frame_keeps _ _ _ _ Hfr) as [Hk1 Hb1].
    destruct (IH _ Hfs) as [Hk2 Hb2].
    split; [congruence |].
    apply Forall2_same_length_lookup_2.
    + rewrite (Forall2_length _ _ _ Hb1). apply (Forall2_length _ _ _ Hb2).
    + intros i d d' Hd Hd'.
      destruct (Forall2_lookup_l _ _ _ _ _ Hb1 Hd)
        as (d1 & Hd1 & Hs1 & Hc1 & Hin1).
      pose proof (Forall2_lookup_lr _ _ _ _ _ _ Hb2 Hd1 Hd')
        as (Hs2 & Hc2 & Hin2).
      split; [congruence |]. split; [congruence |].
      intros _ Hfit. destruct gs as [| g' gs'].
      * cbn [frames] in Hfs. injection Hfs as <-.
        rewrite Hd1 in Hd'. injection Hd' as <-. apply Hin1, Hfit.
      * apply Hin2; [discriminate |].
        unfold fits in *. rewrite Hs1. exact Hfit.
Qed.

Lemma frames_tick_dots :
  frames [initial_globals] tick_dots
  = Ok (shown initial_globals <$> tick_after).
Proof.
  cbn [frames]. rewrite frame_tick_dots. reflexivity.
Qed.

Lemma frames_keep_witness :
  total kinetic (shown initial_globals <$> tick_after) = total kinetic tick_dots
  /\ Forall2 (fun d d' => size d' = size d /\ color d' = color d
                          /\ ([initial_globals] <> [] -> fits d -> contained d'))
       tick_dots (shown initial_globals <$> tick_after).
Proof.
  apply (frames_keep [initial_globals] tick_dots). exact frames_tick_dots.
Defined.

(** ** The camera *)

Lemma on_mousemotion_eq g rel :
  current_zoom g <> 0 ->
  on_mousemotion g true rel
  = Ok (set_CURRENT_POSITION g
          (fst (CURRENT_POSITION g) + fst rel / current_zoom g,
           snd (CURRENT_POSITION g) + snd rel / current_zoom g)).
Proof.
  intros Hz. unfold on_mousemotion. rewrite !py_div_ok by assumption.
  reflexivity.
Qed.

(** X16. Dragging with the right button moves the picture with the mouse:
    at a zoom that is not zero the handler returns, keeps the zoom and the
    window size, and afterwards every world point is drawn at its old screen
    point shifted by the mouse movement [rel].  A second drag adds up with
    the first.  Without the right button the camera is left as it is. *)
Theorem on_mousemotion_pans g rel :
  current_zoom g <> 0 ->
  (exists g',
     on_mousemotion g true rel = Ok g'
     /\ current_zoom g' = current_zoom g /\ WINDOW_SIZE g' = WINDOW_SIZE g
     /\ (forall p, world_to_screen g' p
                   = (fst (world_to_screen g p) + fst rel,
                      snd (world_to_screen g p) + snd rel))
     /\ forall rel',
          on_mousemotion g' true rel'
          = on_mousemotion g true (fst rel + fst rel', snd rel + snd rel'))
  /\ forall rel', on_mousemotion g false rel' = Ok g.
Proof.
  intros Hz. split; [| reflexivity].
  rewrite (on_mousemotion_eq g rel Hz). eexists. split; [reflexivity |].
  split; [reflexivity |]. split; [reflexivity |]. split.
  - intros p. unfold world_to_screen.
    cbn [CURRENT_POSITION current_zoom set_CURRENT_POSITION fst snd].
    f_equal; field; assumption.
  - intros rel'. rewrite !on_mousemotion_eq by assumption.
    unfold set_CURRENT_POSITION.
    cbn [CURRENT_POSITION current_zoom WINDOW_SIZE fst snd].
    do 3 f_equal; field; assumption.
Qed.

Lemma on_mousemotion_pans_witness :
  exists g',
    on_mousemotion initial_globals true (10, -4) = Ok g'
    /\ world_to_screen g' (3000, 2250) = (0 + 10, 0 + -4).
Proof.
  destruct (proj1 (on_mousemotion_pans initial_globals (10, -4)
                     initial_zoom_nonzero))
    as (g' & Hg & _ & _ & Hp & _).
  exists g'. split; [exact Hg |]. rewrite Hp.
  unfold world_to_screen, initial_globals, WORLD_SIZE. simpl.
  f_equal; lra.
Defined.

(** X17. The screen point of a world point and the world point under a
    screen point are inverse to each other at every zoom that is not
    zero; at zoom zero there is no world point under a screen point, the
    division raises. *)
Theorem world_screen_round_trip g :
  (current_zoom g <> 0 ->
   (forall p, screen_to_world g (world_to_screen g p) = Ok p)
   /\ forall m, exists w,
        screen_to_world g m = Ok w /\ world_to_screen g w = m)
  /\ (current_zoom g = 0 ->
      forall m, screen_to_world g m = Raise ZeroDivisionError).
Proof.
  split.
  - intros Hz. split.
    + intros [px py]. rewrite screen_to_world_eq by assumption.
      unfold world_to_screen. cbn [fst snd]. do 2 f_equal; field; assumption.
    + intros [mx my]. rewrite screen_to_world_eq by assumption.
      eexists. split; [reflexivity |].
      unfold world_to_screen. cbn [fst snd]. f_equal; field; assumption.
  - intros Hz m. unfold screen_to_world. rewrite Hz, !py_div_zero.
    reflexivity.
Qed.

Lemma world_screen_round_trip_witness :
  (forall p, screen_to_world initial_globals (world_to_screen initial_globals p)
             = Ok p)
  /\ forall m, exists w,
       screen_to_world initial_globals m = Ok w
       /\ world_to_screen initial_globals w = m.
Proof.
  apply (proj1 (world_screen_round_trip initial_globals)).
  exact initial_zoom_nonzero.
Defined.

Lemma zoom_to_same g mouse :
  current_zoom g <> 0 -> zoom_to g mouse (current_zoom g) = Ok g.
Proof.
  intros Hz. rewrite zoom_to_eq by assumption.
  destruct g as [[ox oy] z w]. cbn [CURRENT_POSITION current_zoom WINDOW_SIZE
                                     fst snd].
  do 3 f_equal; ring.
Qed.

Lemma on_mousewheel_zoom g mouse event_y g' :
  on_mousewheel g mouse event_y = Ok g' ->
  current_zoom g'
  = Rmax (1 / 10)
      (Rmin (current_zoom g
             + (if (0 <? event_y)%Z then 5 / 100 else - (5 / 100))
               * (5 / 10 + current_zoom g / 3)) 3)
  /\ WINDOW_SIZE g' = WINDOW_SIZE g.
Proof.
  unfold on_mousewheel, zoom_to. set (z := Rmax _ _).
  destruct (py_div (fst mouse) (current_zoom g)); [| discriminate].
  destruct (py_div (fst mouse) z); [| discriminate].
  destruct (py_div (snd mouse) (current_zoom g)); [| discriminate].
  destruct (py_div (snd mouse) z); [| discriminate].
  cbn [mbind result_bind]. intros [= <-]. split; reflexivity.
Qed.

(** X18. The wheel handler returns at every zoom that is not zero and
    leaves the zoom within [[0.1, 3]] and the window size as it was.
    Starting within [[0.1, 3]], a wheel movement [y > 0] raises the zoom,
    strictly below 3, and any other movement, [y = 0] included, lowers it,
    strictly above 0.1; at zoom 3 a movement [y > 0], and at zoom 0.1 any
    other movement, leaves the whole camera as it is. *)
Theorem on_mousewheel_steps g mouse event_y :
  current_zoom g <> 0 ->
  exists g',
    on_mousewheel g mouse event_y = Ok g'
    /\ 1 / 10 <= current_zoom g' <= 3
    /\ WINDOW_SIZE g' = WINDOW_SIZE g
    /\ (1 / 10 <= current_zoom g <= 3 ->
        ((0 < event_y)%Z ->
         current_zoom g <= current_zoom g'
         /\ (current_zoom g < 3 -> current_zoom g < current_zoom g')
         /\ (current_zoom g = 3 -> g' = g))
        /\ ((event_y <= 0)%Z ->
            current_zoom g' <= current_zoom g
            /\ (1 / 10 < current_zoom g -> current_zoom g' < current_zoom g)
            /\ (current_zoom g = 1 / 10 -> g' = g))).
Proof.
  intros Hz.
  assert (Hret : exists g', on_mousewheel g mouse event_y = Ok g').
  { unfold on_mousewheel. set (z := Rmax _ _).
    assert (Hc : 1 / 10 <= z <= 3) by apply new_zoom_clamped.
    rewrite zoom_to_eq by lra. eauto. }
  destruct Hret as [g' Hg]. exists g'. split; [exact Hg |].
  destruct (on_mousewheel_zoom _ _ _ _ Hg) as [Hzoom Hwin].
  split; [rewrite Hzoom; apply new_zoom_clamped |].
  split; [exact Hwin |].
  intros Hrange. split.
  - intros Hy. apply Z.ltb_lt in Hy.
    rewrite Hy in Hzoom.
    assert (Hsame : current_zoom g = 3 -> current_zoom g' = current_zoom g).
    { intros H3. rewrite Hzoom, H3. rewrite Rmin_right by lra.
      apply Rmax_right. lra. }
    split; [| split].
    + rewrite Hzoom. unfold Rmax, Rmin.
      repeat destruct (Rle_dec _ _); lra.
    + intros Hlt. rewrite Hzoom. unfold Rmax, Rmin.
      repeat destruct (Rle_dec _ _); lra.
    + intros H3. unfold on_mousewheel in Hg. rewrite Hy in Hg.
      replace (Rmax (1 / 10)
                 (Rmin (current_zoom g
                        + 5 / 100 * (5 / 10 + current_zoom g / 3)) 3))
        with (current_zoom g) in Hg
        by (rewrite H3, Rmin_right by lra; symmetry; apply Rmax_right; lra).
      rewrite zoom_to_same in Hg by assumption. congruence.
  - intros Hy. apply Z.ltb_ge in Hy.
    rewrite Hy in Hzoom.
    split; [| split].
    + rewrite Hzoom. unfold Rmax, Rmin.
      repeat destruct (Rle_dec _ _); lra.
    + intros Hlt. rewrite Hzoom. unfold Rmax, Rmin.
      repeat destruct (Rle_dec _ _); lra.
    + intros H1. unfold on_mousewheel in Hg. rewrite Hy in Hg.
      replace (Rmax (1 / 10)
                 (Rmin (current_zoom g
                        + - (5 / 100) * (5 / 10 + current_zoom g / 3)) 3))
        with (current_zoom g) in Hg
        by (rewrite H1, Rmin_left by lra; symmetry; apply Rmax_left; lra).
      rewrite zoom_to_same in Hg by assumption. congruence.
Qed.

Lemma on_mousewheel_steps_witness :
  exists g',
    on_mousewheel initial_globals (400, 300) 1 = Ok g'
    /\ 1 / 10 <= current_zoom g' <= 3
    /\ 1 < current_zoom g'.
Proof.
  destruct (on_mousewheel_steps initial_globals (400, 300) 1
              initial_zoom_nonzero)
    as (g' & Hg & Hr & _ & Hd).
  exists g'. split; [exact Hg |]. split; [exact Hr |].
  destruct Hd as [Hup _]; [simpl; lra |].
  destruct Hup as (_ & Hlt & _); [lia |]. apply Hlt. simpl. lra.
Defined.

(** ** The main loop *)

Lemma on_mousewheel_ok g mouse event_y :
  current_zoom g <> 0 ->
  exists g', on_mousewheel g mouse event_y = Ok g'
             /\ 1 / 10 <= current_zoom g' <= 3.
Proof.
  intros Hz. unfold on_mousewheel. set (z := Rmax _ _).
  assert (Hc : 1 / 10 <= z <= 3) by apply new_zoom_clamped.
  rewrite zoom_to_eq by lra. eexists. split; [reflexivity | exact Hc].
Qed.

Lemma handle_event_Ok mouse event st :
  current_zoom (globals st) <> 0 ->
  exists st1,
    handle_event mouse event st = Ok st1
    /\ current_zoom (globals st1) <> 0
    /\ DOTS st1 = DOTS st /\ grid st1 = grid st
    /\ text_update_counter st1 = text_update_counter st
    /\ is_paused st1
       = (if is_pause_key event then negb (is_paused st) else is_paused st).
Proof.
  intros Hz. destruct event as [| [| |] | y | b rel | size |];
    cbn [handle_event is_pause_key];
    try (eexists; split; [reflexivity |]; repeat split; exact Hz).
  - destruct (on_mousewheel_ok (globals st) mouse y Hz) as (g' & -> & Hr).
    cbn [mbind result_bind]. eexists. split; [reflexivity |].
    cbn [globals DOTS grid text_update_counter is_paused].
    repeat split. lra.
  - destruct b.
    + rewrite on_mousemotion_eq by assumption. cbn [mbind result_bind].
      eexists. split; [reflexivity |]. repeat split. exact Hz.
    + cbn [on_mousemotion mbind result_bind]. eexists.
      split; [reflexivity |]. repeat split. exact Hz.
Qed.

Lemma handle_events_Ok mouse events : forall st,
  current_zoom (globals st) <> 0 ->
  exists st1,
    for_each events (handle_event mouse) st = Ok st1
    /\ current_zoom (globals st1) <> 0
    /\ DOTS st1 = DOTS st /\ grid st1 = grid st
    /\ text_update_counter st1 = text_update_counter st
    /\ is_paused st1 = paused_after events (is_paused st).
Proof.
  induction events as [| event events IH]; intros st Hz.
  - exists st. repeat split. exact Hz.
  - destruct (handle_event_Ok mouse event st Hz)
      as (st1 & Hev & Hz1 & Hd1 & Hg1 & Ht1 & Hp1).
    destruct (IH st1 Hz1) as (st2 & Hevs & Hz2 & Hd2 & Hg2 & Ht2 & Hp2).
    exists st2. cbn [for_each]. rewrite Hev. cbn [mbind result_bind].
    split; [exact Hevs |]. split; [exact Hz2 |].
    split; [congruence |]. split; [congruence |]. split; [congruence |].
    rewrite Hp2, Hp1. reflexivity.
Qed.

(** What an iteration does once its events are handled. *)
Lemma iteration_events mouse events st st1 :
  for_each events (handle_event mouse)
    {| running := running st; is_paused := is_paused st;
       text_update_counter := (text_update_counter st + 1)%Z;
       globals := globals st; grid := grid st; DOTS := DOTS st;
       visible_dots := visible_dots st |} = Ok st1 ->
  iteration mouse events st
  = match physics_step st1 with
    | Raise e => Fails (Uncaught e)
    | Ok st =>
        match visibility_step st with
        | Fails e => Fails e
        | Completes st =>
            let '(counter, renew) := text_step (text_update_counter st) in
            let st := {| running := running st; is_paused := is_paused st;
                         text_update_counter := counter;
                         globals := globals st; grid := grid st;
                         DOTS := DOTS st;
                         visible_dots := visible_dots st |} in
            if renew then
              match screen_to_world (globals st) mouse with
              | Raise e => Fails (Uncaught e)
              | Ok world_mouse => Completes (st, Some world_mouse)
              end
            else Completes (st, None)
        end
    end.
Proof. intros Hev. unfold iteration. rewrite Hev. reflexivity. Qed.

Lemma visibility_step_ready st :
  ready st ->
  visibility_step st
  = Completes {| running := running st; is_paused := is_paused st;
                 text_update_counter := text_update_counter st;
                 globals := globals st; grid := grid st;
                 DOTS := shown (globals st) <$> DOTS st;
                 visible_dots
                 := tally (on_screen_count (globals st)) (DOTS st) |}.
Proof.
  intros (gr & Hg & Hkeys). unfold visibility_step.
  rewrite Hg, (count_visible_complete _ _ _ Hkeys). reflexivity.
Qed.

Lemma physics_step_ready st st1 :
  is_paused st = false -> physics_step st = Ok st1 ->
  ready st1 /\ globals st1 = globals st /\ is_paused st1 = false
  /\ text_update_counter st1 = text_update_counter st
  /\ exists new_grid, physics (globals st) (DOTS st) = Ok (DOTS st1, new_grid).
Proof.
  intros Hp. unfold physics_step. rewrite Hp.
  destruct (physics (globals st) (DOTS st)) as [[dots new_grid] |] eqn:Hph;
    [| discriminate].
  cbn [mbind result_bind]. intros [= <-].
  cbn [globals is_paused text_update_counter DOTS].
  split; [| repeat split; eauto].
  exists new_grid. cbn [grid DOTS]. split; [reflexivity |].
  destruct (physics_Ok _ _ _ _ Hph) as [Hu _].
  rewrite (physics_length _ _ _ _ Hph). apply (update_all_keys _ _ _ _ Hu).
Qed.

(** The text of the GUI at the end of an iteration. *)
Lemma text_renewal mouse (st : Loop) :
  current_zoom (globals st) <> 0 ->
  exists text,
    (let '(counter, renew) := text_step (text_update_counter st) in
     let st' := {| running := running st; is_paused := is_paused st;
                   text_update_counter := counter;
                   globals := globals st; grid := grid st;
                   DOTS := DOTS st;
                   visible_dots := visible_dots st |} in
     if renew then
       match screen_to_world (globals st') mouse with
       | Raise e => Fails (Uncaught e)
       | Ok world_mouse => Completes (st', Some world_mouse)
       end
     else Completes (st', None))
    = Completes
        ({| running := running st; is_paused := is_paused st;
            text_update_counter := fst (text_step (text_update_counter st));
            globals := globals st; grid := grid st; DOTS := DOTS st;
            visible_dots := visible_dots st |}, text)
    /\ (text = None <-> snd (text_step (text_update_counter st)) = false)
    /\ (forall w, text = Some w -> screen_to_world (globals st) mouse = Ok w).
Proof.
  intros Hz. destruct (text_step (text_update_counter st)) as [counter renew].
  cbn [fst snd globals]. destruct renew.
  - rewrite screen_to_world_eq by assumption. eexists.
    split; [reflexivity |]. split; [split; discriminate |].
    intros w [= <-]. reflexivity.
  - exists None. split; [reflexivity |]. split; [tauto | discriminate].
Qed.

(** X19. A paused iteration freezes the motion and nothing else.  Once the
    grid of an earlier iteration exists, an iteration that is paused after
    its events completes, leaves the position, velocity, size and color of
    every dot as they are, and still sets every [visible] flag, and counts
    the visible dots, for the camera as the events of this iteration leave
    it: panning and zooming while paused keep the culling right. *)
Theorem paused_iteration mouse events st :
  current_zoom (globals st) <> 0 -> ready st ->
  paused_after events (is_paused st) = true ->
  exists st' text,
    iteration mouse events st = Completes (st', text)
    /\ is_paused st' = true /\ grid st' = grid st
    /\ DOTS st' = shown (globals st') <$> DOTS st
    /\ visible_dots st' = tally (on_screen_count (globals st')) (DOTS st)
    /\ exists st1,
         for_each events (handle_event mouse)
           {| running := running st; is_paused := is_paused st;
              text_update_counter := (text_update_counter st + 1)%Z;
              globals := globals st; grid := grid st; DOTS := DOTS st;
              visible_dots := visible_dots st |} = Ok st1
         /\ globals st' = globals st1.
Proof.
  intros Hz Hready Hpaused.
  set (st0 := {| running := running st; is_paused := is_paused st;
                 text_update_counter := (text_update_counter st + 1)%Z;
                 globals := globals st; grid := grid st; DOTS := DOTS st;
                 visible_dots := visible_dots st |}).
  destruct (handle_events_Ok mouse events st0 Hz)
    as (st1 & Hev & Hz1 & Hd1 & Hg1 & Ht1 & Hp1).
  cbn [st0 DOTS grid text_update_counter is_paused] in Hd1, Hg1, Ht1, Hp1.
  rewrite Hpaused in Hp1.
  rewrite (iteration_events _ _ _ _ Hev).
  unfold physics_step. rewrite Hp1.
  assert (Hr1 : ready st1).
  { destruct Hready as (gr & Hg & Hk). exists gr. rewrite Hg1, Hd1. auto. }
  rewrite (visibility_step_ready st1 Hr1).
  destruct (text_renewal mouse
              {| running := running st1; is_paused := is_paused st1;
                 text_update_counter := text_update_counter st1;
                 globals := globals st1; grid := grid st1;
                 DOTS := shown (globals st1) <$> DOTS st1;
                 visible_dots
                 := tally (on_screen_count (globals st1)) (DOTS st1) |} Hz1)
    as (text & Htext & _).
  eexists _, text. split; [exact Htext |].
  cbn [is_paused grid DOTS visible_dots globals].
  rewrite Hd1. repeat split; try assumption. eauto.
Qed.

Lemma ready_tick :
  ready {| running := true; is_paused := true; text_update_counter := 1;
           globals := camera_origin; grid := Some tick_grid;
           DOTS := tick_after; visible_dots := 0 |}.
Proof.
  exists tick_grid. split; [reflexivity |].
  apply (update_all_keys initial_globals tick_dots _ _ update_all_tick_dots).
Qed.

Lemma paused_iteration_witness :
  exists st' text,
    iteration (400, 300) [MOUSEMOTION true (10, 0); OTHER]
      {| running := true; is_paused := true; text_update_counter := 1;
         globals := camera_origin; grid := Some tick_grid;
         DOTS := tick_after; visible_dots := 0 |}
    = Completes (st', text)
    /\ is_paused st' = true
    /\ DOTS st' = shown (globals st') <$> tick_after.
Proof.
  destruct (paused_iteration (400, 300) [MOUSEMOTION true (10, 0); OTHER]
              {| running := true; is_paused := true; text_update_counter := 1;
                 globals := camera_origin; grid := Some tick_grid;
                 DOTS := tick_after; visible_dots := 0 |})
    as (st' & text & Hit & Hp & _ & Hd & _).
  - simpl. lra.
  - exact ready_tick.
  - reflexivity.
  - exists st', text. auto.
Defined.

Lemma iteration_NameError mouse events st :
  current_zoom (globals st) <> 0 -> grid st = None ->
  paused_after events (is_paused st) = true ->
  iteration mouse events st = Fails NameError.
Proof.
  intros Hz Hgrid Hpaused.
  set (st0 := {| running := running st; is_paused := is_paused st;
                 text_update_counter := (text_update_counter st + 1)%Z;
                 globals := globals st; grid := grid st; DOTS := DOTS st;
                 visible_dots := visible_dots st |}).
  destruct (handle_events_Ok mouse events st0 Hz)
    as (st1 & Hev & Hz1 & Hd1 & Hg1 & Ht1 & Hp1).
  cbn [st0 DOTS grid text_update_counter is_paused] in Hd1, Hg1, Ht1, Hp1.
  rewrite Hpaused in Hp1.
  rewrite (iteration_events _ _ _ _ Hev).
  unfold physics_step. rewrite Hp1. unfold visibility_step.
  rewrite Hg1, Hgrid. reflexivity.
Qed.

(** An iteration that starts with a grid, or that is not paused, does not
    end with [NameError], and leaves a grid when it completes. *)
Lemma iteration_ready mouse events st :
  current_zoom (globals st) <> 0 ->
  ready st \/ paused_after events (is_paused st) = false ->
  match iteration mouse events st with
  | Completes (st', _) => ready st' /\ current_zoom (globals st') <> 0
  | Fails e => e <> NameError
  end.
Proof.
  intros Hz Hor.
  set (st0 := {| running := running st; is_paused := is_paused st;
                 text_update_counter := (text_update_counter st + 1)%Z;
                 globals := globals st; grid := grid st; DOTS := DOTS st;
                 visible_dots := visible_dots st |}).
  destruct (handle_events_Ok mouse events st0 Hz)
    as (st1 & Hev & Hz1 & Hd1 & Hg1 & Ht1 & Hp1).
  cbn [st0 DOTS grid text_update_counter is_paused] in Hd1, Hg1, Ht1, Hp1.
  rewrite (iteration_events _ _ _ _ Hev).
  assert (Hstep : match physics_step st1 with
                  | Ok st2 => ready st2 /\ globals st2 = globals st1
                  | Raise _ => True
                  end).
  { destruct (is_paused st1) eqn:Hp.
    - unfold physics_step. rewrite Hp. split; [| reflexivity].
      destruct Hor as [(gr & Hg & Hk) | Hfalse]; [| congruence].
      exists gr. rewrite Hg1, Hd1. auto.
    - destruct (physics_step st1) as [st2 |] eqn:Hps; [| exact I].
      destruct (physics_step_ready _ _ Hp Hps) as (Hr & Hgl & _). auto. }
  destruct (physics_step st1) as [st2 | e]; [| discriminate].
  destruct Hstep as [Hr2 Hgl2].
  rewrite (visibility_step_ready st2 Hr2).
  assert (Hz2 : current_zoom (globals st2) <> 0) by (rewrite Hgl2; exact Hz1).
  destruct (text_renewal mouse
              {| running := running st2; is_paused := is_paused st2;
                 text_update_counter := text_update_counter st2;
                 globals := globals st2; grid := grid st2;
                 DOTS := shown (globals st2) <$> DOTS st2;
                 visible_dots
                 := tally (on_screen_count (globals st2)) (DOTS st2) |} Hz2)
    as (text & Htext & _).
  match goal with
  | |- match ?it with _ => _ end =>
      replace it with
        (Completes
           ({| running := running st2; is_paused := is_paused st2;
               text_update_counter
               := fst (text_step (text_update_counter st2));
               globals := globals st2; grid := grid st2;
               DOTS := shown (globals st2) <$> DOTS st2;
               visible_dots
               := tally (on_screen_count (globals st2)) (DOTS st2) |}, text))
        by (symmetry; exact Htext)
  end.
  split; [| exact Hz2].
  destruct Hr2 as (gr & Hg & Hk). exists gr. cbn [grid DOTS].
  rewrite length_fmap. auto.
Qed.

Lemma main_loop_ready inputs : forall st,
  current_zoom (globals st) <> 0 -> ready st ->
  main_loop inputs st <> Fails NameError.
Proof.
  induction inputs as [| [mouse events] rest IH]; intros st Hz Hr;
    cbn [main_loop]; [discriminate |].
  destruct (running st); [| discriminate].
  pose proof (iteration_ready mouse events st Hz (or_introl Hr)) as Hit.
  destruct (iteration mouse events st) as [[st1 text] | e].
  - destruct Hit as [Hr1 Hz1]. specialize (IH st1 Hz1 Hr1).
    destruct (main_loop rest st1) as [[st2 texts] | e]; [discriminate |].
    congruence.
  - congruence.
Qed.

(** X20. [grid] is first assigned by the physics of an iteration that is not
    paused, and the visibility pass reads it in every iteration.  So the
    program ends with [NameError] exactly when the pause key has left the
    very first iteration paused; an iteration that is not paused or that
    starts with a grid never ends with [NameError], and once a grid exists
    the loop never does. *)
Theorem main_loop_NameError dots mouse events rest :
  (main_loop ((mouse, events) :: rest) (initial_loop dots) = Fails NameError
   <-> paused_after events false = true)
  /\ forall inputs st,
       current_zoom (globals st) <> 0 -> ready st ->
       main_loop inputs st <> Fails NameError.
Proof.
  split; [| intros inputs st; apply main_loop_ready].
  assert (Hz : current_zoom (globals (initial_loop dots)) <> 0)
    by exact initial_zoom_nonzero.
  cbn [main_loop initial_loop running]. fold (initial_loop dots).
  destruct (paused_after events false) eqn:Hp.
  - rewrite (iteration_NameError mouse events (initial_loop dots) Hz eq_refl Hp).
    split; reflexivity || auto.
  - split; [| discriminate]. intros Hfail. exfalso.
    pose proof (iteration_ready mouse events (initial_loop dots) Hz
                  (or_intror Hp)) as Hit.
    destruct (iteration mouse events (initial_loop dots))
      as [[st1 text] | e]; [| congruence].
    destruct Hit as [Hr1 Hz1].
    pose proof (main_loop_ready rest st1 Hz1 Hr1) as Hrest.
    destruct (main_loop rest st1) as [[st2 texts] | e]; [discriminate |].
    congruence.
Qed.

Lemma handle_event_counter mouse event st st1 :
  handle_event mouse event st = Ok st1 ->
  text_update_counter st1 = text_update_counter st.
Proof.
  destruct event as [| [| |] | y | b rel | size |]; cbn [handle_event];
    try (intros [= <-]; reflexivity).
  - destruct (on_mousewheel _ _ _); [| discriminate].
    cbn [mbind result_bind]. intros [= <-]. reflexivity.
  - destruct (on_mousemotion _ _ _); [| discriminate].
    cbn [mbind result_bind]. intros [= <-]. reflexivity.
Qed.

Lemma handle_events_counter mouse events : forall st st1,
  for_each events (handle_event mouse) st = Ok st1 ->
  text_update_counter st1 = text_update_counter st.
Proof.
  induction events as [| event events IH]; intros st st1; cbn [for_each].
  - intros [= <-]. reflexivity.
  - destruct (handle_event mouse event st) as [st0 |] eqn:Hev;
      [| discriminate].
    cbn [mbind result_bind]. intros Hevs.
    rewrite (IH _ _ Hevs). apply (handle_event_counter _ _ _ _ Hev).
Qed.

Lemma iteration_counter mouse events st st' text :
  iteration mouse events st = Completes (st', text) ->
  text_update_counter st' = fst (text_step (text_update_counter st + 1))
  /\ (text = None <-> snd (text_step (text_update_counter st + 1)) = false).
Proof.
  unfold iteration.
  destruct (for_each events (handle_event mouse) _) as [st1 |] eqn:Hev;
    [| discriminate].
  apply handle_events_counter in Hev. cbn [text_update_counter] in Hev.
  destruct (physics_step st1) as [st2 |] eqn:Hps; [| discriminate].
  assert (H2 : text_update_counter st2 = text_update_counter st1).
  { unfold physics_step in Hps. destruct (is_paused st1);
      [injection Hps as <-; reflexivity |].
    destruct (physics _ _) as [[ds gr] |]; [| discriminate].
    cbn [mbind result_bind] in Hps. injection Hps as <-. reflexivity. }
  destruct (visibility_step st2) as [st3 |] eqn:Hvs; [| discriminate].
  assert (H3 : text_update_counter st3 = text_update_counter st2).
  { unfold visibility_step in Hvs. destruct (grid st2); [| discriminate].
    destruct (count_visible _ _ _) as [[ds n] |]; [| discriminate].
    injection Hvs as <-. reflexivity. }
  rewrite H3, H2, Hev.
  destruct (text_step (text_update_counter st + 1)) as [counter renew].
  cbn [fst snd]. destruct renew.
  - destruct (screen_to_world _ _); [| discriminate].
    intros [= <- <-]. split; [reflexivity |]. split; discriminate.
  - intros [= <- <-]. split; [reflexivity |]. tauto.
Qed.

Lemma main_loop_texts inputs : forall st st' texts,
  (0 <= text_update_counter st < 3)%Z ->
  main_loop inputs st = Completes (st', texts) ->
  (0 <= text_update_counter st' < 3)%Z
  /\ forall i text, texts !! i = Some text ->
       text <> None
       <-> ((text_update_counter st + Z.of_nat i + 1) mod 3 = 0)%Z.
Proof.
  induction inputs as [| [mouse events] rest IH]; intros st st' texts Hc;
    cbn [main_loop].
  - intros [= <- <-]. split; [exact Hc |]. intros i text Hi. discriminate.
  - destruct (running st).
    + destruct (iteration mouse events st) as [[st1 text1] |] eqn:Hit;
        [| discriminate].
      destruct (main_loop rest st1) as [[st2 texts2] |] eqn:Hrest;
        [| discriminate].
      intros [= <- <-].
      destruct (iteration_counter _ _ _ _ _ Hit) as [Hc1 Ht1].
      unfold text_step in Hc1, Ht1.
      destruct (3 <=? text_update_counter st + 1)%Z eqn:Hle;
        cbn [fst snd] in Hc1, Ht1;
        [apply Z.leb_le in Hle | apply Z.leb_gt in Hle].
      * destruct (IH st1 st2 texts2) as [Hc2 Hi2]; [lia | exact Hrest |].
        split; [exact Hc2 |]. intros [| i] text Hi.
        -- injection Hi as <-.
           assert (Hmod : ((text_update_counter st + Z.of_nat 0 + 1) mod 3
                           = 0)%Z)
             by (replace (text_update_counter st) with 2%Z by lia;
                 reflexivity).
           split; [intros _; exact Hmod |].
           intros _ Hnone. apply Ht1 in Hnone. discriminate.
        -- rewrite (Hi2 i text Hi), Hc1.
           replace (text_update_counter st) with 2%Z by lia.
           replace (2 + Z.of_nat (S i) + 1)%Z with (0 + Z.of_nat i + 1 + 1 * 3)%Z
             by lia.
           rewrite Z.mod_add by lia. reflexivity.
      * destruct (IH st1 st2 texts2) as [Hc2 Hi2]; [lia | exact Hrest |].
        split; [exact Hc2 |]. intros [| i] text Hi.
        -- injection Hi as <-.
           assert (Hnone : text1 = None) by (apply Ht1; reflexivity).
           split; [intros Hne; contradiction |].
           intros Hmod. exfalso.
           rewrite Z.add_0_r, Z.mod_small in Hmod by lia. lia.
        -- rewrite (Hi2 i text Hi), Hc1.
           replace (text_update_counter st + 1 + Z.of_nat i + 1)%Z
             with (text_update_counter st + Z.of_nat (S i) + 1)%Z by lia.
           reflexivity.
    + intros [= <- <-]. split; [exact Hc |]. intros i text Hi. discriminate.
Qed.

(** X21. The GUI text is made anew in every third iteration and in no other:
    in a run of the main loop from the start, the iteration with index [i]
    (from 0) makes the text if and only if [i + 1] is a multiple of 3. *)
Theorem gui_text_every_third inputs dots st texts :
  main_loop inputs (initial_loop dots) = Completes (st, texts) ->
  forall i text, texts !! i = Some text ->
    text <> None <-> ((Z.of_nat i + 1) mod 3 = 0)%Z.
Proof.
  intros Hloop i text Hi.
  destruct (main_loop_texts inputs (initial_loop dots) st texts) as [_ Hs];
    [cbn; lia | exact Hloop |].
  exact (Hs i text Hi).
Qed.

Lemma iteration_no_dots mouse c g old_grid v :
  current_zoom g <> 0 ->
  iteration mouse []
    {| running := true; is_paused := false; text_update_counter := c;
       globals := g; grid := old_grid; DOTS := []; visible_dots := v |}
  = Completes
      ({| running := true; is_paused := false;
          text_update_counter := fst (text_step (c + 1));
          globals := g; grid := Some []; DOTS := []; visible_dots := 0 |},
       if snd (text_step (c + 1))
       then Some (fst mouse / current_zoom g - fst (CURRENT_POSITION g),
                  snd mouse / current_zoom g - snd (CURRENT_POSITION g))
       else None).
Proof.
  intros Hz. unfold iteration. cbn [for_each running is_paused
    text_update_counter globals grid DOTS visible_dots].
  unfold physics_step. cbn [is_paused globals DOTS].
  change (physics g []) with (Ok ([] : list Dot, [] : Grid)).
  cbn [mbind result_bind]. unfold visibility_step. cbn [grid globals DOTS].
  change (count_visible g [] []) with (Ok ([] : list Dot, 0%Z)).
  cbv beta iota.
  cbn [running is_paused text_update_counter globals grid DOTS visible_dots].
  destruct (text_step (c + 1)) as [counter renew]. cbn [fst snd].
  destruct renew; [| reflexivity].
  cbn [globals]. rewrite screen_to_world_eq by assumption. reflexivity.
Qed.

Lemma main_loop_no_dots :
  exists st w,
    main_loop [((400, 300), []); ((400, 300), []); ((400, 300), [])]
      (initial_loop [])
    = Completes (st, [None; None; Some w]).
Proof.
  unfold initial_loop. cbn [main_loop running].
  rewrite iteration_no_dots by exact initial_zoom_nonzero.
  cbn [running text_step Z.leb Z.add Z.compare Pos.compare Pos.compare_cont
       Pos.add fst snd]. cbv beta iota.
  cbn [main_loop running].
  rewrite iteration_no_dots by exact initial_zoom_nonzero.
  cbn [running text_step Z.leb Z.add Z.compare Pos.compare Pos.compare_cont
       Pos.add Pos.succ fst snd]. cbv beta iota.
  cbn [main_loop running].
  rewrite iteration_no_dots by exact initial_zoom_nonzero.
  cbn [running text_step Z.leb Z.add Z.compare Pos.compare Pos.compare_cont
       Pos.add Pos.succ fst snd]. cbv beta iota.
  eexists _, _. reflexivity.
Qed.

Lemma gui_text_every_third_witness :
  exists st w,
    main_loop [((400, 300), []); ((400, 300), []); ((400, 300), [])]
      (initial_loop [])
    = Completes (st, [None; None; Some w])
    /\ forall i text, [None; None; Some w] !! i = Some text ->
         text <> None <-> ((Z.of_nat i + 1) mod 3 = 0)%Z.
Proof.
  destruct main_loop_no_dots as (st & w & Hloop).
  exists st, w. split; [exact Hloop |].
  exact (gui_text_every_third _ _ _ _ Hloop).
Defined.

(** ** A pair that the broad phase does not see *)

Lemma update_Ok g d key grid0 e grid1 :
  update g d key grid0 = Ok (e, grid1) ->
  current_zoom g <> 0 /\ e = moved d
  /\ grid1 = grid_append grid0 (cell_of g (pos (moved d))) key.
Proof.
  intros Hu. destruct (Req_dec_T (current_zoom g) 0) as [Hz | Hz].
  - rewrite update_zero in Hu by assumption. discriminate.
  - rewrite update_eq in Hu by assumption. injection Hu as <- <-. auto.
Qed.

(** X22. The broad phase does not see a pair in two cells that are neither
    the same nor neighbors: a tick on two dots that land in such cells
    leaves both as their own [update] leaves them, whether or not
    [detect_collision] holds of them.  With the sizes of the program, up to
    19 against cells of 25, such dots can overlap. *)
Theorem far_pair_unresolved g d1 d2 e1 e2 grid1 grid2 c1 c2 :
  update g d1 0%nat [] = Ok (e1, grid1) ->
  update g d2 1%nat grid1 = Ok (e2, grid2) ->
  get_grid_cell g (pos e1) = Ok c1 -> get_grid_cell g (pos e2) = Ok c2 ->
  c2 <> c1 -> (forall o, o ∈ neighbor_offsets -> c2 <> shift c1 o) ->
  physics g [d1; d2] = Ok ([e1; e2], grid2).
Proof.
  intros Hu1 Hu2 Hc1 Hc2 Hne Hfar.
  destruct (update_Ok _ _ _ _ _ _ Hu1) as (Hz & -> & ->).
  destruct (update_Ok _ _ _ _ _ _ Hu2) as (_ & -> & ->).
  rewrite get_grid_cell_eq in Hc1, Hc2 by assumption.
  apply Ok_inj in Hc1, Hc2. rewrite Hc1, Hc2.
  unfold physics, update_all. cbn [length seq for_each].
  do 2 (erewrite update_ref_eq; [| exact Hz | reflexivity];
        cbn [mbind result_bind]).
  cbn [insert list_insert]. rewrite Hc1, Hc2.
  cbn [grid_append]. rewrite decide_False by auto. cbn [grid_append].
  set (grid2 := [(c1, [0%nat]); (c2, [1%nat])]).
  assert (Hc : collisions grid2 [moved d1; moved d2]
               = Ok [moved d1; moved d2]).
  { assert (Hnone : forall c o, (c = c1 \/ c = c2) -> o ∈ neighbor_offsets ->
              grid_get grid2 (shift c o) = None).
    { intros c o Hc Ho. unfold grid2. cbn [grid_get].
      destruct Hc as [-> | ->].
      - rewrite decide_False by (symmetry; apply shift_neq, Ho).
        rewrite decide_False by (apply Hfar, Ho). reflexivity.
      - rewrite decide_False.
        + rewrite decide_False by (symmetry; apply shift_neq, Ho).
          reflexivity.
        + intros Heq.
          apply (Hfar ((- fst o)%Z, (- snd o)%Z));
            [apply neighbor_offsets_opp, Ho |].
          rewrite Heq, shift_back. reflexivity. }
    unfold collisions. apply for_each_skip. intros [c ks] Hin.
    assert (Hcell : (c = c1 \/ c = c2) /\ exists k, ks = [k]).
    { unfold grid2 in Hin. apply elem_of_cons in Hin as [Hin | Hin].
      - injection Hin as -> ->. eauto.
      - apply list_elem_of_singleton in Hin. injection Hin as -> ->. eauto. }
    destruct Hcell as [Hcell [k ->]].
    change (same_cell [k] [moved d1; moved d2])
      with (Ok [moved d1; moved d2]).
    cbn [mbind result_bind]. unfold neighbor_cells.
    apply for_each_skip. intros o Ho.
    fold (shift c o). rewrite (Hnone c o Hcell Ho). reflexivity. }
  rewrite Hc. reflexivity.
Qed.

Lemma moved_big_l : moved big_l = set_pos big_l (24 + 0, 30 + 0).
Proof. apply moved_inside; unfold WORLD_SIZE; simpl; lra. Qed.

Lemma moved_big_r : moved big_r = set_pos big_r (61 + 0, 30 + 0).
Proof. apply moved_inside; unfold WORLD_SIZE; simpl; lra. Qed.

Lemma far_pair_unresolved_witness :
  detect_collision (moved big_l) (moved big_r) = true
  /\ physics initial_globals [big_l; big_r]
     = Ok ([moved big_l; moved big_r],
           [((0, 1)%Z, [0%nat]); ((2, 1)%Z, [1%nat])]).
Proof.
  assert (H1 : cell_of initial_globals (pos (moved big_l)) = (0, 1)%Z)
    by (rewrite moved_big_l; apply cell_of_eq;
        [reflexivity | simpl; lra | simpl; lra]).
  assert (H2 : cell_of initial_globals (pos (moved big_r)) = (2, 1)%Z)
    by (rewrite moved_big_r; apply cell_of_eq;
        [reflexivity | simpl; lra | simpl; lra]).
  split.
  - rewrite moved_big_l, moved_big_r. apply detect_collision_exact; simpl; lra.
  - apply (far_pair_unresolved initial_globals big_l big_r
             (moved big_l) (moved big_r) [((0, 1)%Z, [0%nat])]
             [((0, 1)%Z, [0%nat]); ((2, 1)%Z, [1%nat])] (0, 1)%Z (2, 1)%Z).
    + rewrite update_eq by exact initial_zoom_nonzero. rewrite H1.
      reflexivity.
    + rewrite update_eq by exact initial_zoom_nonzero. rewrite H2.
      reflexivity.
    + rewrite get_grid_cell_eq by exact initial_zoom_nonzero. rewrite H1.
      reflexivity.
    + rewrite get_grid_cell_eq by exact initial_zoom_nonzero. rewrite H2.
      reflexivity.
    + discriminate.
    + intros o Ho Heq. apply elem_of_neighbor_offsets in Ho.
      destruct o as [ox oy]. unfold shift in Heq. cbn [fst snd] in *.
      injection Heq as Hx Hy. lia.
Defined.

(** ** The end of the main loop *)

Lemma handle_event_running mouse event st st1 :
  handle_event mouse event st = Ok st1 ->
  running st1 = running st && negb (is_quit event).
Proof.
  destruct event as [| [| |] | y | b rel | size |];
    cbn [handle_event is_quit negb];
    rewrite ?andb_true_r, ?andb_false_r;
    try (intros [= <-]; reflexivity).
  - destruct (on_mousewheel _ _ _); [| discriminate].
    cbn [mbind result_bind]. intros [= <-]. reflexivity.
  - destruct (on_mousemotion _ _ _); [| discriminate].
    cbn [mbind result_bind]. intros [= <-]. reflexivity.
Qed.

Lemma handle_events_running mouse events : forall st st1,
  for_each events (handle_event mouse) st = Ok st1 ->
  running st1 = running st && forallb (fun event => negb (is_quit event)) events.
Proof.
  induction events as [| event events IH]; intros st st1; cbn [for_each forallb].
  - intros [= <-]. rewrite andb_true_r. reflexivity.
  - destruct (handle_event mouse event st) as [st0 |] eqn:Hev;
      [| discriminate].
    cbn [mbind result_bind]. intros Hevs.
    rewrite (IH _ _ Hevs), (handle_event_running _ _ _ _ Hev).
    rewrite andb_assoc. reflexivity.
Qed.

Lemma iteration_running mouse events st st' text :
  iteration mouse events st = Completes (st', text) ->
  running st'
  = running st && forallb (fun event => negb (is_quit event)) events.
Proof.
  unfold iteration.
  destruct (for_each events (handle_event mouse) _) as [st1 |] eqn:Hev;
    [| discriminate].
  apply handle_events_running in Hev. cbn [running] in Hev.
  destruct (physics_step st1) as [st2 |] eqn:Hps; [| discriminate].
  assert (H2 : running st2 = running st1).
  { unfold physics_step in Hps. destruct (is_paused st1);
      [injection Hps as <-; reflexivity |].
    destruct (physics _ _) as [[ds gr] |]; [| discriminate].
    cbn [mbind result_bind] in Hps. injection Hps as <-. reflexivity. }
  destruct (visibility_step st2) as [st3 |] eqn:Hvs; [| discriminate].
  assert (H3 : running st3 = running st2).
  { unfold visibility_step in Hvs. destruct (grid st2); [| discriminate].
    destruct (count_visible _ _ _) as [[ds n] |]; [| discriminate].
    injection Hvs as <-. reflexivity. }
  destruct (text_step _) as [counter renew]. destruct renew.
  - destruct (screen_to_world _ _); [| discriminate].
    intros [= <- <-]. cbn [running]. congruence.
  - intros [= <- <-]. cbn [running]. congruence.
Qed.

(** X23. The loop ends on [QUIT] and on the escape key and on nothing else,
    and it ends after the iteration in which the event arrives: that
    iteration is done in full, whatever comes after it is not looked at, and
    without such an event an iteration that completes leaves the loop
    running. *)
Theorem main_loop_quits mouse events rest st :
  running st = true ->
  (forallb (fun event => negb (is_quit event)) events = false ->
   main_loop ((mouse, events) :: rest) st
   = match iteration mouse events st with
     | Completes (st', text) => Completes (st', [text])
     | Fails e => Fails e
     end)
  /\ (forallb (fun event => negb (is_quit event)) events = true ->
      forall st' text,
        iteration mouse events st = Completes (st', text) ->
        running st' = true).
Proof.
  intros Hrun. split.
  - intros Hquit. cbn [main_loop]. rewrite Hrun.
    destruct (iteration mouse events st) as [[st' text] |] eqn:Hit;
      [| reflexivity].
    apply iteration_running in Hit. rewrite Hrun, Hquit in Hit.
    destruct rest as [| [m evs] rest]; cbn [main_loop]; [reflexivity |].
    rewrite Hit. reflexivity.
  - intros Hnone st' text Hit.
    apply iteration_running in Hit. rewrite Hit, Hrun, Hnone. reflexivity.
Qed.

Lemma main_loop_quits_witness :
  main_loop [((400, 300), [OTHER; QUIT]); ((400, 300), [])] (initial_loop [])
  = match iteration (400, 300) [OTHER; QUIT] (initial_loop []) with
    | Completes (st', text) => Completes (st', [text])
    | Fails e => Fails e
    end.
Proof.
  apply (proj1 (main_loop_quits (400, 300) [OTHER; QUIT]
                  [((400, 300), [])] (initial_loop []) eq_refl)).
  reflexivity.
Defined.

(** ** Culling against what is drawn *)

(** X24. [check_visibility] keeps a margin of [size] around the screen
    while the circle drawn for a dot has the radius [size * current_zoom].
    Up to zoom 1 the culling is safe: a dot whose disc of that radius, around
    its screen point, reaches the screen is visible.  Above zoom 1 it is not:
    for every dot of positive size there is a place where its disc reaches
    the screen and [check_visibility] answers [False]. *)
Theorem culling_and_zoom g d :
  0 <= fst (WINDOW_SIZE g) -> 0 <= snd (WINDOW_SIZE g) ->
  (0 < current_zoom g <= 1 -> 0 <= size d ->
   disc_on_screen g d -> snd (check_visibility g d) = true)
  /\ (1 < current_zoom g -> 0 < size d ->
      exists p,
        disc_on_screen g (set_pos d p)
        /\ snd (check_visibility g (set_pos d p)) = false).
Proof.
  intros Hw Hh. split.
  - intros Hz Hs ([px py] & [Hx Hy] & Hdist).
    apply check_visibility_true. unfold drawn_radius in Hdist.
    destruct (world_to_screen g (pos d)) as [cx cy]. cbn [fst snd] in *.
    set (r := size d * current_zoom g) in *.
    assert (Hr : 0 <= r <= size d) by (unfold r; split; nra).
    assert (Hsq : forall a b, a ^ 2 + b ^ 2 <= r ^ 2 -> - r <= a <= r).
    { intros a b Hab. pose proof (pow2_ge_0 b) as Hb.
      split; apply Rnot_lt_le; intros Hlt; nra. }
    pose proof (Hsq _ _ Hdist) as Hdx.
    rewrite Rplus_comm in Hdist. pose proof (Hsq _ _ Hdist) as Hdy.
    lra.
  - intros Hz Hs.
    set (cx := - (size d + size d * current_zoom g) / 2).
    exists (cx / current_zoom g - fst (CURRENT_POSITION g),
            0 / current_zoom g - snd (CURRENT_POSITION g)).
    assert (Hscreen : world_to_screen g
              (pos (set_pos d
                      (cx / current_zoom g - fst (CURRENT_POSITION g),
                       0 / current_zoom g - snd (CURRENT_POSITION g))))
            = (cx, 0)).
    { unfold world_to_screen. cbn [pos set_pos fst snd].
      f_equal; field; lra. }
    split.
    + exists (0, 0). unfold on_screen, drawn_radius. rewrite Hscreen.
      cbn [fst snd size set_pos]. split; [lra |].
      assert (Hcx : 0 <= - cx <= size d * current_zoom g)
        by (unfold cx; split; nra).
      replace ((0 - cx) ^ 2 + (0 - 0) ^ 2) with ((- cx) ^ 2) by ring.
      apply pow_incr. exact Hcx.
    + apply not_true_is_false. rewrite check_visibility_true, Hscreen.
      cbn [fst snd size set_pos]. unfold cx. intros [[Hlo _] _]. nra.
Qed.

Lemma culling_and_zoom_witness :
  (disc_on_screen camera_origin dot_near ->
   snd (check_visibility camera_origin dot_near) = true)
  /\ (exists p,
        disc_on_screen (zoomed 2) (set_pos dot_near p)
        /\ snd (check_visibility (zoomed 2) (set_pos dot_near p)) = false).
Proof.
  split.
  - apply (culling_and_zoom camera_origin dot_near); simpl; lra.
  - apply (culling_and_zoom (zoomed 2) dot_near); simpl; lra.
Defined.
